(** * The B-tree modify walk of [src/btree/modify_oper.cc]

    A shallow embedding of [insert_root], [check_and_handle_split],
    [check_and_handle_underfull], [get_root] and [run_btree_modify_oper]
    over an explicit model of the buffer cache, with the node primitives
    (leaf_node / internal_node) and the operator taken as parameters. *)

From Stdlib Require Import ZArith List Bool Lia.
From Stdlib Require Import Strings.Byte.
From stdpp Require Import base gmap sets.
Import ListNotations.
Local Open Scope Z_scope.

(** ** Block ids, keys and values *)

Abbreviation block_id := N (only parsing).

(** Modelled from the spec: the distinguished SUPERBLOCK block id (the constant
    SUPERBLOCK_ID is declared outside this file). *)
Definition SUPERBLOCK_ID : block_id := 0%N.

(** Modelled from the spec: the distinguished NONE block id (the constant
    NULL_BLOCK_ID is declared outside this file; it is the all-ones id). *)
Definition NULL_BLOCK_ID : block_id := 4294967295%N.

(** A [btree_key] is its [size] bytes of [contents]. *)
Definition btree_key := list byte.

Fixpoint memcmp (a b : list byte) (n : nat) : Z :=
  match n, a, b with
  | S n', x :: a', y :: b' =>
      if N.eqb (Byte.to_N x) (Byte.to_N y) then memcmp a' b' n'
      else Z.of_N (Byte.to_N x) - Z.of_N (Byte.to_N y)
  | _, _, _ => 0
  end.

(** Modelled from the spec: [sized_strcmp] (utils, not in this file), the
    lexicographic comparison over (contents, size) that orders keys. *)
Definition sized_strcmp (s1 s2 : btree_key) : Z :=
  let min_len := Nat.min (length s1) (length s2) in
  let res := memcmp s1 s2 min_len in
  if res =? 0 then Z.of_nat (length s1) - Z.of_nat (length s2) else res.

(** Modelled from the spec: a [btree_value] is a byte payload with flags: a
    large-value reference when the value is large, a CAS when [has_cas]. *)
Record btree_value := mk_value {
  v_contents : list byte;
  v_lb_ref : option block_id;   (* Some root: is_large(), lb_ref().block_id *)
  v_has_cas : bool;
  v_cas : Z;
  v_exptime : Z
}.

Definition is_large (v : btree_value) : bool :=
  match v_lb_ref v with Some _ => true | None => false end.

Definition set_cas (v : btree_value) (c : Z) : btree_value :=
  mk_value (v_contents v) (v_lb_ref v) (v_has_cas v) c (v_exptime v).

(** ** Large-value handles *)

Inductive lb_state := not_loaded | loading | loaded | lb_deleted.

Record large_buf := mk_large_buf {
  lb_root : block_id;          (* get_root_ref().block_id *)
  state : lb_state
}.

Definition is_loaded (lv : large_buf) : bool :=
  match state lv with loaded => true | _ => false end.

(** A [large_buf_lock_t]: [has_lv()] is [Some]. *)
Definition large_buf_lock := option large_buf.

Definition has_lv (l : large_buf_lock) : bool :=
  match l with Some _ => true | None => false end.

(** ** Outcomes *)

Inductive error :=
| AssertFailed (line : nat)      (* an rassert, checked in debug builds only *)
| GuaranteeFailed (line : nat)   (* a guarantee, checked in every build *)
| NotAcquired (line : nat)       (* buf() of a lock that holds nothing *)
| NullDeref (line : nat)         (* a NULL value pointer is read *)
| BadBlock (id : block_id)       (* no such block in the cache *)
| LockHeld (id : block_id)       (* the walk already holds this block *)
| OutOfFuel.

Inductive result (A : Type) :=
| Ok (a : A)
| Fail (e : error).
Arguments Ok {A} a.
Arguments Fail {A} e.

(** ** Ghost trace of the steps the properties below talk about *)

Inductive event :=
| EvInsertRoot (root_id : block_id)
| EvReleaseSb (line : nat)
| EvOperate (old : option btree_value) (old_large : large_buf_lock)
| EvGenCas (c : Z)
| EvSplitCheck (id : block_id)
| EvLeafInsert (id : block_id) (k : btree_key) (v : btree_value)
| EvLeafRemove (id : block_id) (k : btree_key)
| EvUnderfullCheck (id : block_id)
| EvInternalInsert (parent : block_id) (was_full ok : bool).

(** A buf_lock_t is unacquired ([None]) or holds a block. *)
Definition buf_lock := option block_id.

Definition is_acquired (b : buf_lock) : bool :=
  match b with Some _ => true | None => false end.

Section Walk.

(** The byte layout of a node is opaque to the walk. *)
Variable node : Type.

(** The node primitives the walk calls (leaf_node.hpp, internal_node.hpp,
    node.hpp), as functions on node contents.  A primitive that writes
    through a pointer returns the new contents. *)
Record node_prims := {
  node_is_leaf : node -> bool;
  node_is_internal : node -> bool;
  leaf_is_full : node -> btree_key -> btree_value -> bool;
  internal_is_full : node -> bool;
  node_split : Z -> node -> node * node * btree_key;
  internal_init : Z -> node;
  internal_insert : Z -> node -> btree_key -> block_id -> block_id -> bool * node;
  internal_remove : Z -> node -> btree_key -> node;
  internal_lookup : node -> btree_key -> block_id;
  internal_sibling : node -> btree_key -> Z * block_id;
  internal_update_key : node -> btree_key -> btree_key -> node;
  internal_is_singleton : node -> bool;
  node_is_underfull : Z -> node -> bool;
  node_is_mergable : Z -> node -> node -> node -> bool;
  node_merge : Z -> node -> node -> node -> node * node * btree_key;
  node_level : Z -> node -> node -> node -> node * node * btree_key * btree_key * bool;
  node_validate : Z -> node -> bool;
  leaf_init : Z -> Z -> node;
  leaf_lookup : node -> btree_key -> option btree_value;
  leaf_insert : Z -> node -> btree_key -> btree_value -> Z -> bool * node;
  leaf_remove : Z -> node -> btree_key -> node;
  value_expired : btree_value -> bool;
  gen_cas : Z -> Z * Z
}.

(** What [operate] hands back: the return value and its out-parameters;
    [old_large_buflock] is passed by reference, so it comes back too. *)
Record operate_result := {
  update_needed : bool;
  new_value : option btree_value;
  new_large_buflock : large_buf_lock;
  old_large_buflock_after : large_buf_lock
}.

(** A [btree_modify_oper_t]. *)
Record btree_modify_oper := {
  operate : option btree_value -> large_buf_lock -> operate_result;
  actually_acquire_large_value : block_id -> large_buf;
  cas_already_set : bool
}.

(** The slice's cache as one transaction sees it. *)
Record cache := mk_cache {
  blocks : gmap N node;
  deleted : gset N;            (* buf()->mark_deleted() *)
  dirty : gset N;              (* get_data_write() was taken *)
  root_block : block_id;       (* btree_superblock_t::root_block *)
  pm_btree_depth : Z;
  cas_counter : Z;             (* state behind slice->gen_cas() *)
  last_cas : option Z;
  large_deleted : gset N;      (* large_buf_t::mark_deleted() *)
  trace : list event
}.

(** Build configuration and constants of one run. *)
Record env := {
  debug : bool;                (* rasserts are compiled in (no NDEBUG) *)
  block_size : Z;
  current_time : Z
}.

Variable P : node_prims.
Variable E : env.

Definition M (A : Type) := cache -> result (A * cache).

Definition ret {A} (a : A) : M A := fun c => Ok (a, c).

Definition bind {A B} (m : M A) (f : A -> M B) : M B :=
  fun c => match m c with
           | Ok (a, c') => f a c'
           | Fail e => Fail e
           end.

Definition fail {A} (e : error) : M A := fun _ => Fail e.

Notation "'let*' x ':=' m 'in' f" := (bind m (fun x => f))
  (at level 10, x name, m at level 100, f at level 200).
Notation "'let*' ' p ':=' m 'in' f" := (bind m (fun p => f))
  (at level 10, p strict pattern, m at level 100, f at level 200).
Notation "'step' m 'in' f" := (bind m (fun _ => f))
  (at level 10, m at level 100, f at level 200).

Definition rassert (line : nat) (cond : bool) : M unit :=
  if debug E && negb cond then fail (AssertFailed line) else ret tt.

Definition guarantee (line : nat) (cond : bool) : M unit :=
  if cond then ret tt else fail (GuaranteeFailed line).

Definition modify (f : cache -> cache) : M unit := fun c => Ok (tt, f c).

Definition log (e : event) : M unit :=
  modify (fun c => mk_cache (blocks c) (deleted c) (dirty c) (root_block c)
                     (pm_btree_depth c) (cas_counter c) (last_cas c)
                     (large_deleted c) (e :: trace c)).

(** [lock.buf()]: the block behind an acquired lock. *)
Definition buf_of (line : nat) (b : buf_lock) : M block_id :=
  match b with Some id => ret id | None => fail (NotAcquired line) end.

(** [get_data_read()] of a node block. *)
Definition get_data_read (id : block_id) : M node :=
  fun c => match blocks c !! id with
           | Some n => Ok (n, c)
           | None => Fail (BadBlock id)
           end.

(** [get_data_write()]: the write view dirties the block. *)
Definition get_data_write (id : block_id) : M unit :=
  modify (fun c => mk_cache (blocks c) (deleted c) ({[ id ]} ∪ dirty c)
                     (root_block c) (pm_btree_depth c) (cas_counter c)
                     (last_cas c) (large_deleted c) (trace c)).

(** Storing through a write view. *)
Definition store (id : block_id) (n : node) : M unit :=
  modify (fun c => mk_cache (<[ id := n ]> (blocks c)) (deleted c) (dirty c)
                     (root_block c) (pm_btree_depth c) (cas_counter c)
                     (last_cas c) (large_deleted c) (trace c)).

Definition mark_deleted (id : block_id) : M unit :=
  modify (fun c => mk_cache (blocks c) ({[ id ]} ∪ deleted c) (dirty c)
                     (root_block c) (pm_btree_depth c) (cas_counter c)
                     (last_cas c) (large_deleted c) (trace c)).

Definition set_root_block (id : block_id) : M unit :=
  modify (fun c => mk_cache (blocks c) (deleted c) (dirty c) id
                     (pm_btree_depth c) (cas_counter c) (last_cas c)
                     (large_deleted c) (trace c)).

Definition add_depth (d : Z) : M unit :=
  modify (fun c => mk_cache (blocks c) (deleted c) (dirty c) (root_block c)
                     (pm_btree_depth c + d) (cas_counter c) (last_cas c)
                     (large_deleted c) (trace c)).

Definition held_ids (held : list buf_lock) : gset N :=
  list_to_set (omap id held).

(** [buf_lock_t(txor, id, rwi_write)]: the block must exist, and a block this
    walk already holds for writing is never handed out a second time. *)
Definition acquire (held : list buf_lock) (id : block_id) : M buf_lock :=
  fun c => if bool_decide (id ∈ held_ids held) then Fail (LockHeld id)
           else match blocks c !! id with
                | Some _ => Ok (Some id, c)
                | None => Fail (BadBlock id)
                end.

(** [lock.allocate(txor)]: a block id in use by nothing. *)
Definition allocate (held : list buf_lock) : M buf_lock :=
  fun c => Ok (Some (fresh (dom (blocks c) ∪ held_ids held
                            ∪ {[ SUPERBLOCK_ID; NULL_BLOCK_ID ]})), c).

(** ** insert_root (lines 28-33) *)

Definition insert_root (root_id : block_id) (sb_buf : buf_lock) : M buf_lock :=
  step rassert 29 (is_acquired sb_buf) in
  let* sb := buf_of 30 sb_buf in
  step get_data_write sb in
  step set_root_block root_id in
  step log (EvInsertRoot root_id) in
  step log (EvReleaseSb 32) in
  ret None.

(** ** get_root (lines 153-167): returns [(sb_buf, buf_out)]. *)

Definition get_root (sb_buf buf_out : buf_lock) : M (buf_lock * buf_lock) :=
  step rassert 154 (negb (is_acquired buf_out)) in
  let* _ := buf_of 156 sb_buf in
  let* node_id := (fun c => Ok (root_block c, c)) in
  if negb (N.eqb node_id NULL_BLOCK_ID) then
    let* tmp := acquire [sb_buf; buf_out] node_id in
    ret (sb_buf, tmp)
  else
    let* buf_out := allocate [sb_buf; buf_out] in
    let* b := buf_of 163 buf_out in
    step get_data_write b in
    step store b (leaf_init P (block_size E) (current_time E)) in
    let* sb_buf := insert_root b sb_buf in
    step add_depth 1 in
    ret (sb_buf, buf_out).

(** The walk's cursor: the three locks the helpers take by reference. *)
Record cursor := mk_cursor {
  buf : buf_lock;
  last_buf : buf_lock;
  sb_buf : buf_lock
}.

(** ** check_and_handle_split (lines 38-87) *)

Definition split_needed (n : node) (key : btree_key)
    (new_value : option btree_value) : M bool :=
  if node_is_leaf P n then
    step rassert 44 (bool_decide (is_Some new_value)) in
    match new_value with
    | Some v => ret (leaf_is_full P n key v)
    | None => fail (NullDeref 45)
    end
  else
    step rassert 47 (negb (bool_decide (is_Some new_value))) in
    ret (internal_is_full P n).

Definition check_and_handle_split (cur : cursor) (key : btree_key)
    (new_value : option btree_value) : M cursor :=
  let* b := buf_of 40 (buf cur) in
  let* n := get_data_read b in
  step log (EvSplitCheck b) in
  let* full := split_needed n key new_value in
  if negb full then ret cur
  else
    let* rbuf := allocate [buf cur; last_buf cur; sb_buf cur] in
    let* r := buf_of 54 rbuf in
    step get_data_write b in
    step get_data_write r in
    let '(lnode, rsib, median) := node_split P (block_size E) n in
    step store b lnode in
    step store r rsib in
    let* '(last, sb) :=
      (if negb (is_acquired (last_buf cur)) then
         let* last := allocate [buf cur; rbuf; sb_buf cur] in
         let* l := buf_of 65 last in
         step get_data_write l in
         step store l (internal_init P (block_size E)) in
         let* sb := insert_root l (sb_buf cur) in
         step add_depth 1 in
         ret (last, sb)
       else
         let* l := buf_of 71 (last_buf cur) in
         step get_data_write l in
         ret (last_buf cur, sb_buf cur)) in
    let* l := buf_of 74 last in
    let* last_node := get_data_read l in
    let '(success, last_node') :=
      internal_insert P (block_size E) last_node median b r in
    step store l last_node' in
    step log (EvInternalInsert l (internal_is_full P last_node) success) in
    step rassert 75 success in
    if 0 >=? sized_strcmp key median then
      ret (mk_cursor (buf cur) last sb)
    else
      ret (mk_cursor rbuf last sb).

(** ** check_and_handle_underfull (lines 90-150)

    [node::merge] and [node::level] read the parent to find the separator
    and write the two siblings; the parent itself is rewritten by
    [internal_node::remove] and [internal_node::update_key]. *)

Definition check_and_handle_underfull (cur : cursor) (key : btree_key)
    : M cursor :=
  let* b := buf_of 92 (buf cur) in
  let* n := get_data_read b in
  step log (EvUnderfullCheck b) in
  if is_acquired (last_buf cur) && node_is_underfull P (block_size E) n then
    step get_data_write b in
    let* l := buf_of 96 (last_buf cur) in
    step get_data_write l in
    let* parent_node := get_data_read l in
    let '(nodecmp_node_with_sib, sib_node_id) :=
      internal_sibling P parent_node key in
    let* sib_buf := acquire [buf cur; last_buf cur; sb_buf cur] sib_node_id in
    let* s := buf_of 104 sib_buf in
    step get_data_write s in
    let* sib_node := get_data_read s in
    step rassert 107 (node_validate P (block_size E) sib_node) in
    if node_is_mergable P (block_size E) n sib_node parent_node then
      let* '(nbuf, key_to_remove) :=
        (if nodecmp_node_with_sib <? 0 then
           let '(n', sib', key_to_remove) :=
             node_merge P (block_size E) n sib_node parent_node in
           step store b n' in
           step store s sib' in
           step mark_deleted b in
           ret (sib_buf, key_to_remove)
         else
           let '(sib', n', key_to_remove) :=
             node_merge P (block_size E) sib_node n parent_node in
           step store s sib' in
           step store b n' in
           step mark_deleted s in
           ret (buf cur, key_to_remove)) in
      if negb (internal_is_singleton P parent_node) then
        step store l (internal_remove P (block_size E) parent_node
                        key_to_remove) in
        ret (mk_cursor nbuf (last_buf cur) (sb_buf cur))
      else
        step mark_deleted l in
        let* nb := buf_of 134 nbuf in
        let* sb := insert_root nb (sb_buf cur) in
        step add_depth (-1) in
        ret (mk_cursor nbuf (last_buf cur) sb)
    else
      let '(n', sib', key_to_replace, replacement_key, leveled) :=
        node_level P (block_size E) n sib_node parent_node in
      step store b n' in
      step store s sib' in
      step (if leveled then
              store l (internal_update_key P parent_node key_to_replace
                         replacement_key)
            else ret tt) in
      ret cur
  else ret cur.

(** ** run_btree_modify_oper (lines 170-320) *)

Variable oper : btree_modify_oper.

(** Lines 200-202: let go of the superblock once past the root. *)
Definition release_sb_past_root (cur : cursor) : M cursor :=
  if is_acquired (sb_buf cur) && is_acquired (last_buf cur) then
    step log (EvReleaseSb 201) in
    ret (mk_cursor (buf cur) (last_buf cur) None)
  else ret cur.

(** Lines 208-213: look the child up, acquire it, and rotate the locks
    (the lock that was [last_buf] ends in [tmp] and is dropped). *)
Definition descend_to_child (cur : cursor) (key : btree_key) : M cursor :=
  let* b := buf_of 208 (buf cur) in
  let* n := get_data_read b in
  let node_id := internal_lookup P n key in
  step rassert 209 (negb (N.eqb node_id NULL_BLOCK_ID)
                    && negb (N.eqb node_id SUPERBLOCK_ID)) in
  let* tmp := acquire [buf cur; last_buf cur; sb_buf cur] node_id in
  ret (mk_cursor tmp (buf cur) (sb_buf cur)).

(** One pass through the body of the while loop (lines 191-213). *)
Definition descend_step (cur : cursor) (key : btree_key) : M cursor :=
  let* cur := check_and_handle_split cur key None in
  let* cur := check_and_handle_underfull cur key in
  let* cur := release_sb_past_root cur in
  descend_to_child cur key.

(** The loop condition of line 190. *)
Definition at_internal (cur : cursor) : M bool :=
  let* b := buf_of 190 (buf cur) in
  let* n := get_data_read b in
  ret (node_is_internal P n).

Fixpoint descend (fuel : nat) (cur : cursor) (key : btree_key) : M cursor :=
  let* internal := at_internal cur in
  if internal then
    match fuel with
    | O => fail OutOfFuel
    | S fuel' =>
        let* cur := descend_step cur key in
        descend fuel' cur key
    end
  else ret cur.

(** Lines 220-228. *)
Definition load_old_large (old_value : option btree_value) : M large_buf_lock :=
  match old_value with
  | Some ov =>
      match v_lb_ref ov with
      | Some ref =>
          let lv := actually_acquire_large_value oper ref in
          step rassert 227 (is_loaded lv) in
          ret (Some lv)
      | None => ret None
      end
  | None => ret None
  end.

(** Lines 243-255. *)
Definition check_consistent (r : operate_result) : M unit :=
  step (if update_needed r then
          match new_value r with
          | Some v =>
              match v_lb_ref v with
              | Some ref =>
                  rassert 245
                    (match new_large_buflock r with
                     | Some lv => N.eqb ref (lb_root lv)
                     | None => false
                     end)
              | None => rassert 247 (negb (has_lv (new_large_buflock r)))
              end
          | None => rassert 247 (negb (has_lv (new_large_buflock r)))
          end
        else ret tt) in
  if negb (update_needed r) then
    rassert 253 (negb (has_lv (new_large_buflock r)))
  else ret tt.

(** Lines 274-276. *)
Definition add_cas (v : btree_value) : M btree_value :=
  if v_has_cas v && negb (cas_already_set oper) then
    fun c =>
      let '(cas, next) := gen_cas P (cas_counter c) in
      Ok (set_cas v cas,
          mk_cache (blocks c) (deleted c) (dirty c) (root_block c)
            (pm_btree_depth c) next (Some cas) (large_deleted c)
            (EvGenCas cas :: trace c))
  else ret v.

(** Lines 267-289: the change made to the leaf. *)
Definition update_leaf (cur : cursor) (key : btree_key)
    (key_found expired : bool) (new_val : option btree_value) : M cursor :=
  match new_val with
  | Some v =>
      let* cur := check_and_handle_split cur key (Some v) in
      let* v := add_cas v in
      let* b := buf_of 280 (buf cur) in
      step get_data_write b in
      let* n := get_data_read b in
      let '(success, n') :=
        leaf_insert P (block_size E) n key v (current_time E) in
      step store b n' in
      step log (EvLeafInsert b key v) in
      step guarantee 281 success in
      ret cur
  | None =>
      if key_found || expired then
        let* b := buf_of 284 (buf cur) in
        step get_data_write b in
        let* n := get_data_read b in
        step store b (leaf_remove P (block_size E) n key) in
        step log (EvLeafRemove b key) in
        ret cur
      else ret cur
  end.

Definition mark_large_deleted (root : block_id) : M unit :=
  modify (fun c => mk_cache (blocks c) (deleted c) (dirty c) (root_block c)
                     (pm_btree_depth c) (cas_counter c) (last_cas c)
                     ({[ root ]} ∪ large_deleted c) (trace c)).

(** Lines 306-315. *)
Definition release_large (upd : bool) (old_value : option btree_value)
    (old_large new_large : large_buf_lock) : M unit :=
  if upd then
    match old_large with
    | Some lv =>
        step rassert 309 (negb (has_lv new_large)) in
        step rassert 311
          (match old_value with Some ov => is_large ov | None => false end) in
        step rassert 312
          (match old_value with
           | Some ov => bool_decide (v_lb_ref ov = Some (lb_root lv))
           | None => false
           end) in
        mark_large_deleted (lb_root lv)
    | None => ret tt
    end
  else ret tt.

(** Lines 300-304. *)
Definition release_bufs (cur : cursor) : M unit :=
  step (if is_acquired (sb_buf cur) then log (EvReleaseSb 301) else ret tt) in
  step rassert 302 (is_acquired (buf cur)) in
  let* _ := buf_of 303 (buf cur) in
  ret tt.

(** Lines 216-315: what happens once the cursor stands on the leaf.  The
    result is the cursor as it was just before the locks were dropped and
    the final [update_needed]. *)
Definition at_leaf (cur : cursor) (key : btree_key) : M (cursor * bool) :=
  let* b := buf_of 217 (buf cur) in
  let* leaf := get_data_read b in
  let old_value := leaf_lookup P leaf key in
  let key_found := bool_decide (is_Some old_value) in
  let* old_large := load_old_large old_value in
  let expired :=
    key_found && match old_value with
                 | Some ov => value_expired P ov
                 | None => false
                 end in
  let key_found := if expired then false else key_found in
  let r := operate oper (if key_found then old_value else None) old_large in
  step log (EvOperate (if key_found then old_value else None) old_large) in
  step check_consistent r in
  let silent := negb (update_needed r) && expired in
  let new_val := if silent then None else new_value r in
  let upd := if silent then true else update_needed r in
  let* cur :=
    (if upd then
       let* cur := update_leaf cur key key_found expired new_val in
       check_and_handle_underfull cur key
     else ret cur) in
  step release_bufs cur in
  step release_large upd old_value (old_large_buflock_after r)
         (new_large_buflock r) in
  ret (cur, upd).

Definition run_btree_modify_oper (fuel : nat) (key : btree_key)
    : M (cursor * bool) :=
  let sb := Some SUPERBLOCK_ID in
  let* '(sb, b) := get_root sb None in
  let* cur := descend fuel (mk_cursor b None sb) key in
  at_leaf cur key.

End Walk.

Arguments node_is_leaf {node}.
Arguments node_is_internal {node}.
Arguments leaf_is_full {node}.
Arguments internal_is_full {node}.
Arguments node_split {node}.
Arguments internal_init {node}.
Arguments internal_insert {node}.
Arguments internal_remove {node}.
Arguments internal_lookup {node}.
Arguments internal_sibling {node}.
Arguments internal_update_key {node}.
Arguments internal_is_singleton {node}.
Arguments node_is_underfull {node}.
Arguments node_is_mergable {node}.
Arguments node_merge {node}.
Arguments node_level {node}.
Arguments node_validate {node}.
Arguments leaf_init {node}.
Arguments leaf_lookup {node}.
Arguments leaf_insert {node}.
Arguments leaf_remove {node}.
Arguments value_expired {node}.
Arguments gen_cas {node}.
Arguments mk_cache {node}.
Arguments blocks {node}.
Arguments deleted {node}.
Arguments dirty {node}.
Arguments root_block {node}.
Arguments pm_btree_depth {node}.
Arguments cas_counter {node}.
Arguments last_cas {node}.
Arguments large_deleted {node}.
Arguments trace {node}.
Arguments held_ids : simpl never.
Arguments NULL_BLOCK_ID : simpl never.
Arguments SUPERBLOCK_ID : simpl never.
Arguments M node A : clear implicits.
Arguments rassert {node}.
Arguments guarantee {node}.
Arguments modify {node}.
Arguments log {node}.
Arguments buf_of {node}.
Arguments get_data_read {node}.
Arguments get_data_write {node}.
Arguments store {node}.
Arguments mark_deleted {node}.
Arguments set_root_block {node}.
Arguments add_depth {node}.
Arguments acquire {node}.
Arguments allocate {node}.
Arguments insert_root {node}.
Arguments get_root {node}.
Arguments split_needed {node}.
Arguments check_and_handle_split {node}.
Arguments check_and_handle_underfull {node}.
Arguments release_sb_past_root {node}.
Arguments descend_to_child {node}.
Arguments descend_step {node}.
Arguments at_internal {node}.
Arguments descend {node}.
Arguments load_old_large {node}.
Arguments check_consistent {node}.
Arguments add_cas {node}.
Arguments update_leaf {node}.
Arguments mark_large_deleted {node}.
Arguments release_large {node}.
Arguments release_bufs {node}.
Arguments at_leaf {node}.
Arguments run_btree_modify_oper {node}.
Arguments ret {node A}.
Arguments bind {node A B}.
Arguments fail {node A}.

(** ** A small instance of the node primitives

    Nodes of at most four entries, used to run the walk on concrete trees. *)

Module Toy.

Inductive tnode :=
| TLeaf (pairs : list (btree_key * btree_value))
| TInternal (keys : list btree_key) (kids : list block_id).

Definition key_ltb (a b : btree_key) : bool := sized_strcmp a b <? 0.
Definition key_eqb (a b : btree_key) : bool := sized_strcmp a b =? 0.

Definition is_leaf (n : tnode) : bool :=
  match n with TLeaf _ => true | TInternal _ _ => false end.

Definition npairs (n : tnode) : nat :=
  match n with
  | TLeaf ps => length ps
  | TInternal _ kids => length kids
  end.

Definition first_key (n : tnode) : btree_key :=
  match n with
  | TLeaf ps => hd [] (map fst ps)
  | TInternal ks _ => hd [] ks
  end.

(** A leaf has no room for separators. *)
Definition internal_full (n : tnode) : bool :=
  match n with
  | TLeaf _ => true
  | TInternal _ kids => Nat.eqb (length kids) 4
  end.

Definition leaf_full (n : tnode) (k : btree_key) (v : btree_value) : bool :=
  match n with
  | TLeaf ps => Nat.eqb (length ps) 4
  | TInternal _ _ => false
  end.

Definition split (n : tnode) : tnode * tnode * btree_key :=
  match n with
  | TLeaf ps =>
      let h := Nat.div2 (length ps) in
      (TLeaf (firstn h ps), TLeaf (skipn h ps),
       List.last (map fst (firstn h ps)) [])
  | TInternal ks kids =>
      let h := Nat.div2 (length kids) in
      (TInternal (firstn (h - 1) ks) (firstn h kids),
       TInternal (skipn h ks) (skipn h kids),
       nth (h - 1) ks [])
  end.

(** The index of the child that [key] belongs to: a key equal to a
    separator stays left of it. *)
Definition child_index (ks : list btree_key) (key : btree_key) : nat :=
  length (filter (fun k => key_ltb k key) ks).

Definition insert_internal (n : tnode) (key : btree_key) (l r : block_id)
    : bool * tnode :=
  match n with
  | TLeaf _ => (false, n)
  | TInternal ks kids =>
      if internal_full n then (false, n)
      else
        let i := child_index ks key in
        (true,
         TInternal (firstn i ks ++ key :: skipn i ks)
           (match kids with
            | [] => [l; r]
            | _ => firstn (S i) kids ++ r :: skipn (S i) kids
            end))
  end.

Fixpoint index_of (ks : list btree_key) (key : btree_key) : nat :=
  match ks with
  | [] => O
  | k :: ks' => if key_eqb k key then O else S (index_of ks' key)
  end.

Definition drop_nth {A} (i : nat) (l : list A) : list A :=
  firstn i l ++ skipn (S i) l.

Definition remove_internal (n : tnode) (key : btree_key) : tnode :=
  match n with
  | TLeaf _ => n
  | TInternal ks kids =>
      let j := index_of ks key in
      TInternal (drop_nth j ks) (drop_nth j kids)
  end.

Definition lookup_internal (n : tnode) (key : btree_key) : block_id :=
  match n with
  | TLeaf _ => NULL_BLOCK_ID
  | TInternal ks kids => nth (child_index ks key) kids NULL_BLOCK_ID
  end.

Definition sibling (n : tnode) (key : btree_key) : Z * block_id :=
  match n with
  | TLeaf _ => (0, NULL_BLOCK_ID)
  | TInternal ks kids =>
      match child_index ks key with
      | O => (-1, nth 1 kids NULL_BLOCK_ID)
      | S i => (1, nth i kids NULL_BLOCK_ID)
      end
  end.

Definition update_key (n : tnode) (old new : btree_key) : tnode :=
  match n with
  | TLeaf _ => n
  | TInternal ks kids =>
      TInternal (map (fun k => if key_eqb k old then new else k) ks) kids
  end.

Definition is_singleton (n : tnode) : bool := Nat.eqb (npairs n) 2.

Definition is_underfull (n : tnode) : bool := Nat.ltb (npairs n) 2.

Definition is_mergable (n sib parent : tnode) : bool :=
  Bool.eqb (is_leaf n) (is_leaf sib) && Nat.ltb (npairs n + npairs sib) 4.

(** The separator the parent keeps between [left] and [right]. *)
Definition separator (parent right : tnode) : btree_key :=
  match parent with
  | TLeaf _ => []
  | TInternal ks _ => nth (child_index ks (first_key right) - 1) ks []
  end.

Definition merge (left right parent : tnode) : tnode * tnode * btree_key :=
  let sep := separator parent right in
  match left, right with
  | TLeaf ps, TLeaf qs => (left, TLeaf (ps ++ qs), sep)
  | TInternal ks kids, TInternal ks' kids' =>
      (left, TInternal (ks ++ sep :: ks') (kids ++ kids'), sep)
  | _, _ => (left, right, sep)
  end.

(** This instance never moves entries when it levels. *)
Definition level (n sib parent : tnode)
    : tnode * tnode * btree_key * btree_key * bool :=
  (n, sib, [], [], false).

Definition lookup_leaf (n : tnode) (key : btree_key) : option btree_value :=
  match n with
  | TLeaf ps =>
      match filter (fun p => key_eqb (fst p) key) ps with
      | p :: _ => Some (snd p)
      | [] => None
      end
  | TInternal _ _ => None
  end.

Definition remove_leaf (n : tnode) (key : btree_key) : tnode :=
  match n with
  | TLeaf ps => TLeaf (filter (fun p => negb (key_eqb (fst p) key)) ps)
  | TInternal _ _ => n
  end.

Definition insert_leaf (n : tnode) (key : btree_key) (v : btree_value)
    : bool * tnode :=
  match n with
  | TLeaf ps =>
      let rest := filter (fun p => negb (key_eqb (fst p) key)) ps in
      if Nat.leb 4 (length rest) then (false, n)
      else
        (true,
         TLeaf (filter (fun p => key_ltb (fst p) key) rest
                ++ (key, v) :: filter (fun p => key_ltb key (fst p)) rest))
  | TInternal _ _ => (false, n)
  end.

Definition expired (v : btree_value) : bool :=
  (0 <? v_exptime v) && (v_exptime v <=? 100).

Definition prims : node_prims tnode := {|
  node_is_leaf := is_leaf;
  node_is_internal := fun n => negb (is_leaf n);
  leaf_is_full := leaf_full;
  internal_is_full := internal_full;
  node_split := fun _ => split;
  internal_init := fun _ => TInternal [] [];
  internal_insert := fun _ => insert_internal;
  internal_remove := fun _ => remove_internal;
  internal_lookup := lookup_internal;
  internal_sibling := sibling;
  internal_update_key := update_key;
  internal_is_singleton := is_singleton;
  node_is_underfull := fun _ => is_underfull;
  node_is_mergable := fun _ => is_mergable;
  node_merge := fun _ => merge;
  node_level := fun _ => level;
  node_validate := fun _ _ => true;
  leaf_init := fun _ _ => TLeaf [];
  leaf_lookup := lookup_leaf;
  leaf_insert := fun _ n k v _ => insert_leaf n k v;
  leaf_remove := fun _ => remove_leaf;
  value_expired := expired;
  gen_cas := fun s => (s + 1, s + 1)
|}.

Definition env_of (dbg : bool) : env :=
  {| debug := dbg; block_size := 4096; current_time := 100 |}.

Definition cache_of (bs : gmap N tnode) (root : block_id) (depth : Z)
    : cache tnode :=
  mk_cache bs ∅ ∅ root depth 0 None ∅ [].

Definition small (s : list byte) : btree_value := mk_value s None false 0 0.

Definition k (c : byte) : btree_key := [c].

(** An operator that stores [v] whatever it is shown. *)
Definition set_oper (v : btree_value) (lv : large_buf_lock)
    : btree_modify_oper :=
  {| operate := fun _ old_large =>
       {| update_needed := true; new_value := Some v;
          new_large_buflock := lv; old_large_buflock_after := old_large |};
     actually_acquire_large_value := fun ref => mk_large_buf ref loaded;
     cas_already_set := false |}.

(** An operator that declines to change anything. *)
Definition noop_oper : btree_modify_oper :=
  {| operate := fun _ old_large =>
       {| update_needed := false; new_value := None;
          new_large_buflock := None; old_large_buflock_after := old_large |};
     actually_acquire_large_value := fun ref => mk_large_buf ref loaded;
     cas_already_set := false |}.

(** An operator that deletes the key. *)
Definition delete_oper : btree_modify_oper :=
  {| operate := fun _ old_large =>
       {| update_needed := true; new_value := None;
          new_large_buflock := None; old_large_buflock_after := old_large |};
     actually_acquire_large_value := fun ref => mk_large_buf ref loaded;
     cas_already_set := false |}.

End Toy.

(** ** Concrete trees *)

Module Cases.

Import Toy.

Definition dbg : env := env_of true.
Definition rel : env := env_of false.

Definition va : btree_value := small ["a"%byte].

(** An empty slice. *)
Definition empty : cache tnode := cache_of ∅ NULL_BLOCK_ID 0.

(** A root leaf (block 5) holding four keys: it is full. *)
Definition full_leaf : tnode :=
  TLeaf [(k "a", va); (k "b", va); (k "c", va); (k "d", va)].

Definition one_leaf : cache tnode :=
  cache_of (<[ 5%N := full_leaf ]> ∅) 5%N 1.

Definition at_root5 : cursor :=
  mk_cursor (Some 5%N) None (Some SUPERBLOCK_ID).

(** A full internal root (block 10) over four leaves. *)
Definition leaf_of (c : byte) : tnode := TLeaf [(k c, va); (k c ++ k c, va)].

Definition full_root : tnode :=
  TInternal [k "b"; k "d"; k "f"] [1%N; 2%N; 3%N; 4%N].

Definition wide_tree : cache tnode :=
  cache_of (<[ 10%N := full_root ]>
            (<[ 1%N := leaf_of "a" ]> (<[ 2%N := leaf_of "c" ]>
            (<[ 3%N := leaf_of "e" ]> (<[ 4%N := leaf_of "g" ]> ∅)))))
    10%N 2.

Definition at_root10 : cursor :=
  mk_cursor (Some 10%N) None (Some SUPERBLOCK_ID).

(** A root (block 10) with two leaves of one key each. *)
Definition thin_tree : cache tnode :=
  cache_of (<[ 10%N := TInternal [k "b"] [1%N; 2%N] ]>
            (<[ 1%N := TLeaf [(k "a", va)] ]>
            (<[ 2%N := TLeaf [(k "c", va)] ]> ∅)))
    10%N 2.

Definition at_leaf1 : cursor :=
  mk_cursor (Some 1%N) (Some 10%N) (Some SUPERBLOCK_ID).

(** A root leaf whose only key has expired. *)
Definition stale : btree_value := mk_value ["a"%byte] None false 0 50.

Definition stale_leaf : cache tnode :=
  cache_of (<[ 5%N := TLeaf [(k "k", stale)] ]> ∅) 5%N 1.

(** A root leaf whose key holds a large value rooted at block 50, and an
    operator that replaces it with a large value rooted at block 77. *)
Definition big (root : block_id) : btree_value :=
  mk_value [] (Some root) false 0 0.

Definition large_leaf : cache tnode :=
  cache_of (<[ 5%N := TLeaf [(k "k", big 50%N)] ]> ∅) 5%N 1.

Definition swap_oper : btree_modify_oper :=
  set_oper (big 77%N) (Some (mk_large_buf 77%N loaded)).

(** A value that wants a CAS. *)
Definition wants_cas : btree_value := mk_value ["a"%byte] None true 0 0.

Definition out_of {A} (r : result (A * cache tnode)) (d : A)
    : A * cache tnode :=
  match r with Ok x => x | Fail _ => (d, empty) end.

Definition split_out : cursor * cache tnode :=
  Eval vm_compute in
    out_of (check_and_handle_split prims dbg at_root5 (k "e") (Some va)
              one_leaf) at_root5.

Definition cas_split_out : cursor * cache tnode :=
  Eval vm_compute in
    out_of (check_and_handle_split prims dbg at_root5 (k "e")
              (Some wants_cas) one_leaf) at_root5.

Definition swap_out : cursor * bool * cache tnode :=
  Eval vm_compute in
    out_of (run_btree_modify_oper prims rel swap_oper 3 (k "k") large_leaf)
      (at_root5, false).

Definition step_out : cursor * cache tnode :=
  Eval vm_compute in
    out_of (descend_step prims dbg at_root10 (k "a") wide_tree) at_root10.

End Cases.

(** ** Reading the walk's monad

    A weakest-precondition reading: [Q] must hold of a normal outcome, [F]
    of the error of an abnormal one. *)

Definition wp {node A} (m : M node A) (Q : A -> cache node -> Prop)
    (F : error -> Prop) (c : cache node) : Prop :=
  match m c with
  | Ok (a, c') => Q a c'
  | Fail e => F e
  end.

(** The errors none of the properties below singles out. *)
Definition boring (e : error) : Prop :=
  match e with
  | AssertFailed 29 | NotAcquired 30 | AssertFailed 75 => False
  | _ => True
  end.

Definition set_trace {node} (c : cache node) (t : list event) : cache node :=
  mk_cache (blocks c) (deleted c) (dirty c) (root_block c) (pm_btree_depth c)
    (cas_counter c) (last_cas c) (large_deleted c) t.

(** The cache a split leaves behind: [b] keeps the lower half, the new block
    [r] gets the upper half, and the parent [l] gets the separator;
    [new_root] is the superblock lock's block when [l] is a new root. *)
Definition split_cache {node} (c : cache node) (b r l : block_id)
    (lnode rsib pn' : node) (new_root : option block_id)
    (was_full success : bool) : cache node :=
  match new_root with
  | None =>
      mk_cache (<[ l := pn' ]> (<[ r := rsib ]> (<[ b := lnode ]> (blocks c))))
        (deleted c) ({[ l ]} ∪ ({[ r ]} ∪ ({[ b ]} ∪ dirty c)))
        (root_block c) (pm_btree_depth c) (cas_counter c) (last_cas c)
        (large_deleted c)
        (EvInternalInsert l was_full success :: EvSplitCheck b :: trace c)
  | Some sbid =>
      mk_cache (<[ l := pn' ]> (<[ r := rsib ]> (<[ b := lnode ]> (blocks c))))
        (deleted c) ({[ sbid ]} ∪ ({[ l ]} ∪ ({[ r ]} ∪ ({[ b ]} ∪ dirty c))))
        l (pm_btree_depth c + 1) (cas_counter c) (last_cas c)
        (large_deleted c)
        (EvInternalInsert l was_full success :: EvReleaseSb 32
           :: EvInsertRoot l
           :: EvSplitCheck b :: trace c)
  end.

(** Which fullness test check_and_handle_split consults (lines 43-49). *)
Definition split_decision {node} (P : node_prims node) (E : env) (n : node)
    (key : btree_key) (nv : option btree_value) (full : bool) : Prop :=
  (node_is_leaf P n = true
   /\ exists v, nv = Some v /\ full = leaf_is_full P n key v)
  \/ (node_is_leaf P n = false /\ full = internal_is_full P n
      /\ (debug E = true -> nv = None)).

Definition redirect (key median : btree_key) (b r : block_id) : buf_lock :=
  if 0 >=? sized_strcmp key median then Some b else Some r.

(** The cache a merge leaves behind.  [bl] is the block store after the
    merge, [dead] the block that was merged away; [collapse] carries the
    superblock lock's block and the new root when the parent was retired. *)
Definition merge_cache {node} (c : cache node) (bl : gmap N node)
    (dead b l s : block_id) (collapse : option (block_id * block_id))
    : cache node :=
  match collapse with
  | None =>
      mk_cache bl ({[ dead ]} ∪ deleted c)
        ({[ s ]} ∪ ({[ l ]} ∪ ({[ b ]} ∪ dirty c)))
        (root_block c) (pm_btree_depth c) (cas_counter c) (last_cas c)
        (large_deleted c) (EvUnderfullCheck b :: trace c)
  | Some (sbid, new_root) =>
      mk_cache bl ({[ l ]} ∪ ({[ dead ]} ∪ deleted c))
        ({[ sbid ]} ∪ ({[ s ]} ∪ ({[ l ]} ∪ ({[ b ]} ∪ dirty c))))
        new_root (pm_btree_depth c + -1) (cas_counter c) (last_cas c)
        (large_deleted c)
        (EvReleaseSb 32 :: EvInsertRoot new_root :: EvUnderfullCheck b
           :: trace c)
  end.

(** The cache a level leaves behind. *)
Definition level_cache {node} (c : cache node) (bl : gmap N node)
    (b l s : block_id) : cache node :=
  mk_cache bl (deleted c) ({[ s ]} ∪ ({[ l ]} ∪ ({[ b ]} ∪ dirty c)))
    (root_block c) (pm_btree_depth c) (cas_counter c) (last_cas c)
    (large_deleted c) (EvUnderfullCheck b :: trace c).

(** What a merge does to the two siblings (lines 116-123): the block that
    survives with the merged contents, the block that dies, and the store. *)
Definition merge_outcome {node} (P : node_prims node) (E : env)
    (bl : gmap N node) (cmp : Z) (b s : block_id) (n sn pn : node)
    : block_id * block_id * gmap N node * btree_key :=
  if cmp <? 0 then
    let '(n', sib', key_to_remove) := node_merge P (block_size E) n sn pn in
    (s, b, <[ s := sib' ]> (<[ b := n' ]> bl), key_to_remove)
  else
    let '(sib', n', key_to_remove) := node_merge P (block_size E) sn n pn in
    (b, s, <[ b := n' ]> (<[ s := sib' ]> bl), key_to_remove).

Definition level_outcome {node} (P : node_prims node) (E : env)
    (bl : gmap N node) (b s l : block_id) (n sn pn : node) : gmap N node :=
  let '(n', sib', key_to_replace, replacement_key, leveled) :=
    node_level P (block_size E) n sn pn in
  let bl' := <[ s := sib' ]> (<[ b := n' ]> bl) in
  if leveled then
    <[ l := internal_update_key P pn key_to_replace replacement_key ]> bl'
  else bl'.

(** The handle lines 220-228 leave in [old_large_buflock]. *)
Definition old_large_of (oper : btree_modify_oper)
    (old_value : option btree_value) : large_buf_lock :=
  match old_value with
  | Some ov =>
      match v_lb_ref ov with
      | Some ref => Some (actually_acquire_large_value oper ref)
      | None => None
      end
  | None => None
  end.

Definition handle_loaded (l : large_buf_lock) : bool :=
  match l with Some lv => is_loaded lv | None => true end.

(** What remains of the leaf phase once the leaf has been changed (lines
    297-315): the underfull check, dropping the locks, retiring the old
    large value. *)
Definition finish_leaf {node} (P : node_prims node) (E : env)
    (cur : cursor) (key : btree_key) (old_value : option btree_value)
    (old_large new_large : large_buf_lock) : M node (cursor * bool) :=
  bind (check_and_handle_underfull P E cur key) (fun cur' =>
  bind (release_bufs E cur') (fun _ =>
  bind (release_large E true old_value old_large new_large) (fun _ =>
  ret (cur', true)))).

(** The lines at which a stretch of the trace released the superblock. *)
Fixpoint sb_releases (evs : list event) : list nat :=
  match evs with
  | [] => []
  | EvReleaseSb line :: evs' => line :: sb_releases evs'
  | _ :: evs' => sb_releases evs'
  end.

(** Lines 192-194: the two handlers an iteration runs before it reaches
    the superblock check of line 200. *)
Definition loop_handlers {node} (P : node_prims node) (E : env)
    (cur : cursor) (key : btree_key) : M node cursor :=
  bind (check_and_handle_split P E cur key None) (fun cur =>
  check_and_handle_underfull P E cur key).

(** The cursor stands on the root or on a direct child of the root. *)
Definition near_root {node} (cur : cursor) (c : cache node) : Prop :=
  buf cur = Some (root_block c) \/ last_buf cur = Some (root_block c).

(** The superblock rule read literally: sb_buf is held while the walk
    is at the root or at a direct child of the root, so that only lines
    200-202 let go of it.  Read when an iteration that was entered with
    sb_buf held reaches line 200. *)
Definition sb_held_near_root {node} (P : node_prims node) (E : env) : Prop :=
  forall cur key (c : cache node) cur2 c2,
    is_acquired (sb_buf cur) = true ->
    loop_handlers P E cur key c = Ok (cur2, c2) ->
    near_root cur2 c2 ->
    is_acquired (sb_buf cur2) = true.

(** The root of [Cases.wide_tree] is full: the handlers of the first
    iteration split it. *)
Definition wide_handlers_out : cursor * cache Toy.tnode :=
  Eval vm_compute in
    Cases.out_of (loop_handlers Toy.prims Cases.dbg Cases.at_root10
                    (Toy.k "a") Cases.wide_tree) Cases.at_root10.

(** insert_root found sb_buf acquired: neither its assertion (debug
    builds) nor the access through the empty lock (other builds) ended
    the run. *)
Definition insert_root_ok {A} (r : result A) : Prop :=
  r <> Fail (AssertFailed 29) /\ r <> Fail (NotAcquired 30).

(** Modelled from the spec: the room the internal-node primitives leave
    (internal_node.hpp and node.hpp are not part of this file).  An insert
    into an internal node that is not full succeeds (section 4.2, step 4);
    a fresh, empty internal node is not full (section 4.2, step 3); and the
    halves of a split internal node are not full (section 3: every node
    satisfies !is_full after the split handler runs on it). *)
Record room_contract {node} (P : node_prims node) (bs : Z) : Prop := {
  insert_fits : forall pn k l r,
    internal_is_full P pn = false ->
    fst (internal_insert P bs pn k l r) = true;
  init_has_room : internal_is_full P (internal_init P bs) = false;
  split_makes_room : forall n l r m,
    node_is_leaf P n = false ->
    internal_is_full P n = true ->
    node_split P bs n = (l, r, m) ->
    internal_is_full P l = false /\ internal_is_full P r = false
}.

(** What neither the spec nor modify_oper.cc says of node::merge and
    node::level: that the node the underfull handler leaves under the
    cursor, the survivor of a merge or the node a level filled up, is not
    full.  The loop checks for a full node before it checks for an
    underfull one (lines 192-194), so nothing else stands between a node
    refilled by the handler and a split of one of its children. *)
Record no_refill {node} (P : node_prims node) (bs : Z) : Prop := {
  merge_keeps_room : forall n sn pn,
    internal_is_full P n = false ->
    node_is_underfull P bs n = true ->
    node_is_mergable P bs n sn pn = true ->
    internal_is_full P (snd (fst (node_merge P bs n sn pn))) = false
    /\ internal_is_full P (snd (fst (node_merge P bs sn n pn))) = false;
  level_keeps_room : forall n sn pn,
    internal_is_full P n = false ->
    node_is_underfull P bs n = true ->
    node_is_mergable P bs n sn pn = false ->
    internal_is_full P (fst (fst (fst (fst (node_level P bs n sn pn)))))
    = false
}.

(** A separator went into a parent that had room, and the insert said so. *)
Definition insert_ok (e : event) : Prop :=
  match e with
  | EvInternalInsert _ was_full ok => was_full = false /\ ok = true
  | _ => True
  end.

Definition inserts_ok {node} (c : cache node) : Prop :=
  Forall insert_ok (trace c).

(** The loop invariant behind the proactive split: the parent the cursor
    holds is another block than the current one and is not full. *)
Definition parent_has_room {node} (P : node_prims node) (cur : cursor)
    (bl : gmap N node) : Prop :=
  forall l, last_buf cur = Some l ->
    buf cur <> Some l
    /\ exists pn, bl !! l = Some pn /\ internal_is_full P pn = false.

(** The cursor's own node is not full and is not the parent. *)
Definition buf_has_room {node} (P : node_prims node) (cur : cursor)
    (bl : gmap N node) : Prop :=
  exists b n, buf cur = Some b /\ bl !! b = Some n
              /\ internal_is_full P n = false
              /\ last_buf cur <> Some b.

Definition not_line_75 (e : error) : Prop := e <> AssertFailed 75.

(** No walk trips the assertion of line 75, and every separator it
    inserts goes into a parent that had room. *)
Definition separator_always_fits {node} (P : node_prims node) (E : env)
    : Prop :=
  forall oper fuel key (c : cache node),
    inserts_ok c ->
    match run_btree_modify_oper P E oper fuel key c with
    | Ok (_, c') => inserts_ok c'
    | Fail e => e <> AssertFailed 75
    end.

(** The proactive split is all it takes: with node primitives that leave
    the room the spec names, the insert into the parent never fails. *)
Definition proactive_split_suffices : Prop :=
  forall node (P : node_prims node) (E : env),
    room_contract P (block_size E) -> separator_always_fits P E.


(** ** Relating the cache before and after a stretch of the walk *)

(** Nothing is lost and every write went through a write view: no block
    leaves the cache, no deleted or dirty mark is cleared, a block that is
    not dirty afterwards has the contents it had, and the root recorded in
    the superblock is the same unless the superblock is dirty. *)
Definition grows {node} (c c' : cache node) : Prop :=
  dom (blocks c) ⊆ dom (blocks c')
  /\ deleted c ⊆ deleted c'
  /\ dirty c ⊆ dirty c'
  /\ large_deleted c ⊆ large_deleted c'
  /\ (forall id, id ∉ dirty c' -> blocks c' !! id = blocks c !! id)
  /\ (SUPERBLOCK_ID ∉ dirty c' -> root_block c' = root_block c).

(** The lock in [sb_buf], when held, is the lock of the superblock. *)
Definition sb_is_superblock (cur : cursor) : Prop :=
  sb_buf cur = None \/ sb_buf cur = Some SUPERBLOCK_ID.

(** The roots a stretch of the trace installed. *)
Fixpoint installs (evs : list event) : list block_id :=
  match evs with
  | [] => []
  | EvInsertRoot r :: evs' => r :: installs evs'
  | _ :: evs' => installs evs'
  end.

(** How the superblock fared between [c], where the lock was [sb], and
    [c'], where it is [sb']: untouched; or released without a new root; or
    released by the one insert_root that installed a root and moved the
    depth by one. *)
Definition sb_account {node} (sb sb' : buf_lock) (c c' : cache node) : Prop :=
  exists evs,
    trace c' = evs ++ trace c
    /\ ((sb' = sb /\ sb_releases evs = [] /\ installs evs = []
         /\ root_block c' = root_block c
         /\ pm_btree_depth c' = pm_btree_depth c)
        \/ (is_acquired sb = true /\ sb' = None
            /\ (exists line, sb_releases evs = [line] /\ line <> 32%nat)
            /\ installs evs = []
            /\ root_block c' = root_block c
            /\ pm_btree_depth c' = pm_btree_depth c)
        \/ (is_acquired sb = true /\ sb' = None
            /\ sb_releases evs = [32%nat]
            /\ installs evs = [root_block c']
            /\ (pm_btree_depth c' = pm_btree_depth c + 1
                \/ pm_btree_depth c' = pm_btree_depth c - 1))).

(** The cache and the superblock lock after a stretch of the walk that took
    the cursor from [cur] to [cur']. *)
Definition linked {node} (cur : cursor) (c : cache node) (cur' : cursor)
    (c' : cache node) : Prop :=
  grows c c' /\ sb_account (sb_buf cur) (sb_buf cur') c c'
  /\ sb_is_superblock cur'.

(** The superblock over a whole walk: released exactly once, and the root
    and the depth counter stay as they were unless the one release was
    that of an insert_root, which installed the final root and moved the
    depth by one. *)
Definition walk_account {node} (c c' : cache node) : Prop :=
  exists evs,
    trace c' = evs ++ trace c
    /\ (exists line, sb_releases evs = [line])
    /\ ((installs evs = [] /\ root_block c' = root_block c
         /\ pm_btree_depth c' = pm_btree_depth c)
        \/ (sb_releases evs = [32%nat] /\ installs evs = [root_block c']
            /\ (pm_btree_depth c' = pm_btree_depth c + 1
                \/ pm_btree_depth c' = pm_btree_depth c - 1))).

(** ** More concrete trees and runs *)

Module MoreCases.

Import Toy Cases.

(** A root (block 10) over a full leaf (block 1) and a one-key leaf
    (block 2). *)
Definition tall_tree : cache tnode :=
  cache_of (<[ 10%N := TInternal [k "e"] [1%N; 2%N] ]>
            (<[ 1%N := full_leaf ]>
            (<[ 2%N := TLeaf [(k "f", va)] ]> ∅)))
    10%N 2.

Definition at_full_leaf1 : cursor := mk_cursor (Some 1%N) (Some 10%N) None.

(** A root (block 10) over a one-key leaf (block 1) and a three-key leaf
    (block 2): too many entries to merge. *)
Definition lopsided_tree : cache tnode :=
  cache_of (<[ 10%N := TInternal [k "b"] [1%N; 2%N] ]>
            (<[ 1%N := TLeaf [(k "a", va)] ]>
            (<[ 2%N := TLeaf [(k "c", va); (k "d", va); (k "e", va)] ]> ∅)))
    10%N 2.

(** Inserting "e" into the full root leaf of [one_leaf]. *)
Definition insert_e_out : cursor * bool * cache tnode :=
  Eval vm_compute in
    out_of (run_btree_modify_oper prims dbg (set_oper va None) 5 (k "e")
              one_leaf) (at_root5, false).

(** Deleting "a" from [thin_tree]. *)
Definition delete_a_out : cursor * bool * cache tnode :=
  Eval vm_compute in
    out_of (run_btree_modify_oper prims dbg delete_oper 5 (k "a") thin_tree)
      (at_root10, false).

(** The underfull check on leaf 1 of [thin_tree]. *)
Definition merge_out : cursor * cache tnode :=
  Eval vm_compute in
    out_of (check_and_handle_underfull prims dbg at_leaf1 (k "a") thin_tree)
      at_leaf1.

(** The descent for "a" in [thin_tree]. *)
Definition descend_out : cursor * cache tnode :=
  Eval vm_compute in
    out_of (descend prims dbg 5 at_root10 (k "a") thin_tree) at_root10.

(** Deleting the key of [large_leaf], whose value is large. *)
Definition delete_large_out : cursor * bool * cache tnode :=
  Eval vm_compute in
    out_of (at_leaf prims dbg delete_oper at_root5 (k "k") large_leaf)
      (at_root5, false).

(** Inserting a value that wants a CAS under "e" into [one_leaf]. *)
Definition insert_cas_out : cursor * bool * cache tnode :=
  Eval vm_compute in
    out_of (run_btree_modify_oper prims dbg (set_oper wants_cas None) 5
              (k "e") one_leaf) (at_root5, false).

(** Storing a large value under "z" in [large_leaf], which holds "k". *)
Definition insert_large_out : cursor * bool * cache tnode :=
  Eval vm_compute in
    out_of (at_leaf prims dbg swap_oper at_root5 (k "z") large_leaf)
      (at_root5, false).

End MoreCases.

(** ** CAS bookkeeping *)

Definition cas_untouched {node} (c c' : cache node) : Prop :=
  cas_counter c' = cas_counter c /\ last_cas c' = last_cas c.

(** One CAS was drawn from the generator state of [c]. *)
Definition cas_drawn {node} (P : node_prims node) (c c' : cache node) : Prop :=
  cas_counter c' = snd (gen_cas P (cas_counter c))
  /\ last_cas c' = Some (fst (gen_cas P (cas_counter c))).

(** ** What lines 243-255 assert about the result of operate *)

Definition consistent_result (r : operate_result) : Prop :=
  (update_needed r = true ->
   match new_value r with
   | Some v =>
       match v_lb_ref v with
       | Some ref =>
           exists lv, new_large_buflock r = Some lv /\ lb_root lv = ref
       | None => new_large_buflock r = None
       end
   | None => new_large_buflock r = None
   end)
  /\ (update_needed r = false -> new_large_buflock r = None).

(** ** Where the walk stands when it calls a helper *)

(** [at_head P E key c0 i cur c]: a walk for [key] started on the cache
    [c0] reaches the loop condition of line 190 with cursor [cur] and cache
    [c] after get_root and [i] passes through the loop body.  Both helpers
    are called from such a state, in the loop (lines 192-194) and at the
    leaf (lines 271 and 297). *)
Inductive at_head {node} (P : node_prims node) (E : env) (key : btree_key)
    (c0 : cache node) : nat -> cursor -> cache node -> Prop :=
| at_head_root sb b c1 :
    get_root P E (Some SUPERBLOCK_ID) None c0 = Ok ((sb, b), c1) ->
    at_head P E key c0 O (mk_cursor b None sb) c1
| at_head_child i cur c cur' c' :
    at_head P E key c0 i cur c ->
    at_internal P cur c = Ok (true, c) ->
    descend_step P E cur key c = Ok (cur', c') ->
    at_head P E key c0 (S i) cur' c'.

(** No walk ends at insert_root's entry. *)
Definition insert_root_never_trips {node} (P : node_prims node) (E : env)
    : Prop :=
  forall oper fuel key (c : cache node),
    insert_root_ok (run_btree_modify_oper P E oper fuel key c).

(** ** The walk of a refused operation *)

(** The key's path gives the descent nothing to do: no internal node on it
    is full, and none below the first is underfull.  [has_parent] says
    whether the walk comes to block [b] with last_buf acquired. *)
Fixpoint quiet_path {node} (P : node_prims node) (E : env) (fuel : nat)
    (key : btree_key) (bl : gmap N node) (b : block_id) (has_parent : bool)
    : Prop :=
  match bl !! b with
  | Some n =>
      if node_is_internal P n then
        internal_is_full P n = false
        /\ has_parent && node_is_underfull P (block_size E) n = false
        /\ match fuel with
           | O => True
           | S fuel' =>
               quiet_path P E fuel' key bl (internal_lookup P n key) true
           end
      else True
  | None => True
  end.

(** The last clause of the refusal rule read on the whole walk: when the
    operator declines on a key that has not expired and the walk has
    changed nothing in the tree (no block holds other contents, none is
    marked deleted, root and depth are the same), the transaction is
    read-only, that is, no block was dirtied. *)
Definition refusal_read_only {node} (P : node_prims node) (E : env) : Prop :=
  forall oper fuel key (c : cache node) res c',
    run_btree_modify_oper P E oper fuel key c = Ok (res, c') ->
    snd res = false ->
    blocks c' = blocks c -> deleted c' = deleted c ->
    root_block c' = root_block c -> pm_btree_depth c' = pm_btree_depth c ->
    dirty c' = dirty c.

Module Shapes.

Import Toy Cases.

(** Three levels: the root (block 30) over two internal nodes, of which
    block 20 has a single child and so is underfull, while block 21 is too
    big to merge with. *)
Definition lazy_tree : cache tnode :=
  cache_of (<[ 30%N := TInternal [k "m"] [20%N; 21%N] ]>
            (<[ 20%N := TInternal [] [1%N] ]>
            (<[ 21%N := TInternal [k "p"; k "s"] [2%N; 3%N; 4%N] ]>
            (<[ 1%N := TLeaf [(k "a", va); (k "b", va)] ]>
            (<[ 2%N := TLeaf [(k "n", va); (k "o", va)] ]>
            (<[ 3%N := TLeaf [(k "q", va); (k "r", va)] ]>
            (<[ 4%N := TLeaf [(k "t", va); (k "u", va)] ]> ∅)))))))
    30%N 3.

(** The walk for "a" in [lazy_tree] with an operator that declines. *)
Definition lazy_out : cursor * bool * cache tnode :=
  Eval vm_compute in
    out_of (run_btree_modify_oper prims dbg noop_oper 5 (k "a") lazy_tree)
      (at_root5, true).

(** Three levels, every node within its bounds: the root (block 30) over
    two internal nodes of two children each, over leaves of two keys. *)
Definition deep_tree : cache tnode :=
  cache_of (<[ 30%N := TInternal [k "m"] [20%N; 21%N] ]>
            (<[ 20%N := TInternal [k "c"] [1%N; 2%N] ]>
            (<[ 21%N := TInternal [k "x"] [3%N; 4%N] ]>
            (<[ 1%N := TLeaf [(k "a", va); (k "b", va)] ]>
            (<[ 2%N := TLeaf [(k "d", va); (k "e", va)] ]>
            (<[ 3%N := TLeaf [(k "n", va); (k "o", va)] ]>
            (<[ 4%N := TLeaf [(k "y", va); (k "z", va)] ]> ∅)))))))
    30%N 3.

(** Inserting "e" into [MoreCases.tall_tree]. *)
Definition tall_insert_out : cursor * bool * cache tnode :=
  Eval vm_compute in
    out_of (run_btree_modify_oper prims dbg (set_oper va None) 5 (k "e")
              MoreCases.tall_tree) (at_root5, false).

(** Node primitives like those of [Toy], except that a node other than
    the root wants three entries and that two nodes may be merged as soon
    as their entries fit into one node, be it exactly. *)
Module Refill.

Definition prims : node_prims tnode := {|
  node_is_leaf := is_leaf;
  node_is_internal := fun n => negb (is_leaf n);
  leaf_is_full := leaf_full;
  internal_is_full := internal_full;
  node_split := fun _ => split;
  internal_init := fun _ => TInternal [] [];
  internal_insert := fun _ => insert_internal;
  internal_remove := fun _ => remove_internal;
  internal_lookup := lookup_internal;
  internal_sibling := sibling;
  internal_update_key := update_key;
  internal_is_singleton := is_singleton;
  node_is_underfull := fun _ n => Nat.ltb (npairs n) 3;
  node_is_mergable := fun _ n sib _ =>
    Bool.eqb (is_leaf n) (is_leaf sib) && Nat.leb (npairs n + npairs sib) 4;
  node_merge := fun _ => merge;
  node_level := fun _ => level;
  node_validate := fun _ _ => true;
  leaf_init := fun _ _ => TLeaf [];
  leaf_lookup := lookup_leaf;
  leaf_insert := fun _ n k v _ => insert_leaf n k v;
  leaf_remove := fun _ => remove_leaf;
  value_expired := expired;
  gen_cas := fun s => (s + 1, s + 1)
|}.

Definition kk (a b : byte) : btree_key := [a; b].

Definition key : btree_key := kk "a" "c".

(** Three levels.  The root (block 30) has three children; block 20 is
    full, its siblings and the leaves hold three or four entries. *)
Definition bushy_tree : cache tnode :=
  cache_of
    (<[ 30%N := TInternal [k "h"; k "p"] [20%N; 21%N; 22%N] ]>
     (<[ 20%N := TInternal [k "b"; k "d"; k "f"] [1%N; 2%N; 3%N; 4%N] ]>
     (<[ 21%N := TInternal [k "j"; k "l"] [5%N; 6%N; 7%N] ]>
     (<[ 22%N := TInternal [k "r"; k "t"] [8%N; 9%N; 11%N] ]>
     (<[ 1%N := TLeaf [(k "a", va); (kk "a" "a", va); (kk "a" "b", va);
                       (k "b", va)] ]>
     (<[ 2%N := TLeaf [(k "c", va); (kk "c" "a", va); (k "d", va)] ]>
     (<[ 3%N := TLeaf [(k "e", va); (kk "e" "a", va); (k "f", va)] ]>
     (<[ 4%N := TLeaf [(k "g", va); (kk "g" "a", va); (k "h", va)] ]>
     (<[ 5%N := TLeaf [(k "i", va); (kk "i" "a", va); (k "j", va)] ]>
     (<[ 6%N := TLeaf [(k "k", va); (kk "k" "a", va); (k "l", va)] ]>
     (<[ 7%N := TLeaf [(k "m", va); (kk "m" "a", va); (k "p", va)] ]>
     (<[ 8%N := TLeaf [(k "q", va); (kk "q" "a", va); (k "r", va)] ]>
     (<[ 9%N := TLeaf [(k "s", va); (kk "s" "a", va); (k "t", va)] ]>
     (<[ 11%N := TLeaf [(k "u", va); (kk "u" "a", va); (k "v", va)] ]>
        ∅))))))))))))))
    30%N 3.

End Refill.

End Shapes.

(** ** Basic facts *)

Lemma NULL_not_SUPERBLOCK : NULL_BLOCK_ID <> SUPERBLOCK_ID.
Proof. discriminate. Qed.

Lemma fresh_block (X : gset N) :
  fresh (X ∪ {[ SUPERBLOCK_ID; NULL_BLOCK_ID ]}) <> NULL_BLOCK_ID
  /\ fresh (X ∪ {[ SUPERBLOCK_ID; NULL_BLOCK_ID ]}) ∉ X.
Proof.
  pose proof (is_fresh (X ∪ {[ SUPERBLOCK_ID; NULL_BLOCK_ID ]})) as Hf.
  split.
  - intros Heq. apply Hf. rewrite Heq.
    apply elem_of_union_r, elem_of_union_r, elem_of_singleton. reflexivity.
  - intros Hin. apply Hf, elem_of_union_l, Hin.
Qed.

Opaque NULL_BLOCK_ID.

Section Facts.

Context {node : Type}.
Variable P : node_prims node.
Variable E : env.

Lemma wp_ret {A} (a : A) Q F (c : cache node) : Q a c -> wp (ret a) Q F c.
Proof. exact (fun H => H). Qed.

Lemma wp_fail {A} e (Q : A -> cache node -> Prop) F (c : cache node) :
  F e -> wp (fail e) Q F c.
Proof. exact (fun H => H). Qed.

Lemma wp_bind {A B} (m : M node A) (f : A -> M node B) Q F (c : cache node) :
  wp m (fun a c' => wp (f a) Q F c') F c -> wp (bind m f) Q F c.
Proof.
  unfold wp, bind. destruct (m c) as [[a c']|e]; exact (fun H => H).
Qed.

Lemma wp_mono {A} (m : M node A) (Q Q' : A -> cache node -> Prop)
    (F F' : error -> Prop) (c : cache node) :
  wp m Q F c -> (forall a c', Q a c' -> Q' a c') -> (forall e, F e -> F' e) ->
  wp m Q' F' c.
Proof.
  unfold wp. destruct (m c) as [[a c']|e]; auto.
Qed.

Lemma wp_ok {A} (m : M node A) Q F (c : cache node) a c' :
  m c = Ok (a, c') -> wp m Q F c -> Q a c'.
Proof. unfold wp. intros ->. exact (fun H => H). Qed.

Lemma wp_fail_inv {A} (m : M node A) Q F (c : cache node) e :
  m c = Fail e -> wp m Q F c -> F e.
Proof. unfold wp. intros ->. exact (fun H => H). Qed.

Lemma wp_total {A} (m : M node A) (Q : A -> cache node -> Prop) (c : cache node) :
  wp m Q (fun _ => False) c -> exists a c', m c = Ok (a, c') /\ Q a c'.
Proof.
  unfold wp. destruct (m c) as [[a c']|e]; [eauto|contradiction].
Qed.

Lemma wp_modify f (Q : unit -> cache node -> Prop) F (c : cache node) :
  Q tt (f c) -> wp (modify f) Q F c.
Proof. exact (fun H => H). Qed.

Lemma wp_rassert line cond (Q : unit -> cache node -> Prop) F (c : cache node) :
  (debug E = true -> cond = false -> F (AssertFailed line)) ->
  (debug E = false \/ cond = true -> Q tt c) ->
  wp (rassert E line cond) Q F c.
Proof.
  unfold wp, rassert. destruct (debug E), cond; cbn; auto.
Qed.

Lemma wp_guarantee line cond (Q : unit -> cache node -> Prop) F (c : cache node) :
  (cond = false -> F (GuaranteeFailed line)) ->
  (cond = true -> Q tt c) ->
  wp (guarantee line cond) Q F c.
Proof.
  unfold wp, guarantee. destruct cond; cbn; auto.
Qed.

Lemma wp_buf_of line (b : buf_lock) (Q : block_id -> cache node -> Prop) F (c : cache node) :
  match b with Some id => Q id c | None => F (NotAcquired line) end ->
  wp (buf_of line b) Q F c.
Proof. destruct b; exact (fun H => H). Qed.

Lemma wp_get_data_read id (Q : node -> cache node -> Prop) F (c : cache node) :
  match blocks c !! id with Some n => Q n c | None => F (BadBlock id) end ->
  wp (get_data_read id) Q F c.
Proof.
  unfold wp, get_data_read. destruct (blocks c !! id); exact (fun H => H).
Qed.

Lemma wp_acquire held id (Q : buf_lock -> cache node -> Prop) F (c : cache node) :
  (id ∈ held_ids held -> F (LockHeld id)) ->
  (id ∉ held_ids held -> blocks c !! id = None -> F (BadBlock id)) ->
  (id ∉ held_ids held -> is_Some (blocks c !! id) -> Q (Some id) c) ->
  wp (acquire held id) Q F c.
Proof.
  unfold wp, acquire. intros H1 H2 H3. case_bool_decide; [auto|].
  destruct (blocks c !! id) eqn:Hb; [apply H3; eauto|apply H2; auto].
Qed.

Lemma wp_allocate held (Q : buf_lock -> cache node -> Prop) F (c : cache node) :
  (forall id, id ∉ dom (blocks c) -> id ∉ held_ids held ->
              id <> SUPERBLOCK_ID -> id <> NULL_BLOCK_ID ->
              id = fresh (dom (blocks c) ∪ held_ids held
                          ∪ {[ SUPERBLOCK_ID; NULL_BLOCK_ID ]}) ->
              Q (Some id) c) ->
  wp (allocate held) Q F c.
Proof.
  unfold wp, allocate. intros H.
  pose proof (is_fresh (dom (blocks c) ∪ held_ids held
                        ∪ {[ SUPERBLOCK_ID; NULL_BLOCK_ID ]})) as Hf.
  apply H; auto; intros Hin; apply Hf.
  - apply elem_of_union_l, elem_of_union_l, Hin.
  - apply elem_of_union_l, elem_of_union_r, Hin.
  - rewrite Hin. apply elem_of_union_r, elem_of_union_l, elem_of_singleton.
    reflexivity.
  - rewrite Hin. apply elem_of_union_r, elem_of_union_r, elem_of_singleton.
    reflexivity.
Qed.


Ltac wp_beta :=
  cbv beta delta [set_trace];
  cbn [blocks deleted dirty root_block pm_btree_depth cas_counter last_cas
       large_deleted trace buf last_buf sb_buf fst snd].

Ltac wp_step :=
  lazymatch goal with
  | |- wp (bind _ _) _ _ _ => apply wp_bind
  | |- wp (ret _) _ _ _ => apply wp_ret
  | |- wp (fail _) _ _ _ => apply wp_fail
  | |- wp (modify _) _ _ _ => apply wp_modify
  | |- wp (log _) _ _ _ => apply wp_modify
  | |- wp (get_data_write _) _ _ _ => apply wp_modify
  | |- wp (store _ _) _ _ _ => apply wp_modify
  | |- wp (mark_deleted _) _ _ _ => apply wp_modify
  | |- wp (set_root_block _) _ _ _ => apply wp_modify
  | |- wp (add_depth _) _ _ _ => apply wp_modify
  | |- wp (mark_large_deleted _) _ _ _ => apply wp_modify
  | |- wp (buf_of _ _) _ _ _ => apply wp_buf_of
  | |- wp (get_data_read _) _ _ _ => apply wp_get_data_read
  end; wp_beta.

Ltac wp_steps := repeat wp_step.

Lemma wp_insert_root root_id (sb : buf_lock) (Q : buf_lock -> cache node -> Prop)
    F (c : cache node) :
  (debug E = true -> sb = None -> F (AssertFailed 29)) ->
  (debug E = false -> sb = None -> F (NotAcquired 30)) ->
  (forall id, sb = Some id ->
     Q None (mk_cache (blocks c) (deleted c) ({[ id ]} ∪ dirty c) root_id
               (pm_btree_depth c) (cas_counter c) (last_cas c)
               (large_deleted c)
               (EvReleaseSb 32 :: EvInsertRoot root_id :: trace c))) ->
  wp (insert_root E root_id sb) Q F c.
Proof.
  intros H1 H2 H3. unfold insert_root. wp_step.
  apply wp_rassert.
  - destruct sb; [discriminate|]. auto.
  - intros Hd. wp_beta. destruct sb as [id|]; wp_steps.
    + apply H3. reflexivity.
    + destruct Hd as [Hd|Hd]; [auto|discriminate].
Qed.

Lemma not_in_held_sb (x : block_id) :
  x <> SUPERBLOCK_ID -> x ∉ held_ids [Some SUPERBLOCK_ID; None].
Proof.
  intros Hne Hin. unfold held_ids in Hin. cbn [omap list_omap id] in Hin.
  rewrite list_to_set_cons, list_to_set_nil in Hin.
  apply elem_of_union in Hin as [Hin|Hin].
  - apply elem_of_singleton in Hin. contradiction.
  - apply elem_of_empty in Hin. exact Hin.
Qed.

Lemma wp_get_root_start (Q : buf_lock * buf_lock -> cache node -> Prop) F (c : cache node) :
  (root_block c = NULL_BLOCK_ID ->
   forall b, blocks c !! b = None -> b <> NULL_BLOCK_ID -> b <> SUPERBLOCK_ID ->
     Q (None, Some b)
       (mk_cache (<[ b := leaf_init P (block_size E) (current_time E) ]> (blocks c))
          (deleted c) ({[ SUPERBLOCK_ID ]} ∪ ({[ b ]} ∪ dirty c)) b
          (pm_btree_depth c + 1) (cas_counter c) (last_cas c) (large_deleted c)
          (EvReleaseSb 32 :: EvInsertRoot b :: trace c))) ->
  (root_block c <> NULL_BLOCK_ID ->
   (root_block c = SUPERBLOCK_ID -> F (LockHeld (root_block c)))
   /\ (blocks c !! root_block c = None -> F (BadBlock (root_block c)))
   /\ (root_block c <> SUPERBLOCK_ID -> is_Some (blocks c !! root_block c) ->
       Q (Some SUPERBLOCK_ID, Some (root_block c)) c)) ->
  wp (get_root P E (Some SUPERBLOCK_ID) None) Q F c.
Proof.
  intros Hempty Hroot. unfold get_root. wp_step.
  apply wp_rassert; [discriminate|intros _]. wp_steps.
  unfold wp at 1. wp_beta.
  destruct (N.eqb (root_block c) NULL_BLOCK_ID) eqn:Heq; cbn [negb].
  - apply N.eqb_eq in Heq. wp_step. apply wp_allocate.
    intros b Hdom Hheld Hsb Hnull _. wp_steps.
    apply wp_insert_root; try discriminate.
    intros id [= <-]. wp_steps.
    apply Hempty; auto. apply not_elem_of_dom, Hdom.
  - apply N.eqb_neq in Heq. destruct (Hroot Heq) as (H1 & H2 & H3).
    wp_step. apply wp_acquire.
    + intros Hin. apply H1. destruct (decide (root_block c = SUPERBLOCK_ID)); auto.
      exfalso. eapply not_in_held_sb; eauto.
    + intros _. exact H2.
    + intros Hni Hs. wp_steps. apply H3; auto.
      intros Heq'. apply Hni. rewrite Heq'. unfold held_ids.
      cbn [omap list_omap id]. rewrite list_to_set_cons.
      apply elem_of_union_l, elem_of_singleton. reflexivity.
Qed.

Lemma held_ids_spec (x : block_id) (held : list buf_lock) :
  x ∈ held_ids held <-> In (Some x) held.
Proof.
  unfold held_ids. rewrite elem_of_list_to_set, list_elem_of_omap.
  split.
  - intros (o & Hin & Ho). apply list_elem_of_In in Hin.
    unfold id in Ho. subst o. exact Hin.
  - intros Hin. exists (Some x). split; [apply list_elem_of_In, Hin|reflexivity].
Qed.

Lemma wp_split cur key nv (Q : cursor -> cache node -> Prop) F (c : cache node) :
  (forall e, boring e -> F e) ->
  (forall b n full,
     buf cur = Some b -> blocks c !! b = Some n ->
     split_decision P E n key nv full ->
     (full = false -> Q cur (set_trace c (EvSplitCheck b :: trace c)))
     /\ (full = true ->
         forall r lnode rsib median,
           blocks c !! r = None ->
           r ∉ held_ids [buf cur; last_buf cur; sb_buf cur] ->
           r <> SUPERBLOCK_ID -> r <> NULL_BLOCK_ID ->
           node_split P (block_size E) n = (lnode, rsib, median) ->
           (forall l pn success pn',
              last_buf cur = Some l ->
              <[ r := rsib ]> (<[ b := lnode ]> (blocks c)) !! l = Some pn ->
              internal_insert P (block_size E) pn median b r = (success, pn') ->
              (debug E = true -> success = false -> F (AssertFailed 75))
              /\ (debug E = false \/ success = true ->
                  Q (mk_cursor (redirect key median b r) (Some l) (sb_buf cur))
                    (split_cache c b r l lnode rsib pn' None
                       (internal_is_full P pn) success)))
           /\ (last_buf cur = None ->
               (sb_buf cur = None ->
                (debug E = true -> F (AssertFailed 29))
                /\ (debug E = false -> F (NotAcquired 30)))
               /\ (forall sbid l success pn',
                     sb_buf cur = Some sbid ->
                     blocks c !! l = None -> l <> b -> l <> r ->
                     l <> SUPERBLOCK_ID -> l <> NULL_BLOCK_ID ->
                     internal_insert P (block_size E)
                       (internal_init P (block_size E)) median b r
                       = (success, pn') ->
                     (debug E = true -> success = false ->
                      F (AssertFailed 75))
                     /\ (debug E = false \/ success = true ->
                         Q (mk_cursor (redirect key median b r) (Some l) None)
                           (split_cache c b r l lnode rsib pn' (Some sbid)
                              (internal_is_full P
                                 (internal_init P (block_size E)))
                              success)))))) ->
  wp (check_and_handle_split P E cur key nv) Q F c.
Proof.
  intros HF H. unfold check_and_handle_split.
  destruct (buf cur) as [b|] eqn:Hb; wp_steps; [|apply HF; exact I].
  destruct (blocks c !! b) as [n|] eqn:Hn; [|apply HF; exact I].
  wp_steps.
  assert (Hdec : wp (split_needed P E n key nv)
            (fun full c' => c' = set_trace c (EvSplitCheck b :: trace c)
                            /\ split_decision P E n key nv full) F
            (set_trace c (EvSplitCheck b :: trace c))).
  { unfold split_needed, split_decision.
    destruct (node_is_leaf P n); wp_step.
    - destruct nv as [v|].
      + apply wp_rassert; [intros _ Hf; rewrite bool_decide_eq_true_2 in Hf;
                           [discriminate|eauto]|intros _].
        wp_steps. split; [reflexivity|left; eauto].
      + apply wp_rassert; [intros; apply HF; exact I|intros _].
        wp_steps. apply HF. exact I.
    - apply wp_rassert; [intros; apply HF; exact I|intros Hd]. wp_steps.
      split; [reflexivity|right]. repeat split; auto.
      intros Hdbg. destruct Hd as [Hd|Hd]; [congruence|].
      destruct nv; [|reflexivity].
      rewrite bool_decide_eq_true_2 in Hd; [discriminate|eauto]. }
  eapply wp_mono; [exact Hdec| |auto].
  intros full c' [-> Hdecision]. wp_beta.
  destruct (H b n full eq_refl Hn Hdecision) as [Hno Hyes].
  destruct full; cbn [negb]; [|wp_steps; auto].
  wp_step. apply wp_allocate.
  intros r Hr1 Hr2 Hr3 Hr4 _. apply not_elem_of_dom in Hr1.
  unfold set_trace in Hr1; cbn [blocks] in Hr1. wp_steps.
  destruct (node_split P (block_size E) n) as [[lnode rsib] median] eqn:Hsplit.
  destruct (Hyes eq_refl r lnode rsib median Hr1 Hr2 Hr3 Hr4 eq_refl)
    as [Hold Hnew].
  assert (Hrb : r <> b).
  { intros ->. apply Hr2, held_ids_spec. left. reflexivity. }
  wp_steps.
  destruct (last_buf cur) as [l|] eqn:Hl; cbn [is_acquired negb]; wp_steps.
  - destruct (<[r:=rsib]> (<[b:=lnode]> (blocks c)) !! l) as [pn|] eqn:Hpn;
      [|apply HF; exact I].
    destruct (internal_insert P (block_size E) pn median b r)
      as [success pn'] eqn:Hins.
    destruct (Hold l pn success pn' eq_refl Hpn Hins) as [Hbad Hgood].
    wp_steps. apply wp_rassert; [exact Hbad|intros Hs]. wp_beta.
    specialize (Hgood Hs). unfold redirect, split_cache in Hgood.
    destruct (0 >=? sized_strcmp key median); wp_steps; exact Hgood.
  - apply wp_allocate. intros l Hl1 Hl2 Hl3 Hl4 _. wp_steps.
    destruct (Hnew eq_refl) as [Hnosb Hsb].
    apply wp_insert_root.
    + intros Hd Hn'. apply Hnosb; auto.
    + intros Hd Hn'. apply Hnosb; auto.
    + intros sbid Hsbid. wp_steps. rewrite lookup_insert_eq.
      destruct (internal_insert P (block_size E)
                  (internal_init P (block_size E)) median b r)
        as [success pn'] eqn:Hins.
      assert (Hlb : l <> b).
      { intros ->. apply Hl2, held_ids_spec. left. reflexivity. }
      assert (Hlr : l <> r).
      { intros ->. apply Hl2, held_ids_spec. right. left. reflexivity. }
      assert (Hlnone : blocks c !! l = None).
      { cbn [blocks] in Hl1. apply not_elem_of_dom in Hl1.
        rewrite !lookup_insert_ne in Hl1 by congruence. exact Hl1. }
      destruct (Hsb sbid l success pn' Hsbid Hlnone Hlb Hlr Hl3 Hl4 eq_refl)
        as [Hbad Hgood].
      wp_steps. apply wp_rassert; [exact Hbad|intros Hs]. wp_beta.
      specialize (Hgood Hs). unfold redirect, split_cache in Hgood.
      rewrite insert_insert_eq.
      destruct (0 >=? sized_strcmp key median); wp_steps; exact Hgood.
Qed.

Lemma memcmp_refl (s : btree_key) (n : nat) : memcmp s s n = 0.
Proof.
  revert n. induction s as [|x s IH]; intros [|n]; cbn; auto.
  rewrite N.eqb_refl. apply IH.
Qed.

Lemma sized_strcmp_refl (s : btree_key) : sized_strcmp s s = 0.
Proof.
  unfold sized_strcmp. rewrite memcmp_refl. cbn. lia.
Qed.

Lemma split_decision_fun (n : node) key nv f1 f2 :
  split_decision P E n key nv f1 -> split_decision P E n key nv f2 -> f1 = f2.
Proof.
  intros [(Hl1 & v1 & -> & ->)|(Hl1 & -> & _)] [(Hl2 & v2 & Hv & ->)|(Hl2 & -> & _)];
    try congruence.
Qed.

Lemma redirect_left key median b r :
  sized_strcmp key median <= 0 -> redirect key median b r = Some b.
Proof.
  intros H. unfold redirect.
  destruct (Z.geb_spec 0 (sized_strcmp key median)); [reflexivity|lia].
Qed.

Lemma redirect_right key median b r :
  sized_strcmp key median > 0 -> redirect key median b r = Some r.
Proof.
  intros H. unfold redirect.
  destruct (Z.geb_spec 0 (sized_strcmp key median)); [lia|reflexivity].
Qed.

(** C2: when check_and_handle_split splits the node at [median], the cursor
    follows the key: for a key at or below the median [buf] still names the
    original (left) node, for a key above it [buf] names the newly
    allocated right sibling; a key equal to the median stays left. *)
Theorem split_redirects_cursor cur key nv (c : cache node) cur' c'
    b n lnode rsib median :
  buf cur = Some b ->
  blocks c !! b = Some n ->
  split_decision P E n key nv true ->
  node_split P (block_size E) n = (lnode, rsib, median) ->
  check_and_handle_split P E cur key nv c = Ok (cur', c') ->
  (sized_strcmp key median <= 0 -> buf cur' = Some b)
  /\ (sized_strcmp key median > 0 ->
      exists r, buf cur' = Some r /\ r <> b /\ blocks c !! r = None
                /\ blocks c' !! r = Some rsib)
  /\ (key = median -> buf cur' = Some b)
  /\ (last_buf cur <> Some b -> blocks c' !! b = Some lnode).
Proof.
  intros Hb Hn Hdec Hsplit Hrun.
  refine (wp_ok _ (fun cur' c' => _) (fun _ => True) _ _ _ Hrun _).
  apply wp_split; [trivial|].
  intros b0 n0 full Hb0 Hn0 Hdec0.
  assert (b0 = b) as -> by congruence.
  assert (n0 = n) as -> by congruence.
  assert (full = true) as -> by (eapply split_decision_fun; eauto).
  split; [discriminate|]. intros _ r lnode0 rsib0 median0 Hr Hheld _ _ Hsp.
  rewrite Hsplit in Hsp. injection Hsp as <- <- <-.
  assert (Hrb : r <> b).
  { intros ->. apply Hheld, held_ids_spec. left. congruence. }
  assert (Hgoal : forall l pn' nr wf success,
             l <> r -> (last_buf cur <> Some b -> l <> b) ->
             let cur' := mk_cursor (redirect key median b r) (Some l)
                           (match nr with Some _ => None | None => sb_buf cur end) in
             let c' := split_cache c b r l lnode rsib pn' nr wf success in
             (sized_strcmp key median <= 0 -> buf cur' = Some b)
             /\ (sized_strcmp key median > 0 ->
                 exists r, buf cur' = Some r /\ r <> b /\ blocks c !! r = None
                           /\ blocks c' !! r = Some rsib)
             /\ (key = median -> buf cur' = Some b)
             /\ (last_buf cur <> Some b -> blocks c' !! b = Some lnode)).
  { intros l pn' nr wf success Hlr Hlb. cbn [buf]. repeat split.
    - apply redirect_left.
    - intros Hgt. exists r. rewrite redirect_right by exact Hgt.
      repeat split; auto.
      destruct nr; cbn [split_cache blocks];
        rewrite lookup_insert_ne by congruence; apply lookup_insert_eq.
    - intros ->. apply redirect_left. rewrite sized_strcmp_refl. lia.
    - intros Hne. specialize (Hlb Hne).
      destruct nr; cbn [split_cache blocks];
        rewrite !lookup_insert_ne by congruence; apply lookup_insert_eq. }
  split.
  - intros l pn success pn' Hl Hpn Hins. split; [trivial|]. intros _.
    apply (Hgoal l pn' None _ success).
    + intros ->. apply Hheld, held_ids_spec. right. left. exact Hl.
    + intros Hne ->. congruence.
  - intros Hl. split; [auto|].
    intros sbid l success pn' Hsb Hlnone Hlb Hlr _ _ Hins.
    split; [trivial|]. intros _.
    apply (Hgoal l pn' (Some sbid) _ success); auto.
Qed.

Lemma wp_underfull cur key (Q : cursor -> cache node -> Prop) F
    (c : cache node) :
  (forall e, boring e -> F e) ->
  (forall b n,
     buf cur = Some b -> blocks c !! b = Some n ->
     (is_acquired (last_buf cur) && node_is_underfull P (block_size E) n = false ->
      Q cur (set_trace c (EvUnderfullCheck b :: trace c)))
     /\ (forall l pn cmp s sn,
           last_buf cur = Some l ->
           node_is_underfull P (block_size E) n = true ->
           blocks c !! l = Some pn ->
           internal_sibling P pn key = (cmp, s) ->
           s ∉ held_ids [buf cur; last_buf cur; sb_buf cur] ->
           blocks c !! s = Some sn ->
           (debug E = true -> node_validate P (block_size E) sn = true) ->
           (node_is_mergable P (block_size E) n sn pn = false ->
            Q cur (level_cache c (level_outcome P E (blocks c) b s l n sn pn)
                     b l s))
           /\ (node_is_mergable P (block_size E) n sn pn = true ->
               forall survivor dead bl key_to_remove,
                 merge_outcome P E (blocks c) cmp b s n sn pn
                   = (survivor, dead, bl, key_to_remove) ->
                 (internal_is_singleton P pn = false ->
                  Q (mk_cursor (Some survivor) (Some l) (sb_buf cur))
                    (merge_cache c
                       (<[ l := internal_remove P (block_size E) pn
                                  key_to_remove ]> bl)
                       dead b l s None))
                 /\ (internal_is_singleton P pn = true ->
                     (sb_buf cur = None ->
                      (debug E = true -> F (AssertFailed 29))
                      /\ (debug E = false -> F (NotAcquired 30)))
                     /\ (forall sbid,
                           sb_buf cur = Some sbid ->
                           Q (mk_cursor (Some survivor) (Some l) None)
                             (merge_cache c bl dead b l s
                                (Some (sbid, survivor)))))))) ->
  wp (check_and_handle_underfull P E cur key) Q F c.
Proof.
  intros HF H. unfold check_and_handle_underfull.
  destruct (buf cur) as [b|] eqn:Hb; wp_steps; [|apply HF; exact I].
  destruct (blocks c !! b) as [n|] eqn:Hn; [|apply HF; exact I].
  wp_steps.
  destruct (H b n eq_refl Hn) as [Hno Hyes]. clear H.
  destruct (last_buf cur) as [l|] eqn:Hl; cbn [is_acquired andb];
    [|wp_steps; apply Hno; reflexivity].
  destruct (node_is_underfull P (block_size E) n) eqn:Hu;
    [|wp_steps; apply Hno; reflexivity].
  clear Hno. wp_steps.
  destruct (blocks c !! l) as [pn|] eqn:Hpn; [|apply HF; exact I].
  destruct (internal_sibling P pn key) as [cmp s] eqn:Hsib. wp_steps.
  apply wp_acquire; [intros; apply HF; exact I|intros; apply HF; exact I|].
  cbn [blocks]. intros Hheld [sn Hsn]. wp_steps. rewrite Hsn. wp_steps.
  apply wp_rassert; [intros; apply HF; exact I|intros Hval]. wp_beta.
  assert (Hval' : debug E = true -> node_validate P (block_size E) sn = true).
  { intros Hd. destruct Hval as [Hval|Hval]; congruence. }
  destruct (Hyes l pn cmp s sn eq_refl eq_refl Hpn Hsib Hheld Hsn Hval')
    as [Hlevel Hmerge]. clear Hyes.
  destruct (node_is_mergable P (block_size E) n sn pn) eqn:Hm.
  - clear Hlevel. specialize (Hmerge eq_refl).
    unfold merge_outcome in Hmerge. wp_step.
    destruct (cmp <? 0).
    + destruct (node_merge P (block_size E) n sn pn) as [[n' sib'] k0].
      destruct (Hmerge _ _ _ _ eq_refl) as [Hns Hs]. wp_steps.
      destruct (internal_is_singleton P pn); cbn [negb]; wp_steps.
      * destruct (Hs eq_refl) as [Hnosb Hsb]. apply wp_insert_root.
        -- intros Hd Hn'. apply Hnosb; auto.
        -- intros Hd Hn'. apply Hnosb; auto.
        -- intros sbid Hsbid. wp_steps. apply (Hsb sbid Hsbid).
      * apply Hns. reflexivity.
    + destruct (node_merge P (block_size E) sn n pn) as [[sib' n'] k0].
      destruct (Hmerge _ _ _ _ eq_refl) as [Hns Hs]. wp_steps.
      destruct (internal_is_singleton P pn); cbn [negb]; wp_steps.
      * destruct (Hs eq_refl) as [Hnosb Hsb]. apply wp_insert_root.
        -- intros Hd Hn'. apply Hnosb; auto.
        -- intros Hd Hn'. apply Hnosb; auto.
        -- intros sbid Hsbid. wp_steps. apply (Hsb sbid Hsbid).
      * apply Hns. reflexivity.
  - clear Hmerge. specialize (Hlevel eq_refl).
    unfold level_outcome, level_cache in Hlevel.
    destruct (node_level P (block_size E) n sn pn)
      as [[[[n' sib'] k1] k2] leveled].
    wp_steps. destruct leveled; wp_steps; exact Hlevel.
Qed.

(** C5: when a merge leaves the parent a singleton, check_and_handle_underfull
    retires it: the parent block is marked deleted, the surviving merged
    node becomes the superblock's root and the depth counter drops by one
    (the parent is not rewritten).  When the parent is not a singleton the
    separator is removed from it with internal_node::remove and the root
    and the depth stay as they were. *)
Theorem merge_handles_parent cur key (c : cache node)
    b n l pn cmp s sn survivor dead bl key_to_remove :
  buf cur = Some b -> blocks c !! b = Some n ->
  last_buf cur = Some l ->
  node_is_underfull P (block_size E) n = true ->
  blocks c !! l = Some pn ->
  internal_sibling P pn key = (cmp, s) ->
  s ∉ held_ids [buf cur; last_buf cur; sb_buf cur] ->
  blocks c !! s = Some sn ->
  (debug E = true -> node_validate P (block_size E) sn = true) ->
  node_is_mergable P (block_size E) n sn pn = true ->
  merge_outcome P E (blocks c) cmp b s n sn pn
    = (survivor, dead, bl, key_to_remove) ->
  (internal_is_singleton P pn = true ->
   forall sbid, sb_buf cur = Some sbid ->
   exists c',
     check_and_handle_underfull P E cur key c
       = Ok (mk_cursor (Some survivor) (Some l) None, c')
     /\ l ∈ deleted c'
     /\ root_block c' = survivor
     /\ pm_btree_depth c' = pm_btree_depth c - 1
     /\ blocks c' = bl
     /\ trace c' = EvReleaseSb 32 :: EvInsertRoot survivor
                     :: EvUnderfullCheck b :: trace c)
  /\ (internal_is_singleton P pn = false ->
      exists c',
        check_and_handle_underfull P E cur key c
          = Ok (mk_cursor (Some survivor) (Some l) (sb_buf cur), c')
        /\ blocks c' = <[ l := internal_remove P (block_size E) pn
                                 key_to_remove ]> bl
        /\ root_block c' = root_block c
        /\ pm_btree_depth c' = pm_btree_depth c
        /\ deleted c' = {[ dead ]} ∪ deleted c
        /\ trace c' = EvUnderfullCheck b :: trace c).
Proof.
  intros Hb Hn Hl Hu Hpn Hsib Hheld Hsn Hval Hm Hout.
  assert (Hstep : forall (Q : cursor -> cache node -> Prop),
    (internal_is_singleton P pn = true ->
     forall sbid, sb_buf cur = Some sbid ->
       Q (mk_cursor (Some survivor) (Some l) None)
         (merge_cache c bl dead b l s (Some (sbid, survivor)))) ->
    (internal_is_singleton P pn = false ->
       Q (mk_cursor (Some survivor) (Some l) (sb_buf cur))
         (merge_cache c
            (<[ l := internal_remove P (block_size E) pn key_to_remove ]> bl)
            dead b l s None)) ->
    (internal_is_singleton P pn = true -> is_Some (sb_buf cur)) ->
    wp (check_and_handle_underfull P E cur key) Q (fun _ => False) c).
  { intros Q Hs Hns Hsome. unfold check_and_handle_underfull.
    rewrite Hb. wp_steps. rewrite Hn. wp_steps. rewrite Hl, Hu.
    cbn [is_acquired andb]. wp_steps. rewrite Hpn, Hsib. wp_steps.
    apply wp_acquire.
    { intros Hin. apply Hheld. rewrite Hb, Hl. exact Hin. }
    { cbn [blocks]. intros _ Hnone. congruence. }
    intros _ _. wp_steps. rewrite Hsn. wp_steps.
    apply wp_rassert.
    { intros Hd Hv. rewrite (Hval Hd) in Hv. discriminate. }
    intros _. wp_beta. rewrite Hm. unfold merge_outcome in Hout. wp_step.
    destruct (cmp <? 0).
    - destruct (node_merge P (block_size E) n sn pn) as [[n' sib'] k0].
      injection Hout as <- <- <- <-. wp_steps.
      destruct (internal_is_singleton P pn); cbn [negb]; wp_steps.
      + destruct (Hsome eq_refl) as [sbid Hsbid]. apply wp_insert_root.
        * intros _ Hnone. congruence.
        * intros _ Hnone. congruence.
        * intros sbid' Hsb'. wp_steps. apply (Hs eq_refl sbid' Hsb').
      + apply Hns. reflexivity.
    - destruct (node_merge P (block_size E) sn n pn) as [[sib' n'] k0].
      injection Hout as <- <- <- <-. wp_steps.
      destruct (internal_is_singleton P pn); cbn [negb]; wp_steps.
      + destruct (Hsome eq_refl) as [sbid Hsbid]. apply wp_insert_root.
        * intros _ Hnone. congruence.
        * intros _ Hnone. congruence.
        * intros sbid' Hsb'. wp_steps. apply (Hs eq_refl sbid' Hsb').
      + apply Hns. reflexivity. }
  split.
  - intros Hs sbid Hsbid.
    destruct (wp_total (check_and_handle_underfull P E cur key)
                (fun cur' c' => cur' = mk_cursor (Some survivor) (Some l) None
                   /\ c' = merge_cache c bl dead b l s (Some (sbid, survivor))) c)
      as (cur' & c' & Hrun & -> & ->).
    { apply Hstep.
      - intros _ sbid' Hsb'. assert (sbid' = sbid) as -> by congruence. auto.
      - congruence.
      - eauto. }
    eexists. split; [exact Hrun|]. cbn.
    repeat split; try lia.
    apply elem_of_union_l, elem_of_singleton. reflexivity.
  - intros Hns.
    destruct (wp_total (check_and_handle_underfull P E cur key)
                (fun cur' c' =>
                   cur' = mk_cursor (Some survivor) (Some l) (sb_buf cur)
                   /\ c' = merge_cache c
                       (<[ l := internal_remove P (block_size E) pn
                                 key_to_remove ]> bl) dead b l s None) c)
      as (cur' & c' & Hrun & -> & ->).
    { apply Hstep; [congruence|auto|congruence]. }
    eexists. split; [exact Hrun|]. cbn. repeat split.
Qed.

Lemma wp_eq {A} (m : M node A) Q F (c : cache node) a c1 :
  m c = Ok (a, c1) -> Q a c1 -> wp m Q F c.
Proof. unfold wp. intros ->. exact (fun H => H). Qed.

Lemma rassert_pass line cond (c : cache node) :
  debug E = false \/ cond = true -> rassert E line cond c = Ok (tt, c).
Proof.
  unfold rassert. intros [->| ->]; [reflexivity|].
  rewrite andb_false_r. reflexivity.
Qed.

Lemma load_old_large_ok oper old (c : cache node) :
  debug E = false \/ handle_loaded (old_large_of oper old) = true ->
  load_old_large E oper old c = Ok (old_large_of oper old, c).
Proof.
  intros H. unfold load_old_large, old_large_of in *.
  destruct old as [ov|]; [|reflexivity].
  destruct (v_lb_ref ov) as [ref|]; [|reflexivity].
  unfold bind. rewrite rassert_pass by exact H. reflexivity.
Qed.

(** When the key is absent or present and not expired and the operator
    answers update_needed = false, the leaf phase changes nothing: no leaf
    insert or remove, no underfull handling, no block dirtied or deleted,
    the old large value is not marked deleted; it only drops the locks and
    reports update_needed = false. *)
Lemma refused_at_leaf oper cur key (c : cache node) b leaf :
  buf cur = Some b ->
  blocks c !! b = Some leaf ->
  let old := leaf_lookup P leaf key in
  let old_large := old_large_of oper old in
  let r := operate oper old old_large in
  match old with Some ov => value_expired P ov = false | None => True end ->
  (debug E = false \/ handle_loaded old_large = true) ->
  update_needed r = false ->
  (debug E = false \/ new_large_buflock r = None) ->
  at_leaf P E oper cur key c
    = Ok ((cur, false),
          set_trace c
            ((if is_acquired (sb_buf cur) then [EvReleaseSb 301] else [])
             ++ EvOperate old old_large :: trace c)).
Proof.
  intros Hb Hn old old_large r Hexp Hload Hupd Hnew.
  destruct (wp_total (at_leaf P E oper cur key)
     (fun res c' => res = (cur, false)
        /\ c' = set_trace c
            ((if is_acquired (sb_buf cur) then [EvReleaseSb 301] else [])
             ++ EvOperate old old_large :: trace c)) c)
    as (res & c' & Hrun & -> & ->); [|exact Hrun].
  unfold at_leaf. rewrite Hb. wp_steps. rewrite Hn. wp_steps.
  eapply wp_eq; [apply load_old_large_ok; exact Hload|]. wp_beta.
  fold old. fold old_large.
  assert (Hkf : (if bool_decide (is_Some old)
                       && match old with
                          | Some ov => value_expired P ov
                          | None => false
                          end
                 then false else bool_decide (is_Some old))
                = bool_decide (is_Some old)
                /\ bool_decide (is_Some old)
                   && match old with
                      | Some ov => value_expired P ov
                      | None => false
                      end = false).
  { destruct old as [ov|]; [rewrite Hexp|]; rewrite ?andb_false_r; auto. }
  destruct Hkf as [Hkf Hex]. rewrite Hkf, Hex.
  assert (Harg : (if bool_decide (is_Some old) then old else None) = old).
  { destruct old; [rewrite bool_decide_eq_true_2; eauto|reflexivity]. }
  rewrite Harg. fold r. rewrite andb_false_r. wp_steps.
  unfold check_consistent. rewrite Hupd. cbn [negb]. wp_steps.
  apply wp_rassert.
  { intros Hd Hf. destruct Hnew as [Hnew|Hnew]; [congruence|].
    rewrite Hnew in Hf. discriminate. }
  intros _. wp_steps. unfold release_bufs. wp_step.
  destruct (is_acquired (sb_buf cur)); wp_steps;
    (apply wp_rassert; [rewrite Hb; discriminate|intros _]);
    rewrite Hb; wp_steps; split; reflexivity.
Qed.

Lemma wp_equals {A} (m : M node A) (c : cache node) X :
  wp m (fun a c' => X = Ok (a, c')) (fun e => X = Fail e) c -> m c = X.
Proof.
  unfold wp. destruct (m c) as [[a c']|e]; intros ->; reflexivity.
Qed.

Lemma wp_unbind {A B} (m : M node A) (f : A -> M node B) Q F (c : cache node) :
  wp (bind m f) Q F c -> wp m (fun a c' => wp (f a) Q F c') F c.
Proof.
  unfold wp, bind. destruct (m c) as [[a c']|e]; exact (fun H => H).
Qed.

Lemma wp_self {A} (m : M node A) (c : cache node) :
  wp m (fun a c' => m c = Ok (a, c')) (fun e => m c = Fail e) c.
Proof.
  unfold wp. destruct (m c) as [[a c']|e]; reflexivity.
Qed.

(** C3: when the key is found but its value is expired, the operator is
    shown no old value; if it then answers update_needed = false the walk
    turns that into a deletion: the key is removed from the leaf, and the
    walk goes on as after any other change (underfull check, release,
    retiring the old large value).  On a root leaf this ends normally. *)
Theorem expired_key_silently_deleted oper cur key (c : cache node) b leaf ov :
  buf cur = Some b ->
  blocks c !! b = Some leaf ->
  leaf_lookup P leaf key = Some ov ->
  value_expired P ov = true ->
  let old_large := old_large_of oper (Some ov) in
  let r := operate oper None old_large in
  (debug E = false \/ handle_loaded old_large = true) ->
  update_needed r = false ->
  (debug E = false \/ new_large_buflock r = None) ->
  let c1 :=
    mk_cache (<[ b := leaf_remove P (block_size E) leaf key ]> (blocks c))
      (deleted c) ({[ b ]} ∪ dirty c) (root_block c) (pm_btree_depth c)
      (cas_counter c) (last_cas c) (large_deleted c)
      (EvLeafRemove b key :: EvOperate None old_large :: trace c) in
  at_leaf P E oper cur key c
    = finish_leaf P E cur key (Some ov) (old_large_buflock_after r)
        (new_large_buflock r) c1
  /\ (last_buf cur = None -> old_large_buflock_after r = None ->
      at_leaf P E oper cur key c
        = Ok ((cur, true),
              set_trace c1
                ((if is_acquired (sb_buf cur) then [EvReleaseSb 301] else [])
                 ++ EvUnderfullCheck b :: trace c1))).
Proof.
  intros Hb Hn Hlook Hexp old_large r Hload Hupd Hnew c1.
  assert (Hmain : at_leaf P E oper cur key c
    = finish_leaf P E cur key (Some ov) (old_large_buflock_after r)
        (new_large_buflock r) c1).
  { apply wp_equals.
    unfold at_leaf. rewrite Hb. wp_steps. rewrite Hn. wp_steps.
    rewrite Hlook.
    eapply wp_eq; [apply load_old_large_ok; exact Hload|]. wp_beta.
    fold old_large. rewrite Hexp.
    rewrite bool_decide_eq_true_2 by eauto. cbn [andb]. fold r.
    rewrite Hupd. cbn [negb andb]. wp_steps.
    unfold check_consistent. rewrite Hupd. cbn [negb]. wp_steps.
    apply wp_rassert.
    { intros Hd Hf. destruct Hnew as [Hnew|Hnew]; [congruence|].
      rewrite Hnew in Hf. discriminate. }
    intros _. wp_beta. wp_step. wp_step.
    unfold update_leaf. cbn [orb]. rewrite Hb. wp_steps. rewrite Hn.
    wp_steps. apply wp_unbind.
    exact (wp_self (finish_leaf P E cur key (Some ov)
                      (old_large_buflock_after r) (new_large_buflock r)) c1). }
  split; [exact Hmain|].
  intros Hl Hafter. rewrite Hmain.
  destruct (wp_total (finish_leaf P E cur key (Some ov)
                        (old_large_buflock_after r) (new_large_buflock r))
     (fun res c' => res = (cur, true)
        /\ c' = set_trace c1
            ((if is_acquired (sb_buf cur) then [EvReleaseSb 301] else [])
             ++ EvUnderfullCheck b :: trace c1)) c1)
    as (res & c' & Hrun & -> & ->); [|exact Hrun].
  unfold finish_leaf, check_and_handle_underfull. rewrite Hb. wp_steps.
  subst c1. wp_beta. rewrite lookup_insert_eq. wp_steps.
  rewrite Hl. cbn [is_acquired andb]. wp_steps.
  unfold release_bufs. wp_step.
  destruct (is_acquired (sb_buf cur)); wp_steps;
    (apply wp_rassert; [rewrite Hb; discriminate|intros _]);
    rewrite Hb; wp_steps; unfold release_large; rewrite Hafter; wp_steps;
    split; reflexivity.
Qed.

Lemma split_logs_check cur key nv (c : cache node) cur1 c1 :
  check_and_handle_split P E cur key nv c = Ok (cur1, c1) ->
  exists b0, buf cur = Some b0 /\ In (EvSplitCheck b0) (trace c1).
Proof.
  intros Hrun.
  refine (wp_ok _ (fun _ c1 => exists b0, buf cur = Some b0
                                /\ In (EvSplitCheck b0) (trace c1))
            (fun _ => True) _ _ _ Hrun _).
  apply wp_split; [trivial|].
  intros b0 n full Hb0 _ _. split.
  - intros _. exists b0. split; [exact Hb0|]. cbn. auto.
  - intros _ r lnode rsib median _ _ _ _ _. split.
    + intros l pn success pn' _ _ _. split; [trivial|]. intros _.
      exists b0. split; [exact Hb0|]. cbn. auto.
    + intros _. split; [auto|].
      intros sbid l success pn' _ _ _ _ _ _ _. split; [trivial|]. intros _.
      exists b0. split; [exact Hb0|]. cbn. auto 6.
Qed.

(** C4: on the insert path the engine draws a CAS from gen_cas exactly when
    the new value has the has_cas flag and the operator's cas_already_set
    is false, and otherwise leaves the value as the operator returned it.
    The draw comes after the leaf's split check and before leaf::insert, so
    the value that is stored carries the CAS generated last. *)
Theorem cas_assigned_lazily oper cur key key_found expired v
    (c : cache node) cur1 c1 b n n' :
  check_and_handle_split P E cur key (Some v) c = Ok (cur1, c1) ->
  buf cur1 = Some b ->
  blocks c1 !! b = Some n ->
  let assign := v_has_cas v && negb (cas_already_set oper) in
  let cas := fst (gen_cas P (cas_counter c1)) in
  let v' := if assign then set_cas v cas else v in
  leaf_insert P (block_size E) n key v' (current_time E) = (true, n') ->
  exists c2,
    update_leaf P E oper cur key key_found expired (Some v) c = Ok (cur1, c2)
    /\ blocks c2 = <[ b := n' ]> (blocks c1)
    /\ (exists b0, buf cur = Some b0 /\ In (EvSplitCheck b0) (trace c1))
    /\ (assign = true ->
        v_cas v' = cas /\ last_cas c2 = Some cas
        /\ cas_counter c2 = snd (gen_cas P (cas_counter c1))
        /\ trace c2 = EvLeafInsert b key v' :: EvGenCas cas :: trace c1)
    /\ (assign = false ->
        v' = v /\ last_cas c2 = last_cas c1
        /\ cas_counter c2 = cas_counter c1
        /\ trace c2 = EvLeafInsert b key v :: trace c1).
Proof.
  intros Hsplit Hb Hn assign cas v' Hins.
  pose proof (split_logs_check _ _ _ _ _ _ Hsplit) as Hlog.
  destruct (wp_total (update_leaf P E oper cur key key_found expired (Some v))
     (fun res c2 => res = cur1
        /\ blocks c2 = <[ b := n' ]> (blocks c1)
        /\ (assign = true ->
            v_cas v' = cas /\ last_cas c2 = Some cas
            /\ cas_counter c2 = snd (gen_cas P (cas_counter c1))
            /\ trace c2 = EvLeafInsert b key v' :: EvGenCas cas :: trace c1)
        /\ (assign = false ->
            v' = v /\ last_cas c2 = last_cas c1
            /\ cas_counter c2 = cas_counter c1
            /\ trace c2 = EvLeafInsert b key v :: trace c1)) c)
    as (res & c2 & Hrun & -> & H1 & H2 & H3).
  { unfold update_leaf. wp_step. eapply wp_eq; [exact Hsplit|]. wp_beta.
    wp_step. unfold add_cas. fold assign. subst v' cas.
    destruct assign.
    - unfold wp at 1.
      destruct (gen_cas P (cas_counter c1)) as [cas next] eqn:Hgen.
      cbn [fst snd] in *. wp_beta. rewrite Hb. wp_steps. rewrite Hn.
      wp_steps. rewrite Hins. wp_steps.
      apply wp_guarantee; [discriminate|intros _]. wp_steps.
      repeat split; try discriminate; auto.
    - wp_steps. rewrite Hb. wp_steps. rewrite Hn. wp_steps. rewrite Hins.
      wp_steps. apply wp_guarantee; [discriminate|intros _]. wp_steps.
      repeat split; try discriminate; auto. }
  exists c2. auto 10.
Qed.

(** How check_and_handle_split moves the locks. *)
Lemma split_locks cur key nv (c : cache node) cur1 c1 :
  check_and_handle_split P E cur key nv c = Ok (cur1, c1) ->
  exists b n full evs,
    buf cur = Some b /\ blocks c !! b = Some n
    /\ split_decision P E n key nv full
    /\ trace c1 = evs ++ trace c
    /\ is_acquired (buf cur1) = true
    /\ (full = false -> cur1 = cur /\ sb_releases evs = [])
    /\ (full = true -> is_acquired (last_buf cur) = true ->
        last_buf cur1 = last_buf cur /\ sb_buf cur1 = sb_buf cur
        /\ sb_releases evs = [])
    /\ (full = true -> last_buf cur = None ->
        is_acquired (sb_buf cur) = true /\ sb_buf cur1 = None
        /\ is_acquired (last_buf cur1) = true
        /\ sb_releases evs = [32%nat]).
Proof.
  intros Hrun.
  refine (wp_ok _ (fun cur1 c1 => _) (fun _ => True) _ _ _ Hrun _).
  apply wp_split; [trivial|].
  intros b n full Hb Hn Hdec. split.
  - intros ->. exists b, n, false, [EvSplitCheck b]. cbn. rewrite Hb.
    repeat split; auto; discriminate.
  - intros -> r lnode rsib median _ _ _ _ _. split.
    + intros l pn success pn' Hl _ _. split; [trivial|]. intros _.
      exists b, n, true,
        [EvInternalInsert l (internal_is_full P pn) success; EvSplitCheck b].
      cbn. unfold redirect. rewrite Hl.
      repeat split; auto; try discriminate.
      destruct (0 >=? sized_strcmp key median); reflexivity.
    + intros Hl. split; [auto|].
      intros sbid l success pn' Hsb _ _ _ _ _ _. split; [trivial|]. intros _.
      exists b, n, true,
        [EvInternalInsert l
           (internal_is_full P (internal_init P (block_size E))) success;
         EvReleaseSb 32; EvInsertRoot l; EvSplitCheck b].
      cbn. unfold redirect. rewrite Hl, Hsb.
      repeat split; auto; try discriminate.
      destruct (0 >=? sized_strcmp key median); reflexivity.
Qed.

(** How check_and_handle_underfull moves the locks. *)
Lemma underfull_locks cur key (c : cache node) cur1 c1 :
  check_and_handle_underfull P E cur key c = Ok (cur1, c1) ->
  exists evs,
    trace c1 = evs ++ trace c
    /\ is_acquired (buf cur) = true
    /\ is_acquired (buf cur1) = true
    /\ last_buf cur1 = last_buf cur
    /\ ((sb_buf cur1 = sb_buf cur /\ sb_releases evs = [])
        \/ (is_acquired (last_buf cur) = true
            /\ is_acquired (sb_buf cur) = true /\ sb_buf cur1 = None
            /\ sb_releases evs = [32%nat])).
Proof.
  intros Hrun.
  refine (wp_ok _ (fun cur1 c1 => _) (fun _ => True) _ _ _ Hrun _).
  apply wp_underfull; [trivial|].
  intros b n Hb Hn. split.
  - intros _. exists [EvUnderfullCheck b]. cbn. rewrite Hb. auto 10.
  - intros l pn cmp s sn Hl _ _ _ _ _ _. split.
    + intros _. exists [EvUnderfullCheck b]. cbn. rewrite Hb. auto 10.
    + intros _ survivor dead bl k _. split.
      * intros _. exists [EvUnderfullCheck b]. cbn. rewrite Hb, Hl. auto 10.
      * intros _. split; [auto|]. intros sbid Hsb.
        exists [EvReleaseSb 32; EvInsertRoot survivor; EvUnderfullCheck b].
        cbn. rewrite Hb, Hl, Hsb. cbn. auto 10.
Qed.

Lemma bind_ok_inv {A B} (m : M node A) (f : A -> M node B)
    (c : cache node) r :
  bind m f c = Ok r -> exists a c1, m c = Ok (a, c1) /\ f a c1 = Ok r.
Proof.
  unfold bind. destruct (m c) as [[a c1]|e]; [eauto|discriminate].
Qed.

Lemma release_sb_locks cur (c : cache node) cur1 c1 :
  release_sb_past_root cur c = Ok (cur1, c1) ->
  buf cur1 = buf cur /\ last_buf cur1 = last_buf cur
  /\ blocks c1 = blocks c
  /\ ((is_acquired (sb_buf cur) && is_acquired (last_buf cur) = true
       /\ sb_buf cur1 = None /\ trace c1 = EvReleaseSb 201 :: trace c)
      \/ (is_acquired (sb_buf cur) && is_acquired (last_buf cur) = false
          /\ sb_buf cur1 = sb_buf cur /\ trace c1 = trace c)).
Proof.
  unfold release_sb_past_root.
  destruct (is_acquired (sb_buf cur) && is_acquired (last_buf cur));
    intros [= <- <-]; cbn; auto 10.
Qed.

Lemma descend_to_child_locks cur key (c : cache node) cur1 c1 :
  descend_to_child P E cur key c = Ok (cur1, c1) ->
  c1 = c /\ last_buf cur1 = buf cur /\ sb_buf cur1 = sb_buf cur
  /\ is_acquired (buf cur) = true
  /\ exists b n child,
       buf cur = Some b /\ blocks c !! b = Some n
       /\ child = internal_lookup P n key
       /\ buf cur1 = Some child
       /\ (child ∉ held_ids [buf cur; last_buf cur; sb_buf cur])
       /\ is_Some (blocks c !! child).
Proof.
  intros Hrun.
  refine (wp_ok _ (fun cur1 c1 => _) (fun _ => True) _ _ _ Hrun _).
  unfold descend_to_child.
  destruct (buf cur) as [b|] eqn:Hb; wp_steps; [|trivial].
  destruct (blocks c !! b) as [n|] eqn:Hn; [|trivial]. wp_steps.
  apply wp_rassert; [trivial|intros _]. wp_steps.
  apply wp_acquire; [trivial|trivial|]. intros Hheld Hsome. wp_steps.
  repeat split; auto. exists b, n, (internal_lookup P n key). auto 10.
Qed.

(** C7 (as amended): in the descent loop sb_buf is never re-acquired and
    every iteration ends with last_buf acquired.  An iteration entered at
    the root (last_buf unacquired) keeps sb_buf exactly when it does not
    split the root: a root split installs the new root with insert_root,
    which releases sb_buf at line 32.  An iteration entered with last_buf
    acquired always ends with sb_buf released, by lines 200-202 or, when a
    merge collapsed the root, by insert_root. *)
Theorem sb_release_timing cur key (c : cache node) cur' c' :
  descend_step P E cur key c = Ok (cur', c') ->
  exists b n evs,
    buf cur = Some b /\ blocks c !! b = Some n
    /\ trace c' = evs ++ trace c
    /\ is_acquired (last_buf cur') = true
    /\ (is_acquired (sb_buf cur) = false ->
        sb_buf cur' = None /\ sb_releases evs = [])
    /\ (is_acquired (sb_buf cur) = true -> last_buf cur = None ->
        internal_is_full P n = false ->
        sb_buf cur' = sb_buf cur /\ sb_releases evs = [])
    /\ (is_acquired (sb_buf cur) = true -> last_buf cur = None ->
        internal_is_full P n = true ->
        sb_buf cur' = None /\ sb_releases evs = [32%nat])
    /\ (is_acquired (sb_buf cur) = true ->
        is_acquired (last_buf cur) = true ->
        sb_buf cur' = None
        /\ (sb_releases evs = [201%nat] \/ sb_releases evs = [32%nat])).
Proof.
  unfold descend_step. intros Hrun.
  apply bind_ok_inv in Hrun as (cur1 & c1 & Hsplit & Hrun).
  apply bind_ok_inv in Hrun as (cur2 & c2 & Hunder & Hrun).
  apply bind_ok_inv in Hrun as (cur3 & c3 & Hrel & Hchild).
  apply split_locks in Hsplit
    as (b & n & full & evs1 & Hb & Hn & Hdec & Ht1 & Hb1 & Hno & Hold & Hnew).
  apply underfull_locks in Hunder as (evs2 & Ht2 & _ & Hb2 & Hl2 & Hsb2).
  apply release_sb_locks in Hrel as (Hb3 & Hl3 & _ & Hsb3).
  apply descend_to_child_locks in Hchild as (-> & Hl' & Hsb' & Hacq & _).
  assert (Hfull : full = internal_is_full P n).
  { destruct Hdec as [(_ & v & Hv & _)|(_ & -> & _)]; [discriminate|reflexivity]. }
  assert (Happ : forall e1 e2, sb_releases (e1 ++ e2)
                               = sb_releases e1 ++ sb_releases e2).
  { intros e1 e2. induction e1 as [|[] e1 IH]; cbn; congruence. }
  exists b, n.
  assert (Hlast : is_acquired (last_buf cur') = true).
  { rewrite Hl', Hb3. exact Hb2. }
  rewrite Hsb'. clear Hl' Hsb' Hacq Hb3 Hb1 Hb2 Hdec.
  rewrite Hl2 in Hl3.
  destruct Hsb3 as [(Hboth & Hs3 & Ht3)|(Hboth & Hs3 & Ht3)];
    rewrite Hl2 in Hboth; clear Hl2;
    [exists (EvReleaseSb 201 :: evs2 ++ evs1)|exists (evs2 ++ evs1)];
    rewrite Ht3, Ht2, Ht1;
    (split; [exact Hb|]); (split; [exact Hn|]);
    (split; [cbn [app]; rewrite <- ?app_assoc; reflexivity|]);
    (split; [exact Hlast|]);
    cbn [sb_releases]; rewrite Happ, Hs3; clear Ht1 Ht2 Ht3 Hs3 Hlast Happ;
    rewrite <- Hfull; clear Hfull.
  all: destruct full;
    [clear Hno; destruct (last_buf cur) as [l|] eqn:Hl;
       [clear Hnew; destruct (Hold eq_refl eq_refl) as (Hl1 & Hs1 & Hr1)
       |clear Hold; destruct (Hnew eq_refl eq_refl) as (Hs & Hs1 & Hl1 & Hr1)]
    |clear Hold Hnew; destruct (Hno eq_refl) as [-> Hr1]];
    rewrite Hr1; clear Hr1.
  all: destruct Hsb2 as [(Hs2 & Hr2)|(Hl1a & Hs1a & Hs2 & Hr2)];
    rewrite Hr2; clear Hr2; cbn [app].
  all: try rewrite Hs2 in *; try rewrite Hs1 in *; try rewrite Hl1 in *;
    try rewrite Hl in *; cbn [is_acquired andb] in *;
    try discriminate.
  all: try (destruct (sb_buf cur) eqn:Hsb; cbn [is_acquired andb] in *;
            try discriminate).
  all: try (destruct (last_buf cur1) eqn:Hlb1; cbn [is_acquired andb] in *;
            try discriminate).
  all: try (destruct (last_buf cur) eqn:Hlb; cbn [is_acquired andb] in *;
            try discriminate).
  all: repeat split; intros; try discriminate; try congruence; auto.
Qed.

Lemma wp_insert_root_ok {A} (m : M node A) (c : cache node) :
  wp m (fun _ _ => True)
    (fun e => e <> AssertFailed 29 /\ e <> NotAcquired 30) c ->
  insert_root_ok (m c).
Proof.
  unfold wp, insert_root_ok. destruct (m c) as [[a c']|e].
  - intros _. split; discriminate.
  - intros [H1 H2]. split; congruence.
Qed.

Lemma boring_not_insert_root e :
  boring e -> e <> AssertFailed 29 /\ e <> NotAcquired 30.
Proof.
  intros Hb. split; intros ->; exact Hb.
Qed.

Lemma split_insert_root_ok cur key nv (c : cache node)
    (Q : cursor -> cache node -> Prop) :
  is_acquired (sb_buf cur) = true ->
  (forall cur1 c1,
     check_and_handle_split P E cur key nv c = Ok (cur1, c1) -> Q cur1 c1) ->
  wp (check_and_handle_split P E cur key nv) Q
    (fun e => e <> AssertFailed 29 /\ e <> NotAcquired 30) c.
Proof.
  intros Hsb HQ.
  assert (H : wp (check_and_handle_split P E cur key nv) (fun _ _ => True)
                (fun e => e <> AssertFailed 29 /\ e <> NotAcquired 30) c).
  { apply wp_split; [apply boring_not_insert_root|].
    intros b n full _ _ _. split; [auto|].
    intros _ r lnode rsib median _ _ _ _ _. split.
    - intros l pn success pn' _ _ _. split; [split; discriminate|auto].
    - intros _. split.
      + intros Hnone. rewrite Hnone in Hsb. discriminate.
      + intros sbid l success pn' _ _ _ _ _ _ _.
        split; [split; discriminate|auto]. }
  unfold wp in *.
  destruct (check_and_handle_split P E cur key nv c) as [[cur1 c1]|e]; auto.
Qed.

Lemma underfull_insert_root_ok cur key (c : cache node)
    (Q : cursor -> cache node -> Prop) :
  is_acquired (sb_buf cur) = true \/ last_buf cur = None ->
  (forall cur1 c1,
     check_and_handle_underfull P E cur key c = Ok (cur1, c1) -> Q cur1 c1) ->
  wp (check_and_handle_underfull P E cur key) Q
    (fun e => e <> AssertFailed 29 /\ e <> NotAcquired 30) c.
Proof.
  intros Hsb HQ.
  assert (H : wp (check_and_handle_underfull P E cur key) (fun _ _ => True)
                (fun e => e <> AssertFailed 29 /\ e <> NotAcquired 30) c).
  { apply wp_underfull; [apply boring_not_insert_root|].
    intros b n _ _. split; [auto|].
    intros l pn cmp s sn Hl _ _ _ _ _ _. split; [auto|].
    intros _ survivor dead bl k _. split; [auto|]. intros _. split; [|auto].
    intros Hnone. destruct Hsb as [Hsb|Hsb]; [|congruence].
    rewrite Hnone in Hsb. discriminate. }
  unfold wp in *.
  destruct (check_and_handle_underfull P E cur key c) as [[cur1 c1]|e]; auto.
Qed.

Lemma load_old_large_res oper old F (c : cache node) :
  (forall e, boring e -> F e) ->
  wp (load_old_large E oper old)
    (fun l c' => l = old_large_of oper old /\ c' = c) F c.
Proof.
  intros HF. unfold load_old_large, old_large_of.
  destruct old as [ov|]; [|wp_steps; auto].
  destruct (v_lb_ref ov) as [ref|]; [|wp_steps; auto].
  wp_step. apply wp_rassert; [intros; apply HF; exact I|intros _].
  wp_steps. auto.
Qed.

Lemma wp_check_consistent r (Q : unit -> cache node -> Prop) F
    (c : cache node) :
  (forall e, boring e -> F e) -> Q tt c -> wp (check_consistent E r) Q F c.
Proof.
  intros HF HQ. unfold check_consistent. wp_step.
  destruct (update_needed r); cbn [negb].
  - destruct (new_value r) as [v|]; [destruct (v_lb_ref v)|];
      (apply wp_rassert; [intros; apply HF; exact I|intros _]);
      wp_steps; exact HQ.
  - wp_steps. apply wp_rassert; [intros; apply HF; exact I|intros _].
    exact HQ.
Qed.

Lemma wp_trivial {A} (m : M node A) (c : cache node) :
  wp m (fun _ _ => True) (fun _ => True) c.
Proof. unfold wp. destruct (m c) as [[a c']|e]; exact I. Qed.

(** With the rasserts compiled in, a walk whose operator swaps one large
    value for another, each with its own handle, never gets to commit:
    line 245 wants the new handle present, line 309 wants it absent. *)
Lemma large_swap_never_commits oper cur key (c : cache node) b leaf ov ref
    nv nref lv nlv :
  debug E = true ->
  buf cur = Some b ->
  blocks c !! b = Some leaf ->
  leaf_lookup P leaf key = Some ov ->
  v_lb_ref ov = Some ref ->
  value_expired P ov = false ->
  let r := operate oper (Some ov) (old_large_of oper (Some ov)) in
  update_needed r = true ->
  new_value r = Some nv ->
  v_lb_ref nv = Some nref ->
  new_large_buflock r = Some nlv ->
  old_large_buflock_after r = Some lv ->
  forall out, at_leaf P E oper cur key c <> Ok out.
Proof.
  intros Hd Hb Hn Hlook Hov Hexp r Hupd Hnv Hnref Hnl Hol out Hrun.
  destruct out as [res c'].
  refine (wp_ok _ (fun _ _ => False) (fun _ => True) _ _ _ Hrun _).
  unfold at_leaf. rewrite Hb. wp_steps. rewrite Hn. wp_steps. rewrite Hlook.
  eapply wp_mono;
    [apply (load_old_large_res _ _ (fun _ => True)); trivial| |auto].
  intros old_large c1 [-> ->]. wp_beta.
  rewrite Hexp, bool_decide_eq_true_2 by eauto. cbn [andb]. fold r.
  wp_steps.
  eapply wp_mono; [apply wp_trivial| |auto]. intros _ c2 _. wp_beta.
  rewrite Hupd. cbn [negb andb]. wp_step.
  eapply wp_mono; [apply wp_trivial| |auto]. intros cur2 c3 _. wp_beta.
  wp_step. eapply wp_mono; [apply wp_trivial| |auto]. intros _ c4 _. wp_beta.
  wp_step. unfold release_large. rewrite Hol, Hnl. cbn [has_lv negb].
  wp_step. apply wp_rassert; [trivial|].
  intros [Hd'|Hd']; congruence.
Qed.


(** *** The parent always has room *)

Section Room.

Hypothesis contract : room_contract P (block_size E).
Hypothesis keeps : no_refill P (block_size E).

Lemma boring_not_75 e : boring e -> not_line_75 e.
Proof. intros Hb ->. exact Hb. Qed.

Lemma split_keeps_room cur key nv (c : cache node) :
  inserts_ok c ->
  parent_has_room P cur (blocks c) ->
  wp (check_and_handle_split P E cur key nv)
    (fun cur1 c1 => inserts_ok c1
                    /\ (nv = None -> buf_has_room P cur1 (blocks c1)))
    not_line_75 c.
Proof.
  intros Hgood Hinv. apply wp_split; [apply boring_not_75|].
  intros b n full Hb Hn Hdec. split.
  - intros ->. split.
    + unfold inserts_ok. cbn. constructor; [exact I|exact Hgood].
    + intros ->. destruct Hdec as [(_ & v & Hv & _)|(_ & Hf & _)];
        [discriminate|].
      exists b, n. cbn. repeat split; auto.
      intros Hl. destruct (Hinv b Hl) as [Hne _]. congruence.
  - intros -> r lnode rsib median Hr Hheld _ _ Hsplit.
    assert (Hrb : r <> b).
    { intros ->. apply Hheld, held_ids_spec. left. exact Hb. }
    assert (Hhalves : nv = None ->
              internal_is_full P lnode = false
              /\ internal_is_full P rsib = false).
    { intros ->. destruct Hdec as [(_ & v & Hv & _)|(Hleaf & Hf & _)];
        [discriminate|].
      eapply (split_makes_room _ _ contract); eauto. }
    assert (Hpost : forall l pn' nr wf success,
              l <> b -> l <> r -> wf = false -> success = true ->
              let cur1 := mk_cursor (redirect key median b r) (Some l)
                            (match nr with
                             | Some _ => None
                             | None => sb_buf cur
                             end) in
              let c1 := split_cache c b r l lnode rsib pn' nr wf success in
              inserts_ok c1 /\ (nv = None -> buf_has_room P cur1 (blocks c1))).
    { intros l pn' nr wf success Hlb Hlr -> ->. split.
      - unfold inserts_ok.
        destruct nr; cbn; repeat constructor; auto.
      - intros Hnv. destruct (Hhalves Hnv) as [Hl' Hr'].
        unfold buf_has_room, redirect. cbn [buf last_buf].
        destruct (0 >=? sized_strcmp key median).
        + exists b, lnode. repeat split; auto; [|congruence].
          destruct nr; cbn [split_cache blocks];
            rewrite !lookup_insert_ne by congruence; apply lookup_insert_eq.
        + exists r, rsib. repeat split; auto; [|congruence].
          destruct nr; cbn [split_cache blocks];
            rewrite lookup_insert_ne by congruence; apply lookup_insert_eq. }
    split.
    + intros l pn success pn' Hl Hpn Hins.
      destruct (Hinv l Hl) as [Hne (pn0 & Hpn0 & Hroom)].
      assert (Hlb : l <> b) by congruence.
      assert (Hlr : l <> r).
      { intros ->. apply Hheld, held_ids_spec. right. left. exact Hl. }
      rewrite !lookup_insert_ne in Hpn by congruence.
      assert (pn0 = pn) as -> by congruence.
      pose proof (insert_fits _ _ contract pn median b r Hroom) as Hfit.
      rewrite Hins in Hfit. cbn [fst] in Hfit. subst success.
      split; [discriminate|]. intros _. rewrite Hroom.
      apply (Hpost l pn' None false true); auto.
    + intros Hl. split; [intros _; split; discriminate|].
      intros sbid l success pn' Hsb _ Hlb Hlr _ _ Hins.
      pose proof (insert_fits _ _ contract _ median b r
                    (init_has_room _ _ contract)) as Hfit.
      rewrite Hins in Hfit. cbn [fst] in Hfit. subst success.
      split; [discriminate|]. intros _.
      rewrite (init_has_room _ _ contract).
      apply (Hpost l pn' (Some sbid) false true); auto.
Qed.

Lemma underfull_keeps_room cur key (c : cache node) :
  inserts_ok c ->
  buf_has_room P cur (blocks c) ->
  wp (check_and_handle_underfull P E cur key)
    (fun cur1 c1 => inserts_ok c1 /\ buf_has_room P cur1 (blocks c1))
    not_line_75 c.
Proof.
  intros Hgood (b0 & n0 & Hb0 & Hn0 & Hroom & Hdist).
  assert (Hlog : forall evs, Forall insert_ok evs ->
                             Forall insert_ok (evs ++ trace c)).
  { intros evs Hevs. apply Forall_app. split; [exact Hevs|exact Hgood]. }
  apply wp_underfull; [apply boring_not_75|].
  intros b n Hb Hn.
  assert (b0 = b) as -> by congruence.
  assert (n0 = n) as -> by congruence.
  split.
  - intros _. split.
    + apply (Hlog [EvUnderfullCheck b]). repeat constructor.
    + exists b, n. cbn. auto.
  - intros l pn cmp s sn Hl Hu Hpn Hsib Hheld Hsn _.
    assert (Hsb : s <> b).
    { intros ->. apply Hheld, held_ids_spec. left. exact Hb. }
    assert (Hsl : s <> l).
    { intros ->. apply Hheld, held_ids_spec. right. left. exact Hl. }
    assert (Hlb : l <> b) by congruence.
    split.
    + intros Hm. split.
      * apply (Hlog [EvUnderfullCheck b]). repeat constructor.
      * pose proof (level_keeps_room _ _ keeps n sn pn Hroom Hu Hm) as Hlev.
        unfold level_outcome. cbn [level_cache blocks].
        destruct (node_level P (block_size E) n sn pn)
          as [[[[n' sib'] k1] k2] leveled].
        cbn [fst] in Hlev. exists b, n'. repeat split; auto.
        destruct leveled; rewrite !lookup_insert_ne by congruence;
          apply lookup_insert_eq.
    + intros Hm survivor dead bl k Hout.
      destruct (merge_keeps_room _ _ keeps n sn pn Hroom Hu Hm)
        as [Hleft Hright].
      assert (Hsurv : exists m, bl !! survivor = Some m
                                /\ internal_is_full P m = false
                                /\ survivor <> l).
      { unfold merge_outcome in Hout. destruct (cmp <? 0).
        - destruct (node_merge P (block_size E) n sn pn) as [[n' sib'] k0].
          injection Hout as <- <- <- <-. cbn [fst snd] in Hleft.
          exists sib'. rewrite lookup_insert_eq. auto.
        - destruct (node_merge P (block_size E) sn n pn) as [[sib' n'] k0].
          injection Hout as <- <- <- <-. cbn [fst snd] in Hright.
          exists n'. rewrite lookup_insert_eq. auto. }
      destruct Hsurv as (m & Hm1 & Hm2 & Hm3).
      split.
      * intros _. split.
        -- apply (Hlog [EvUnderfullCheck b]). repeat constructor.
        -- exists survivor, m. cbn.
           rewrite lookup_insert_ne by congruence.
           repeat split; auto. congruence.
      * intros _. split; [intros _; split; discriminate|].
        intros sbid _. split.
        -- apply (Hlog [EvReleaseSb 32; EvInsertRoot survivor;
                         EvUnderfullCheck b]). repeat constructor.
        -- exists survivor, m. cbn. repeat split; auto. congruence.
Qed.

Lemma underfull_keeps_inserts_ok cur key (c : cache node) :
  inserts_ok c ->
  wp (check_and_handle_underfull P E cur key)
    (fun _ c1 => inserts_ok c1) not_line_75 c.
Proof.
  intros Hgood.
  assert (Hlog : forall evs, Forall insert_ok evs ->
                             Forall insert_ok (evs ++ trace c)).
  { intros evs Hevs. apply Forall_app. split; [exact Hevs|exact Hgood]. }
  apply wp_underfull; [apply boring_not_75|].
  intros b n Hb Hn. split.
  - intros _. apply (Hlog [EvUnderfullCheck b]). repeat constructor.
  - intros l pn cmp s sn _ _ _ _ _ _ _. split.
    + intros _. apply (Hlog [EvUnderfullCheck b]). repeat constructor.
    + intros _ survivor dead bl k _. split.
      * intros _. apply (Hlog [EvUnderfullCheck b]). repeat constructor.
      * intros _. split; [intros _; split; discriminate|].
        intros sbid _.
        apply (Hlog [EvReleaseSb 32; EvInsertRoot survivor;
                     EvUnderfullCheck b]). repeat constructor.
Qed.

Lemma descend_step_keeps_room cur key (c : cache node) :
  inserts_ok c ->
  parent_has_room P cur (blocks c) ->
  wp (descend_step P E cur key)
    (fun cur1 c1 => inserts_ok c1 /\ parent_has_room P cur1 (blocks c1))
    not_line_75 c.
Proof.
  intros Hgood Hinv. unfold descend_step. wp_step.
  eapply wp_mono; [apply split_keeps_room; eauto| |auto].
  intros cur1 c1 [Hgood1 Hroom1]. wp_beta. specialize (Hroom1 eq_refl).
  wp_step. eapply wp_mono; [apply underfull_keeps_room; eauto| |auto].
  intros cur2 c2 [Hgood2 (b & n & Hb & Hn & Hroom & Hdist)]. wp_beta.
  wp_step.
  assert (Hrel : wp (release_sb_past_root cur2)
            (fun cur3 c3 => inserts_ok c3 /\ buf cur3 = buf cur2
                            /\ last_buf cur3 = last_buf cur2
                            /\ blocks c3 = blocks c2) not_line_75 c2).
  { unfold release_sb_past_root.
    destruct (is_acquired (sb_buf cur2) && is_acquired (last_buf cur2));
      wp_steps; repeat split; auto.
    unfold inserts_ok. cbn. constructor; [exact I|exact Hgood2]. }
  eapply wp_mono; [exact Hrel| |auto].
  intros cur3 c3 (Hgood3 & Hb3 & Hl3 & Hbl3). wp_beta.
  unfold descend_to_child. rewrite Hb3, Hb. wp_steps. rewrite Hbl3, Hn.
  wp_steps. apply wp_rassert; [discriminate|intros _]. wp_steps.
  apply wp_acquire; [discriminate|discriminate|].
  intros Hheld _. wp_steps. split; [exact Hgood3|].
  intros l Hl. cbn [last_buf buf] in *. injection Hl as <-.
  split.
  - intros [= Heq]. apply Hheld, held_ids_spec. left. congruence.
  - exists n. rewrite Hbl3. auto.
Qed.

Lemma descend_keeps_room fuel cur key (c : cache node) :
  inserts_ok c ->
  parent_has_room P cur (blocks c) ->
  wp (descend P E fuel cur key)
    (fun cur1 c1 => inserts_ok c1 /\ parent_has_room P cur1 (blocks c1))
    not_line_75 c.
Proof.
  revert cur c. induction fuel as [|fuel IH]; intros cur c Hgood Hinv;
    cbn [descend]; wp_step.
  all: assert (Hat : wp (at_internal P cur)
                 (fun _ c1 => c1 = c) not_line_75 c)
    by (unfold at_internal; destruct (buf cur) as [b|]; wp_steps;
        [destruct (blocks c !! b); wp_steps; [reflexivity|discriminate]
        |discriminate]).
  all: eapply wp_mono; [exact Hat| |auto]; intros internal c1 ->; wp_beta.
  all: destruct internal; wp_steps; auto; try discriminate.
  eapply wp_mono; [apply descend_step_keeps_room; eauto| |auto].
  intros cur1 c1 [Hgood1 Hinv1]. wp_beta. apply IH; auto.
Qed.

Lemma update_leaf_keeps_inserts_ok oper cur key key_found expired new_val
    (c : cache node) :
  inserts_ok c ->
  parent_has_room P cur (blocks c) ->
  wp (update_leaf P E oper cur key key_found expired new_val)
    (fun _ c1 => inserts_ok c1) not_line_75 c.
Proof.
  intros Hgood Hinv. unfold update_leaf.
  destruct new_val as [v|].
  - wp_step. eapply wp_mono; [apply split_keeps_room; eauto| |auto].
    intros cur1 c1 [Hgood1 _]. wp_beta. wp_step.
    assert (Hcas : wp (add_cas P oper v) (fun _ c2 => inserts_ok c2)
                     not_line_75 c1).
    { unfold add_cas.
      destruct (v_has_cas v && negb (cas_already_set oper));
        [|wp_steps; exact Hgood1].
      unfold wp. destruct (gen_cas P (cas_counter c1)) as [cas next].
      unfold inserts_ok. cbn. constructor; [exact I|exact Hgood1]. }
    eapply wp_mono; [exact Hcas| |auto].
    intros v' c2 Hgood2. wp_beta.
    destruct (buf cur1) as [b|]; wp_steps; [|discriminate].
    destruct (blocks c2 !! b) as [n|]; [|discriminate].
    destruct (leaf_insert P (block_size E) n key v' (current_time E))
      as [success n']. wp_steps.
    apply wp_guarantee; [discriminate|intros _]. wp_steps.
    unfold inserts_ok. cbn. constructor; [exact I|exact Hgood2].
  - destruct (key_found || expired); [|wp_steps; exact Hgood].
    destruct (buf cur) as [b|]; wp_steps; [|discriminate].
    destruct (blocks c !! b) as [n|]; [|discriminate]. wp_steps.
    unfold inserts_ok. cbn. constructor; [exact I|exact Hgood].
Qed.

Lemma at_leaf_keeps_inserts_ok oper cur key (c : cache node) :
  inserts_ok c ->
  parent_has_room P cur (blocks c) ->
  wp (at_leaf P E oper cur key) (fun _ c1 => inserts_ok c1) not_line_75 c.
Proof.
  intros Hgood Hinv. unfold at_leaf.
  destruct (buf cur) as [b|] eqn:Hb; wp_steps; [|discriminate].
  destruct (blocks c !! b) as [leaf|] eqn:Hn; [|discriminate]. wp_steps.
  eapply wp_mono;
    [apply (load_old_large_res _ _ not_line_75); apply boring_not_75| |auto].
  intros old_large c1 [-> ->]. wp_beta. wp_steps.
  apply wp_check_consistent; [apply boring_not_75|]. wp_step.
  match goal with
  | |- wp (if ?upd then ?m1 else ?m2) _ _ ?c1 =>
      assert (Hmid : wp (if upd then m1 else m2)
                (fun _ c2 => inserts_ok c2) not_line_75 c1)
  end.
  { assert (Hgood1 : inserts_ok
              (mk_cache (blocks c) (deleted c) (dirty c) (root_block c)
                 (pm_btree_depth c) (cas_counter c) (last_cas c)
                 (large_deleted c)
                 (EvOperate
                    (if if bool_decide (is_Some (leaf_lookup P leaf key))
                           && match leaf_lookup P leaf key with
                              | Some ov => value_expired P ov
                              | None => false
                              end
                        then false
                        else bool_decide (is_Some (leaf_lookup P leaf key))
                     then leaf_lookup P leaf key else None)
                    (old_large_of oper (leaf_lookup P leaf key))
                  :: trace c))).
    { unfold inserts_ok. cbn. constructor; [exact I|exact Hgood]. }
    match goal with |- wp (if ?upd then _ else _) _ _ _ => destruct upd end;
      [|wp_steps; exact Hgood1].
    wp_step.
    eapply wp_mono; [apply update_leaf_keeps_inserts_ok; eauto| |auto].
    intros cur1 c2 Hgood2. wp_beta.
    apply underfull_keeps_inserts_ok. exact Hgood2. }
  eapply wp_mono; [exact Hmid| |auto].
  intros cur2 c2 Hgood2. wp_beta. unfold release_bufs. wp_step. wp_step.
  assert (Hrel : wp (if is_acquired (sb_buf cur2)
                     then log (EvReleaseSb 301) else ret ())
                   (fun _ c3 => inserts_ok c3) not_line_75 c2).
  { destruct (is_acquired (sb_buf cur2)); wp_steps; [|exact Hgood2].
    unfold inserts_ok. cbn. constructor; [exact I|exact Hgood2]. }
  eapply wp_mono; [exact Hrel| |auto].
  intros [] c3 Hgood3. wp_beta. wp_step.
  apply wp_rassert; [discriminate|intros _]. wp_beta.
  destruct (buf cur2); wp_steps; [|discriminate].
  unfold release_large.
  match goal with |- wp (if ?upd then _ else _) _ _ _ => destruct upd end;
    [|wp_steps; exact Hgood3].
  match goal with
  | |- wp (match ?l with Some _ => _ | None => _ end) _ _ _ => destruct l
  end; [|wp_steps; exact Hgood3].
  wp_step. apply wp_rassert; [discriminate|intros _]. wp_beta.
  wp_step. apply wp_rassert; [discriminate|intros _]. wp_beta.
  wp_step. apply wp_rassert; [discriminate|intros _]. wp_beta.
  wp_steps. exact Hgood3.
Qed.


End Room.

(** C6: on an empty tree (root_block is NONE) get_root allocates a fresh
    block, makes it an empty leaf stamped with the current time, installs
    it as root, adds one to the depth counter (0 becomes 1) and drops
    sb_buf; on a tree whose root exists it acquires that root and keeps
    sb_buf.  Either way the returned buf is acquired, and sb_buf is
    released exactly when a new root was installed. *)
Theorem get_root_spec (c : cache node) :
  (root_block c = NULL_BLOCK_ID ->
   exists b c',
     get_root P E (Some SUPERBLOCK_ID) None c = Ok ((None, Some b), c')
     /\ blocks c !! b = None
     /\ blocks c' = <[ b := leaf_init P (block_size E) (current_time E) ]> (blocks c)
     /\ root_block c' = b
     /\ pm_btree_depth c' = pm_btree_depth c + 1
     /\ (pm_btree_depth c = 0 -> pm_btree_depth c' = 1)
     /\ deleted c' = deleted c)
  /\
  (root_block c <> NULL_BLOCK_ID ->
   root_block c <> SUPERBLOCK_ID ->
   is_Some (blocks c !! root_block c) ->
   get_root P E (Some SUPERBLOCK_ID) None c
     = Ok ((Some SUPERBLOCK_ID, Some (root_block c)), c))
  /\
  (forall sb b c',
     get_root P E (Some SUPERBLOCK_ID) None c = Ok ((sb, b), c') ->
     is_acquired b = true
     /\ (is_acquired sb = false <-> root_block c = NULL_BLOCK_ID)
     /\ (is_acquired sb = false <-> root_block c' <> root_block c)).
Proof.
  split; [|split].
  - intros Hroot.
    destruct (wp_total (get_root P E (Some SUPERBLOCK_ID) None)
             (fun r c' => exists b, r = (None, Some b)
                /\ blocks c !! b = None
                /\ blocks c' = <[ b := leaf_init P (block_size E) (current_time E) ]> (blocks c)
                /\ root_block c' = b
                /\ pm_btree_depth c' = pm_btree_depth c + 1
                /\ deleted c' = deleted c) c) as (r & c' & Hrun & b & -> & H).
    { apply wp_get_root_start; [|contradiction].
      intros _ b Hb _ _. exists b. cbn. auto 10. }
    exists b, c'. split; [exact Hrun|].
    destruct H as (? & ? & ? & ? & ?). repeat split; auto. lia.
  - intros Hn Hs Hsome.
    destruct (wp_total (get_root P E (Some SUPERBLOCK_ID) None)
             (fun r c' => r = (Some SUPERBLOCK_ID, Some (root_block c)) /\ c' = c) c)
      as (r & c' & Hrun & -> & ->); [|exact Hrun].
    apply wp_get_root_start; [contradiction|]. intros _.
    repeat split; try contradiction; auto.
    intros Hnone. rewrite Hnone in Hsome. destruct Hsome; discriminate.
  - intros sb b c' Hrun.
    refine (wp_ok _ (fun r c' => is_acquired (snd r) = true
              /\ (is_acquired (fst r) = false <-> root_block c = NULL_BLOCK_ID)
              /\ (is_acquired (fst r) = false <-> root_block c' <> root_block c))
              (fun _ => True) _ _ _ Hrun _).
    apply wp_get_root_start.
    + intros Hroot b0 _ Hnn _. cbn. rewrite Hroot. repeat split; auto.
    + intros Hroot. repeat split; auto; cbn; try discriminate; try contradiction.
Qed.

(** *** Further properties of check_and_handle_split *)

Lemma split_decision_steps (n : node) key nv full
    (Q : bool -> cache node -> Prop) (c : cache node) :
  split_decision P E n key nv full ->
  Q full c ->
  wp (split_needed P E n key nv) Q (fun _ => False) c.
Proof.
  intros [(Hleaf & v & -> & ->)|(Hleaf & -> & Hnv)] HQ;
    unfold split_needed; rewrite Hleaf; wp_step.
  - apply wp_rassert.
    + intros _ Hf. rewrite bool_decide_eq_true_2 in Hf by eauto. discriminate.
    + intros _. wp_steps. exact HQ.
  - apply wp_rassert.
    + intros Hd Hf. rewrite (Hnv Hd) in Hf.
      rewrite bool_decide_eq_false_2 in Hf; [discriminate|].
      intros [x Hx]. discriminate.
    + intros _. wp_steps. exact HQ.
Qed.

(** X1: a node that is not full is left alone: check_and_handle_split
    returns the cursor as it got it and writes nothing (no block stored,
    dirtied or allocated, root and depth untouched). *)
Theorem split_not_needed cur key nv (c : cache node) b n :
  buf cur = Some b ->
  blocks c !! b = Some n ->
  split_decision P E n key nv false ->
  check_and_handle_split P E cur key nv c
    = Ok (cur, set_trace c (EvSplitCheck b :: trace c)).
Proof.
  intros Hb Hn Hdec.
  destruct (wp_total (check_and_handle_split P E cur key nv)
              (fun cur' c' => cur' = cur
                 /\ c' = set_trace c (EvSplitCheck b :: trace c)) c)
    as (cur' & c' & Hrun & -> & ->); [|exact Hrun].
  unfold check_and_handle_split. rewrite Hb. wp_steps. rewrite Hn. wp_steps.
  eapply split_decision_steps; [exact Hdec|]. wp_beta. cbn [negb].
  wp_steps. split; reflexivity.
Qed.

(** X2: the kind of node decides whether a value must come with the call.
    With rasserts compiled in, the split check on a leaf stops at line 44
    when no value is passed, and on an internal node it stops at line 47
    when one is: the descent passes none, the leaf phase passes the value
    it is about to insert. *)
Theorem split_wants_value_on_leaf_only cur key (c : cache node) b n :
  buf cur = Some b ->
  blocks c !! b = Some n ->
  debug E = true ->
  (node_is_leaf P n = true ->
   check_and_handle_split P E cur key None c = Fail (AssertFailed 44))
  /\ (node_is_leaf P n = false ->
      forall v,
        check_and_handle_split P E cur key (Some v) c
          = Fail (AssertFailed 47)).
Proof.
  intros Hb Hn Hd. split.
  - intros Hleaf.
    assert (H : wp (check_and_handle_split P E cur key None)
                  (fun _ _ => False) (fun e => e = AssertFailed 44) c).
    { unfold check_and_handle_split. rewrite Hb. wp_steps. rewrite Hn.
      wp_steps. unfold split_needed. rewrite Hleaf. wp_step.
      apply wp_rassert; [reflexivity|].
      intros [Hd'|Hd']; [congruence|].
      rewrite bool_decide_eq_false_2 in Hd'; [discriminate|].
      intros [x Hx]. discriminate. }
    unfold wp in H.
    destruct (check_and_handle_split P E cur key None c) as [[cur' c']|e];
      [contradiction|congruence].
  - intros Hleaf v.
    assert (H : wp (check_and_handle_split P E cur key (Some v))
                  (fun _ _ => False) (fun e => e = AssertFailed 47) c).
    { unfold check_and_handle_split. rewrite Hb. wp_steps. rewrite Hn.
      wp_steps. unfold split_needed. rewrite Hleaf. wp_step.
      apply wp_rassert; [reflexivity|].
      intros [Hd'|Hd']; [congruence|].
      rewrite bool_decide_eq_true_2 in Hd' by eauto. discriminate. }
    unfold wp in H.
    destruct (check_and_handle_split P E cur key (Some v) c) as [[cur' c']|e];
      [contradiction|congruence].
Qed.

(** X3: splitting the root.  When the full node has no parent in the cursor
    (last_buf unacquired) and sb_buf is held, check_and_handle_split
    allocates two blocks nothing names yet, keeps the lower half in place,
    puts the upper half into the first, makes the second an internal node
    holding just the median between the two, installs it as the root,
    adds one to the depth and releases sb_buf; no block is marked
    deleted.  It returns unless rasserts are on and the insert fails. *)
Theorem root_split_grows_tree cur key nv (c : cache node)
    b n sbid lnode rsib median :
  buf cur = Some b ->
  blocks c !! b = Some n ->
  last_buf cur = None ->
  sb_buf cur = Some sbid ->
  split_decision P E n key nv true ->
  node_split P (block_size E) n = (lnode, rsib, median) ->
  (debug E = true ->
   forall r, fst (internal_insert P (block_size E)
                    (internal_init P (block_size E)) median b r) = true) ->
  exists r l cur' c',
    check_and_handle_split P E cur key nv c = Ok (cur', c')
    /\ blocks c !! r = None /\ blocks c !! l = None
    /\ r <> b /\ l <> b /\ l <> r
    /\ buf cur' = redirect key median b r
    /\ last_buf cur' = Some l /\ sb_buf cur' = None
    /\ blocks c'
       = <[ l := snd (internal_insert P (block_size E)
                        (internal_init P (block_size E)) median b r) ]>
           (<[ r := rsib ]> (<[ b := lnode ]> (blocks c)))
    /\ root_block c' = l
    /\ pm_btree_depth c' = pm_btree_depth c + 1
    /\ deleted c' = deleted c.
Proof.
  intros Hb Hn Hl Hsb Hdec Hsplit Hfits.
  destruct (wp_total (check_and_handle_split P E cur key nv)
    (fun cur' c' => exists r l,
       blocks c !! r = None /\ blocks c !! l = None
       /\ r <> b /\ l <> b /\ l <> r
       /\ buf cur' = redirect key median b r
       /\ last_buf cur' = Some l /\ sb_buf cur' = None
       /\ blocks c'
          = <[ l := snd (internal_insert P (block_size E)
                           (internal_init P (block_size E)) median b r) ]>
              (<[ r := rsib ]> (<[ b := lnode ]> (blocks c)))
       /\ root_block c' = l
       /\ pm_btree_depth c' = pm_btree_depth c + 1
       /\ deleted c' = deleted c) c)
    as (cur' & c' & Hrun & r & l & H).
  2: { exists r, l, cur', c'. split; [exact Hrun|exact H]. }
  unfold check_and_handle_split. rewrite Hb. wp_steps. rewrite Hn. wp_steps.
  eapply split_decision_steps; [exact Hdec|]. wp_beta. cbn [negb].
  wp_step. apply wp_allocate. cbn [blocks].
  intros r Hr1 Hr2 _ _ _. apply not_elem_of_dom in Hr1. wp_steps.
  rewrite Hsplit. wp_steps. rewrite Hl. cbn [is_acquired negb]. wp_steps.
  apply wp_allocate. cbn [blocks]. intros l Hl1 Hl2 _ _ _. wp_steps.
  apply wp_insert_root; [rewrite Hsb; discriminate..|].
  intros sbid' _. wp_steps. rewrite lookup_insert_eq.
  assert (Hrb : r <> b).
  { intros ->. apply Hr2, held_ids_spec. left. reflexivity. }
  assert (Hlb : l <> b).
  { intros ->. apply Hl2, held_ids_spec. left. reflexivity. }
  assert (Hlr : l <> r).
  { intros ->. apply Hl2, held_ids_spec. right. left. reflexivity. }
  apply not_elem_of_dom in Hl1.
  rewrite !lookup_insert_ne in Hl1 by congruence.
  specialize (fun Hd => Hfits Hd r).
  destruct (internal_insert P (block_size E)
              (internal_init P (block_size E)) median b r)
    as [success pn'] eqn:Hins.
  cbn [fst snd] in *. wp_steps.
  apply wp_rassert; [intros Hd Hs; rewrite (Hfits Hd) in Hs; discriminate|].
  intros _. wp_beta. rewrite insert_insert_eq.
  assert (Hgoal : forall nb, nb = redirect key median b r ->
            wp (ret (mk_cursor nb (Some l) None))
              (fun cur' c' => exists r0 l0,
                 blocks c !! r0 = None /\ blocks c !! l0 = None
                 /\ r0 <> b /\ l0 <> b /\ l0 <> r0
                 /\ buf cur' = redirect key median b r0
                 /\ last_buf cur' = Some l0 /\ sb_buf cur' = None
                 /\ blocks c'
                    = <[ l0 := snd (internal_insert P (block_size E)
                                      (internal_init P (block_size E))
                                      median b r0) ]>
                        (<[ r0 := rsib ]> (<[ b := lnode ]> (blocks c)))
                 /\ root_block c' = l0
                 /\ pm_btree_depth c' = pm_btree_depth c + 1
                 /\ deleted c' = deleted c) (fun _ => False)
              (mk_cache
                 (<[ l := pn' ]> (<[ r := rsib ]> (<[ b := lnode ]> (blocks c))))
                 (deleted c)
                 ({[ sbid' ]} ∪ ({[ l ]} ∪ ({[ r ]} ∪ ({[ b ]} ∪ dirty c))))
                 l (pm_btree_depth c + 1) (cas_counter c) (last_cas c)
                 (large_deleted c)
                 (EvInternalInsert l
                    (internal_is_full P (internal_init P (block_size E)))
                    success
                  :: EvReleaseSb 32 :: EvInsertRoot l :: EvSplitCheck b
                  :: trace c))).
  { intros nb ->. wp_steps. exists r, l. rewrite Hins. cbn.
    repeat split; auto. }
  destruct (0 >=? sized_strcmp key median) eqn:Hcmp; apply Hgoal;
    unfold redirect; rewrite Hcmp; reflexivity.
Qed.

(** X4: splitting below the root.  When the full node has a parent in
    the cursor, check_and_handle_split allocates one block nothing names
    yet for the upper half and hands the median to the parent; the root,
    the depth, the superblock lock and the deleted blocks stay as they
    were, and last_buf still holds the parent.  It returns unless
    rasserts are on and the parent has no room. *)
Theorem inner_split_keeps_root cur key nv (c : cache node)
    b n l pn lnode rsib median :
  buf cur = Some b ->
  blocks c !! b = Some n ->
  last_buf cur = Some l -> l <> b ->
  blocks c !! l = Some pn ->
  split_decision P E n key nv true ->
  node_split P (block_size E) n = (lnode, rsib, median) ->
  (debug E = true ->
   forall r, fst (internal_insert P (block_size E) pn median b r) = true) ->
  exists r cur' c',
    check_and_handle_split P E cur key nv c = Ok (cur', c')
    /\ blocks c !! r = None /\ r <> b /\ r <> l
    /\ buf cur' = redirect key median b r
    /\ last_buf cur' = Some l /\ sb_buf cur' = sb_buf cur
    /\ blocks c'
       = <[ l := snd (internal_insert P (block_size E) pn median b r) ]>
           (<[ r := rsib ]> (<[ b := lnode ]> (blocks c)))
    /\ root_block c' = root_block c
    /\ pm_btree_depth c' = pm_btree_depth c
    /\ deleted c' = deleted c.
Proof.
  intros Hb Hn Hl Hlb Hpn Hdec Hsplit Hfits.
  destruct (wp_total (check_and_handle_split P E cur key nv)
    (fun cur' c' => exists r,
       blocks c !! r = None /\ r <> b /\ r <> l
       /\ buf cur' = redirect key median b r
       /\ last_buf cur' = Some l /\ sb_buf cur' = sb_buf cur
       /\ blocks c'
          = <[ l := snd (internal_insert P (block_size E) pn median b r) ]>
              (<[ r := rsib ]> (<[ b := lnode ]> (blocks c)))
       /\ root_block c' = root_block c
       /\ pm_btree_depth c' = pm_btree_depth c
       /\ deleted c' = deleted c) c)
    as (cur' & c' & Hrun & r & H).
  2: { exists r, cur', c'. split; [exact Hrun|exact H]. }
  unfold check_and_handle_split. rewrite Hb. wp_steps. rewrite Hn. wp_steps.
  eapply split_decision_steps; [exact Hdec|]. wp_beta. cbn [negb].
  wp_step. apply wp_allocate. cbn [blocks].
  intros r Hr1 Hr2 _ _ _. apply not_elem_of_dom in Hr1. wp_steps.
  rewrite Hsplit. wp_steps. rewrite Hl. cbn [is_acquired negb]. wp_steps.
  assert (Hrb : r <> b).
  { intros ->. apply Hr2, held_ids_spec. left. reflexivity. }
  assert (Hrl : r <> l) by congruence.
  rewrite !lookup_insert_ne by congruence. rewrite Hpn.
  specialize (fun Hd => Hfits Hd r).
  destruct (internal_insert P (block_size E) pn median b r)
    as [success pn'] eqn:Hins.
  cbn [fst snd] in *. wp_steps.
  apply wp_rassert; [intros Hd Hs; rewrite (Hfits Hd) in Hs; discriminate|].
  intros _. wp_beta.
  assert (Hgoal : forall nb Q,
            nb = redirect key median b r ->
            Q = (fun (cur' : cursor) (c' : cache node) => exists r0,
                 blocks c !! r0 = None /\ r0 <> b /\ r0 <> l
                 /\ buf cur' = redirect key median b r0
                 /\ last_buf cur' = Some l /\ sb_buf cur' = sb_buf cur
                 /\ blocks c'
                    = <[ l := snd (internal_insert P (block_size E) pn
                                     median b r0) ]>
                        (<[ r0 := rsib ]> (<[ b := lnode ]> (blocks c)))
                 /\ root_block c' = root_block c
                 /\ pm_btree_depth c' = pm_btree_depth c
                 /\ deleted c' = deleted c) ->
            forall c1 : cache node,
              blocks c1 = <[ l := pn' ]>
                            (<[ r := rsib ]> (<[ b := lnode ]> (blocks c))) ->
              root_block c1 = root_block c ->
              pm_btree_depth c1 = pm_btree_depth c ->
              deleted c1 = deleted c ->
              wp (ret (mk_cursor nb (Some l) (sb_buf cur))) Q
                (fun _ => False) c1).
  { intros nb Q -> -> c1 H1 H2 H3 H4. wp_steps. exists r. rewrite Hins.
    cbn [snd]. auto 12. }
  destruct (0 >=? sized_strcmp key median) eqn:Hcmp;
    (eapply Hgoal; [unfold redirect; rewrite Hcmp, ?Hb; reflexivity
                   |reflexivity|reflexivity..]).
Qed.

(** *** Bookkeeping across the walk *)

Lemma grows_refl (c : cache node) : grows c c.
Proof. unfold grows. repeat split; auto. Qed.

Lemma grows_trans (c1 c2 c3 : cache node) :
  grows c1 c2 -> grows c2 c3 -> grows c1 c3.
Proof.
  intros (Ha1 & Ha2 & Ha3 & Ha4 & Ha5 & Ha6) (Hb1 & Hb2 & Hb3 & Hb4 & Hb5 & Hb6).
  unfold grows. repeat split.
  - etransitivity; eauto.
  - etransitivity; eauto.
  - etransitivity; eauto.
  - etransitivity; eauto.
  - intros id Hid. rewrite Hb5 by exact Hid. apply Ha5.
    intros Hin. apply Hid, Hb3, Hin.
  - intros Hid. rewrite Hb6 by exact Hid. apply Ha6.
    intros Hin. apply Hid, Hb3, Hin.
Qed.

Lemma grows_trace (c : cache node) t : grows c (set_trace c t).
Proof. unfold grows. cbn. repeat split; auto. Qed.

Lemma sb_releases_app e1 e2 :
  sb_releases (e1 ++ e2) = sb_releases e1 ++ sb_releases e2.
Proof. induction e1 as [|[] e1 IH]; cbn; congruence. Qed.

Lemma installs_app e1 e2 : installs (e1 ++ e2) = installs e1 ++ installs e2.
Proof. induction e1 as [|[] e1 IH]; cbn; congruence. Qed.

Lemma sb_account_refl sb (c : cache node) : sb_account sb sb c c.
Proof. exists []. split; [reflexivity|]. left. repeat split. Qed.

Lemma sb_account_trans sb1 sb2 sb3 (c1 c2 c3 : cache node) :
  sb_account sb1 sb2 c1 c2 -> sb_account sb2 sb3 c2 c3 ->
  sb_account sb1 sb3 c1 c3.
Proof.
  intros (e1 & Ht1 & H1) (e2 & Ht2 & H2).
  exists (e2 ++ e1). split; [rewrite Ht2, Ht1, app_assoc; reflexivity|].
  rewrite sb_releases_app, installs_app.
  destruct H2 as [(-> & Hr2 & Hi2 & Hroot2 & Hd2)
                 |[(Hacq2 & -> & Hr2 & Hi2 & Hroot2 & Hd2)
                  |(Hacq2 & -> & Hr2 & Hi2 & Hd2)]].
  - rewrite Hr2, Hi2, Hroot2, Hd2. cbn [app]. exact H1.
  - destruct H1 as [(-> & Hr1 & Hi1 & Hroot1 & Hd1)
                   |[(_ & -> & _)|(_ & -> & _)]]; try discriminate.
    right. left. rewrite Hr1, Hi1, Hi2, Hroot2, Hd2, !app_nil_r.
    repeat split; auto.
  - destruct H1 as [(-> & Hr1 & Hi1 & Hroot1 & Hd1)
                   |[(_ & -> & _)|(_ & -> & _)]]; try discriminate.
    right. right. rewrite Hr1, Hi1, Hr2, Hi2, !app_nil_r.
    repeat split; auto. lia.
Qed.

Lemma sb_account_log sb (c : cache node) e :
  match e with EvReleaseSb _ | EvInsertRoot _ => False | _ => True end ->
  sb_account sb sb c (set_trace c (e :: trace c)).
Proof.
  intros He. exists [e]. split; [reflexivity|]. left.
  destruct e; try contradiction; cbn; repeat split.
Qed.

(** What a helper may do to the cache and to the superblock lock. *)
Lemma split_linked cur key nv (c : cache node) cur1 c1 :
  sb_is_superblock cur ->
  check_and_handle_split P E cur key nv c = Ok (cur1, c1) ->
  grows c c1 /\ sb_account (sb_buf cur) (sb_buf cur1) c c1
  /\ sb_is_superblock cur1.
Proof.
  intros Hsb Hrun.
  refine (wp_ok _ (fun cur1 c1 => _) (fun _ => True) _ _ _ Hrun _).
  apply wp_split; [trivial|].
  intros b n full Hb Hn Hdec. split.
  - intros _. split; [apply grows_trace|]. split; [|exact Hsb].
    apply sb_account_log. exact I.
  - intros _ r lnode rsib median Hr _ _ _ _.
    assert (Hgrow : forall l pn' nr wf success,
              (forall sbid, nr = Some sbid -> sbid = SUPERBLOCK_ID) ->
              grows c (split_cache c b r l lnode rsib pn' nr wf success)).
    { intros l pn' nr wf success Hnr. unfold grows.
      destruct nr as [sbid|]; cbn [split_cache blocks deleted dirty
                                     large_deleted root_block].
      - rewrite (Hnr sbid eq_refl). repeat split; auto.
        + rewrite !dom_insert_L. set_solver.
        + set_solver.
        + intros id Hid. rewrite !lookup_insert_ne; [reflexivity|..];
            intros ->; apply Hid; set_solver.
        + intros Hid. exfalso. apply Hid. set_solver.
      - repeat split; auto.
        + rewrite !dom_insert_L. set_solver.
        + set_solver.
        + intros id Hid. rewrite !lookup_insert_ne; [reflexivity|..];
            intros ->; apply Hid; set_solver. }
    split.
    + intros l pn success pn' Hl Hpn Hins. split; [trivial|]. intros _.
      split; [|split; [|exact Hsb]].
      * apply Hgrow. discriminate.
      * exists [EvInternalInsert l (internal_is_full P pn) success;
                EvSplitCheck b].
        split; [reflexivity|]. left. cbn. repeat split.
    + intros Hl. split; [auto|].
      intros sbid l success pn' Hsbid _ _ _ _ _ _. split; [trivial|].
      intros _. split; [|split; [|left; reflexivity]].
      * apply Hgrow.
        intros sbid' [= <-]. destruct Hsb as [Hsb|Hsb]; congruence.
      * exists [EvInternalInsert l
                  (internal_is_full P (internal_init P (block_size E)))
                  success;
                EvReleaseSb 32; EvInsertRoot l; EvSplitCheck b].
        split; [reflexivity|]. right. right. rewrite Hsbid. cbn.
        repeat split; auto.
Qed.

Lemma merge_outcome_store (bl0 : gmap N node) cmp b s n sn pn
    survivor dead bl k :
  merge_outcome P E bl0 cmp b s n sn pn = (survivor, dead, bl, k) ->
  dom bl0 ⊆ dom bl
  /\ (forall id, id <> b -> id <> s -> bl !! id = bl0 !! id)
  /\ ((survivor = s /\ dead = b) \/ (survivor = b /\ dead = s)).
Proof.
  unfold merge_outcome. destruct (cmp <? 0).
  - destruct (node_merge P (block_size E) n sn pn) as [[n' sib'] k0].
    intros [= <- <- <- <-]. repeat split; auto.
    + rewrite !dom_insert_L. set_solver.
    + intros id Hb Hs. rewrite !lookup_insert_ne by congruence. reflexivity.
  - destruct (node_merge P (block_size E) sn n pn) as [[sib' n'] k0].
    intros [= <- <- <- <-]. repeat split; auto.
    + rewrite !dom_insert_L. set_solver.
    + intros id Hb Hs. rewrite !lookup_insert_ne by congruence. reflexivity.
Qed.

Lemma level_outcome_store (bl0 : gmap N node) b s l n sn pn :
  dom bl0 ⊆ dom (level_outcome P E bl0 b s l n sn pn)
  /\ (forall id, id <> b -> id <> s -> id <> l ->
        level_outcome P E bl0 b s l n sn pn !! id = bl0 !! id).
Proof.
  unfold level_outcome.
  destruct (node_level P (block_size E) n sn pn)
    as [[[[n' sib'] k1] k2] leveled].
  destruct leveled; split.
  - rewrite !dom_insert_L. set_solver.
  - intros id Hb Hs Hl. rewrite !lookup_insert_ne by congruence. reflexivity.
  - rewrite !dom_insert_L. set_solver.
  - intros id Hb Hs Hl. rewrite !lookup_insert_ne by congruence. reflexivity.
Qed.

Lemma underfull_linked cur key (c : cache node) cur1 c1 :
  sb_is_superblock cur ->
  check_and_handle_underfull P E cur key c = Ok (cur1, c1) ->
  grows c c1 /\ sb_account (sb_buf cur) (sb_buf cur1) c c1
  /\ sb_is_superblock cur1.
Proof.
  intros Hsb Hrun.
  refine (wp_ok _ (fun cur1 c1 => _) (fun _ => True) _ _ _ Hrun _).
  apply wp_underfull; [trivial|].
  intros b n Hb Hn. split.
  - intros _. split; [apply grows_trace|]. split; [|exact Hsb].
    apply sb_account_log. exact I.
  - intros l pn cmp s sn Hl _ _ _ _ _ _. split.
    + intros _. split; [|split; [|exact Hsb]].
      * destruct (level_outcome_store (blocks c) b s l n sn pn) as [Hd Hs].
        unfold grows. cbn [level_cache blocks deleted dirty large_deleted
                             root_block].
        repeat split; auto.
        -- set_solver.
        -- intros id Hid. apply Hs; intros ->; apply Hid; set_solver.
      * exists [EvUnderfullCheck b]. split; [reflexivity|]. left.
        cbn. repeat split.
    + intros _ survivor dead bl k Hout.
      destruct (merge_outcome_store _ _ _ _ _ _ _ _ _ _ _ Hout)
        as (Hd & Hs & _).
      split.
      * intros _. split; [|split; [|exact Hsb]].
        -- unfold grows. cbn [merge_cache blocks deleted dirty large_deleted
                                root_block].
           repeat split; auto.
           ++ rewrite dom_insert_L. set_solver.
           ++ set_solver.
           ++ set_solver.
           ++ intros id Hid. rewrite lookup_insert_ne.
              ** apply Hs; intros ->; apply Hid; set_solver.
              ** intros ->. apply Hid. set_solver.
        -- exists [EvUnderfullCheck b]. split; [reflexivity|]. left.
           cbn. repeat split.
      * intros _. split; [auto|]. intros sbid Hsbid.
        assert (sbid = SUPERBLOCK_ID) as ->
          by (destruct Hsb as [Hsb|Hsb]; congruence).
        split; [|split; [|left; reflexivity]].
        -- unfold grows. cbn [merge_cache blocks deleted dirty large_deleted
                                root_block].
           repeat split; auto.
           ++ set_solver.
           ++ set_solver.
           ++ intros id Hid. apply Hs; intros ->; apply Hid; set_solver.
           ++ intros Hid. exfalso. apply Hid. set_solver.
        -- exists [EvReleaseSb 32; EvInsertRoot survivor; EvUnderfullCheck b].
           split; [reflexivity|]. right. right. rewrite Hsbid. cbn.
           repeat split; auto.
Qed.

Lemma linked_refl cur (c : cache node) :
  sb_is_superblock cur -> linked cur c cur c.
Proof.
  intros Hsb. split; [apply grows_refl|]. split; [apply sb_account_refl|auto].
Qed.

Lemma linked_trans cur1 cur2 cur3 (c1 c2 c3 : cache node) :
  linked cur1 c1 cur2 c2 -> linked cur2 c2 cur3 c3 -> linked cur1 c1 cur3 c3.
Proof.
  intros (Hg1 & Ha1 & _) (Hg2 & Ha2 & Hsb).
  split; [eapply grows_trans; eauto|].
  split; [eapply sb_account_trans; eauto|exact Hsb].
Qed.

Lemma wp_from_ok {A} (m : M node A) (Q : A -> cache node -> Prop)
    (c : cache node) :
  (forall a c', m c = Ok (a, c') -> Q a c') -> wp m Q (fun _ => True) c.
Proof.
  unfold wp. destruct (m c) as [[a c']|e]; auto.
Qed.

Lemma descend_step_linked cur key (c : cache node) cur1 c1 :
  sb_is_superblock cur ->
  descend_step P E cur key c = Ok (cur1, c1) ->
  linked cur c cur1 c1.
Proof.
  intros Hsb Hrun. unfold descend_step in Hrun.
  apply bind_ok_inv in Hrun as (cur2 & c2 & Hsplit & Hrun).
  apply bind_ok_inv in Hrun as (cur3 & c3 & Hunder & Hrun).
  apply bind_ok_inv in Hrun as (cur4 & c4 & Hrel & Hchild).
  apply split_linked in Hsplit as Hl1; [|exact Hsb].
  apply underfull_linked in Hunder as Hl2; [|apply Hl1].
  apply descend_to_child_locks in Hchild as (-> & _ & Hsb4 & _).
  eapply linked_trans; [exact Hl1|]. eapply linked_trans; [exact Hl2|].
  unfold release_sb_past_root in Hrel.
  destruct (is_acquired (sb_buf cur3) && is_acquired (last_buf cur3)) eqn:Hb.
  - injection Hrel as <- <-. apply andb_true_iff in Hb as [Hacq _].
    cbn [sb_buf] in Hsb4.
    split; [apply (grows_trace c3)|]. unfold sb_is_superblock.
    rewrite Hsb4. split; [|left; reflexivity].
    exists [EvReleaseSb 201]. split; [reflexivity|]. right. left.
    cbn. repeat split; auto. exists 201%nat. split; [reflexivity|].
    discriminate.
  - injection Hrel as <- <-. split; [apply grows_refl|].
    rewrite Hsb4. split; [apply sb_account_refl|].
    unfold sb_is_superblock. rewrite Hsb4. apply Hl2.
Qed.

Lemma descend_linked fuel cur key (c : cache node) cur1 c1 :
  sb_is_superblock cur ->
  descend P E fuel cur key c = Ok (cur1, c1) ->
  linked cur c cur1 c1.
Proof.
  revert cur c. induction fuel as [|fuel IH]; intros cur c Hsb Hrun;
    cbn [descend] in Hrun;
    apply bind_ok_inv in Hrun as (internal & c0 & Hat & Hrun).
  all: assert (c0 = c) as ->
    by (unfold at_internal in Hat;
        apply bind_ok_inv in Hat as (b & cb & Hb & Hat);
        destruct (buf cur) as [b0|]; [|discriminate];
        injection Hb as <- <-;
        apply bind_ok_inv in Hat as (nd & cn & Hn & Hat);
        unfold get_data_read in Hn; destruct (blocks c !! b0) as [nd0|];
        [|discriminate]; injection Hn as <- <-; injection Hat as _ <-;
        reflexivity).
  all: destruct internal; try discriminate.
  all: try (injection Hrun as <- <-; apply linked_refl; exact Hsb).
  apply bind_ok_inv in Hrun as (cur2 & c2 & Hstep & Hrun).
  apply descend_step_linked in Hstep as Hl; [|exact Hsb].
  eapply linked_trans; [exact Hl|]. apply IH; [apply Hl|exact Hrun].
Qed.

Lemma get_root_linked (c : cache node) sb b c' :
  get_root P E (Some SUPERBLOCK_ID) None c = Ok ((sb, b), c') ->
  linked (mk_cursor None None (Some SUPERBLOCK_ID)) c (mk_cursor b None sb) c'.
Proof.
  intros Hrun.
  refine (wp_ok _ (fun r c' => linked _ c (mk_cursor (snd r) None (fst r)) c')
            (fun _ => True) _ _ _ Hrun _).
  apply wp_get_root_start.
  - intros _ b0 Hb0 _ _. cbn [fst snd]. split; [|split; [|left; reflexivity]].
    + unfold grows. cbn. repeat split; auto.
      * rewrite dom_insert_L. set_solver.
      * set_solver.
      * intros id Hid. rewrite lookup_insert_ne; [reflexivity|].
        intros ->. apply Hid. set_solver.
      * intros Hid. exfalso. apply Hid. set_solver.
    + exists [EvReleaseSb 32; EvInsertRoot b0]. split; [reflexivity|].
      right. right. cbn. repeat split; auto.
  - intros _. split; [trivial|]. split; [trivial|]. intros _ _.
    cbn [fst snd]. split; [apply grows_refl|].
    split; [apply sb_account_refl|right; reflexivity].
Qed.

Lemma grows_store (c : cache node) b n' d cc lc t :
  grows c (mk_cache (<[ b := n' ]> (blocks c)) (deleted c)
             ({[ b ]} ∪ dirty c) (root_block c) d cc lc (large_deleted c) t).
Proof.
  unfold grows. cbn [blocks deleted dirty large_deleted root_block].
  split; [rewrite dom_insert_L; apply union_subseteq_r|].
  split; [reflexivity|]. split; [apply union_subseteq_r|].
  split; [reflexivity|]. split; [|reflexivity].
  intros id Hid. rewrite lookup_insert_ne; [reflexivity|].
  intros ->. apply Hid, elem_of_union_l, elem_of_singleton. reflexivity.
Qed.

Lemma update_leaf_linked oper cur key key_found expired new_val
    (c : cache node) cur1 c1 :
  sb_is_superblock cur ->
  update_leaf P E oper cur key key_found expired new_val c = Ok (cur1, c1) ->
  linked cur c cur1 c1.
Proof.
  intros Hsb Hrun.
  refine (wp_ok _ (fun cur1 c1 => linked cur c cur1 c1) (fun _ => True)
            _ _ _ Hrun _).
  unfold update_leaf. destruct new_val as [v|].
  - wp_step. apply wp_from_ok. intros cur2 c2 Hsplit.
    apply split_linked in Hsplit as Hl; [|exact Hsb]. wp_beta. wp_step.
    assert (Hcas : wp (add_cas P oper v)
                     (fun _ c3 => linked cur2 c2 cur2 c3) (fun _ => True) c2).
    { unfold add_cas.
      destruct (v_has_cas v && negb (cas_already_set oper));
        [|wp_steps; apply linked_refl; apply Hl].
      unfold wp. destruct (gen_cas P (cas_counter c2)) as [cas next].
      split; [|split; [|apply Hl]].
      - unfold grows. cbn. repeat split; auto.
      - exists [EvGenCas cas]. split; [reflexivity|]. left. cbn.
        repeat split. }
    eapply wp_mono; [exact Hcas| |auto]. intros v' c3 Hl3. wp_beta.
    destruct (buf cur2) as [b|]; wp_steps; [|trivial].
    destruct (blocks c3 !! b) as [n|]; [|trivial].
    destruct (leaf_insert P (block_size E) n key v' (current_time E))
      as [success n']. wp_steps.
    apply wp_guarantee; [trivial|intros _]. wp_steps.
    eapply linked_trans; [exact Hl|]. eapply linked_trans; [exact Hl3|].
    split; [apply grows_store|]. split; [|apply Hl].
    exists [EvLeafInsert b key v']. split; [reflexivity|]. left. cbn.
    repeat split.
  - destruct (key_found || expired); [|wp_steps; apply linked_refl; exact Hsb].
    destruct (buf cur) as [b|]; wp_steps; [|trivial].
    destruct (blocks c !! b) as [n|]; [|trivial]. wp_steps.
    split; [apply grows_store|]. split; [|exact Hsb].
    exists [EvLeafRemove b key]. split; [reflexivity|]. left. cbn.
    repeat split.
Qed.

Lemma at_leaf_closes oper cur key (c : cache node) res c' :
  sb_is_superblock cur ->
  at_leaf P E oper cur key c = Ok (res, c') ->
  grows c c' /\ sb_account (sb_buf cur) None c c'.
Proof.
  intros Hsb Hrun.
  refine (wp_ok _ (fun _ c' => grows c c' /\ sb_account (sb_buf cur) None c c')
            (fun _ => True) _ _ _ Hrun _).
  unfold at_leaf.
  destruct (buf cur) as [b|] eqn:Hb; wp_steps; [|trivial].
  destruct (blocks c !! b) as [leaf|] eqn:Hn; [|trivial]. wp_steps.
  eapply wp_mono;
    [apply (load_old_large_res _ _ (fun _ => True)); trivial| |auto].
  intros old_large c1 [-> ->]. wp_beta. wp_steps.
  apply wp_check_consistent; [trivial|]. wp_step.
  match goal with
  | |- wp (if ?upd then ?m1 else ?m2) _ _ ?c1 =>
      assert (Hmid : wp (if upd then m1 else m2)
                (fun cur2 c2 => linked cur c cur2 c2) (fun _ => True) c1);
      [assert (Hlog : linked cur c cur c1)
         by (split; [apply (grows_trace c)|];
             split; [apply (sb_account_log _ c); exact I|exact Hsb])|]
  end.
  { match goal with |- wp (if ?upd then _ else _) _ _ _ => destruct upd end;
      [|wp_steps; exact Hlog].
    wp_step. apply wp_from_ok. intros cur1 c2 Hupd.
    apply update_leaf_linked in Hupd as Hl2; [|exact Hsb]. wp_beta.
    apply wp_from_ok. intros cur2 c3 Hunder.
    apply underfull_linked in Hunder as Hl3; [|apply Hl2].
    eapply linked_trans; [exact Hlog|].
    eapply linked_trans; [exact Hl2|exact Hl3]. }
  eapply wp_mono; [exact Hmid| |auto].
  intros cur2 c2 (Hg2 & Ha2 & Hsb2). wp_beta. unfold release_bufs.
  wp_step. wp_step.
  assert (Hrel : wp (if is_acquired (sb_buf cur2)
                     then log (EvReleaseSb 301) else ret ())
                   (fun _ c3 => grows c c3 /\ sb_account (sb_buf cur) None c c3)
                   (fun _ => True) c2).
  { destruct (is_acquired (sb_buf cur2)) eqn:Hacq; wp_steps.
    - split; [eapply grows_trans; [exact Hg2|apply (grows_trace c2)]|].
      eapply sb_account_trans; [exact Ha2|].
      exists [EvReleaseSb 301]. split; [reflexivity|]. right. left.
      cbn. repeat split; auto. exists 301%nat. split; [reflexivity|].
      discriminate.
    - destruct (sb_buf cur2); [discriminate|]. auto. }
  eapply wp_mono; [exact Hrel| |auto].
  intros [] c3 [Hg3 Ha3]. wp_beta. wp_step.
  apply wp_rassert; [trivial|intros _]. wp_beta.
  destruct (buf cur2); wp_steps; [|trivial].
  unfold release_large.
  match goal with |- wp (if ?upd then _ else _) _ _ _ => destruct upd end;
    [|wp_steps; auto].
  match goal with
  | |- wp (match ?l with Some _ => _ | None => _ end) _ _ _ => destruct l
  end; [|wp_steps; auto].
  wp_step. apply wp_rassert; [trivial|intros _]. wp_beta.
  wp_step. apply wp_rassert; [trivial|intros _]. wp_beta.
  wp_step. apply wp_rassert; [trivial|intros _]. wp_beta.
  wp_steps. split.
  - eapply grows_trans; [exact Hg3|]. unfold grows. cbn.
    repeat split; auto. set_solver.
  - eapply sb_account_trans; [exact Ha3|].
    exists []. split; [reflexivity|]. left. cbn. repeat split.
Qed.

Lemma run_linked oper fuel key (c : cache node) res c' :
  run_btree_modify_oper P E oper fuel key c = Ok (res, c') ->
  grows c c' /\ sb_account (Some SUPERBLOCK_ID) None c c'.
Proof.
  unfold run_btree_modify_oper. intros Hrun.
  apply bind_ok_inv in Hrun as ([sb b] & c1 & Hroot & Hrun).
  apply bind_ok_inv in Hrun as (cur2 & c2 & Hdesc & Hleaf).
  apply get_root_linked in Hroot as Hl1.
  apply descend_linked in Hdesc as Hl2; [|apply Hl1].
  apply at_leaf_closes in Hleaf as [Hg3 Ha3]; [|apply Hl2].
  destruct (linked_trans _ _ _ _ _ _ Hl1 Hl2) as (Hg & Ha & _).
  split; [eapply grows_trans; eauto|].
  eapply sb_account_trans; [exact Ha|exact Ha3].
Qed.

(** X5: a walk that commits has lost nothing and has written only through
    write views: every block that was in the cache is still there, no
    deleted or dirty mark has been cleared, every block whose contents
    differ is dirty, and the superblock is dirty if the root it records
    has changed. *)
Theorem walk_writes_through_write_views oper fuel key (c : cache node) res c' :
  run_btree_modify_oper P E oper fuel key c = Ok (res, c') ->
  grows c c'.
Proof. intros Hrun. apply (run_linked _ _ _ _ _ _ Hrun). Qed.

(** X6: a walk that commits releases the superblock exactly once (by
    insert_root at line 32, by lines 200-202 or at line 301), and installs
    at most one root: either no insert_root ran and the root and the depth
    counter are as before, or the release was that of the one insert_root,
    whose block is the final root, and the depth moved by exactly one. *)
Theorem walk_releases_superblock_once oper fuel key (c : cache node) res c' :
  run_btree_modify_oper P E oper fuel key c = Ok (res, c') ->
  walk_account c c'.
Proof.
  intros Hrun. destruct (run_linked _ _ _ _ _ _ Hrun) as [_ (evs & Ht & H)].
  exists evs. split; [exact Ht|].
  destruct H as [(Hsb & _)|[(_ & _ & (line & Hr & _) & Hi & Hroot & Hd)
                           |(_ & _ & Hr & Hi & Hd)]].
  - discriminate.
  - split; [eauto|]. left. auto.
  - split; [eauto|]. right. auto.
Qed.

(** *** Further properties of check_and_handle_underfull *)

(** X7: the root is never treated as underfull, and a node that is not
    underfull is left alone: with last_buf unacquired, or on a node for
    which is_underfull is false, check_and_handle_underfull returns the
    cursor as it got it and writes nothing. *)
Theorem underfull_not_needed cur key (c : cache node) b n :
  buf cur = Some b ->
  blocks c !! b = Some n ->
  last_buf cur = None \/ node_is_underfull P (block_size E) n = false ->
  check_and_handle_underfull P E cur key c
    = Ok (cur, set_trace c (EvUnderfullCheck b :: trace c)).
Proof.
  intros Hb Hn Hno.
  destruct (wp_total (check_and_handle_underfull P E cur key)
              (fun cur' c' => cur' = cur
                 /\ c' = set_trace c (EvUnderfullCheck b :: trace c)) c)
    as (cur' & c' & Hrun & -> & ->); [|exact Hrun].
  unfold check_and_handle_underfull. rewrite Hb. wp_steps. rewrite Hn.
  wp_steps.
  assert (Hcond : is_acquired (last_buf cur)
                  && node_is_underfull P (block_size E) n = false).
  { destruct Hno as [-> | ->]; [reflexivity|apply andb_false_r]. }
  rewrite Hcond. wp_steps. split; reflexivity.
Qed.

(** X8: levelling.  When the underfull node cannot be merged with its
    sibling, check_and_handle_underfull lets node::level rewrite the two
    siblings and rewrites the parent with update_key only if level says it
    moved something; the cursor, the root, the depth and the deleted
    blocks stay as they were. *)
Theorem level_keeps_structure cur key (c : cache node)
    b n l pn cmp s sn n' sib' key_to_replace replacement_key leveled :
  buf cur = Some b -> blocks c !! b = Some n ->
  last_buf cur = Some l ->
  node_is_underfull P (block_size E) n = true ->
  blocks c !! l = Some pn ->
  internal_sibling P pn key = (cmp, s) ->
  s ∉ held_ids [buf cur; last_buf cur; sb_buf cur] ->
  blocks c !! s = Some sn ->
  (debug E = true -> node_validate P (block_size E) sn = true) ->
  node_is_mergable P (block_size E) n sn pn = false ->
  node_level P (block_size E) n sn pn
    = (n', sib', key_to_replace, replacement_key, leveled) ->
  exists c',
    check_and_handle_underfull P E cur key c = Ok (cur, c')
    /\ blocks c'
       = (if leveled
          then <[ l := internal_update_key P pn key_to_replace
                         replacement_key ]>
                 (<[ s := sib' ]> (<[ b := n' ]> (blocks c)))
          else <[ s := sib' ]> (<[ b := n' ]> (blocks c)))
    /\ deleted c' = deleted c
    /\ root_block c' = root_block c
    /\ pm_btree_depth c' = pm_btree_depth c
    /\ trace c' = EvUnderfullCheck b :: trace c.
Proof.
  intros Hb Hn Hl Hu Hpn Hsib Hheld Hsn Hval Hm Hlev.
  destruct (wp_total (check_and_handle_underfull P E cur key)
    (fun cur' c' => cur' = cur
       /\ blocks c'
          = (if leveled
             then <[ l := internal_update_key P pn key_to_replace
                            replacement_key ]>
                    (<[ s := sib' ]> (<[ b := n' ]> (blocks c)))
             else <[ s := sib' ]> (<[ b := n' ]> (blocks c)))
       /\ deleted c' = deleted c
       /\ root_block c' = root_block c
       /\ pm_btree_depth c' = pm_btree_depth c
       /\ trace c' = EvUnderfullCheck b :: trace c) c)
    as (cur' & c' & Hrun & -> & H).
  2: { exists c'. split; [exact Hrun|exact H]. }
  unfold check_and_handle_underfull. rewrite Hb. wp_steps. rewrite Hn.
  wp_steps. rewrite Hl, Hu. cbn [is_acquired andb]. wp_steps.
  rewrite Hpn, Hsib. wp_steps. apply wp_acquire.
  { intros Hin. apply Hheld. rewrite Hb, Hl. exact Hin. }
  { cbn [blocks]. intros _ Hnone. congruence. }
  intros _ _. wp_steps. rewrite Hsn. wp_steps.
  apply wp_rassert.
  { intros Hd Hv. rewrite (Hval Hd) in Hv. discriminate. }
  intros _. wp_beta. rewrite Hm, Hlev. wp_steps.
  destruct leveled; wp_steps; repeat split; auto.
Qed.

(** X9: merging.  The two siblings are handed to node::merge in ascending
    order and the left one dies: when the cursor's node lies left of its
    sibling it is marked deleted and the cursor moves to the sibling, which
    holds what merge left in its right argument; otherwise the sibling is
    marked deleted and the cursor stays.  Either way the block the cursor
    ends on holds the merged node, and the only blocks the call marks
    deleted are the merged-away sibling and, on a collapse, the parent. *)
Theorem merge_keeps_right_node cur key (c : cache node) cur' c'
    b n l pn cmp s sn :
  buf cur = Some b -> blocks c !! b = Some n ->
  last_buf cur = Some l -> l <> b ->
  node_is_underfull P (block_size E) n = true ->
  blocks c !! l = Some pn ->
  internal_sibling P pn key = (cmp, s) ->
  blocks c !! s = Some sn ->
  node_is_mergable P (block_size E) n sn pn = true ->
  check_and_handle_underfull P E cur key c = Ok (cur', c') ->
  s <> b /\ s <> l
  /\ (cmp < 0 ->
      buf cur' = Some s /\ b ∈ deleted c'
      /\ blocks c' !! s
         = Some (snd (fst (node_merge P (block_size E) n sn pn)))
      /\ (forall id, id ∈ deleted c' -> id ∈ deleted c \/ id = b \/ id = l))
  /\ (cmp >= 0 ->
      buf cur' = Some b /\ s ∈ deleted c'
      /\ blocks c' !! b
         = Some (snd (fst (node_merge P (block_size E) sn n pn)))
      /\ (forall id, id ∈ deleted c' -> id ∈ deleted c \/ id = s \/ id = l)).
Proof.
  intros Hb Hn Hl Hlb Hu Hpn Hsib Hsn Hm Hrun.
  refine (wp_ok _ (fun cur' c' => _) (fun _ => True) _ _ _ Hrun _).
  apply wp_underfull; [trivial|].
  intros b0 n0 Hb0 Hn0.
  assert (b0 = b) as -> by congruence.
  assert (n0 = n) as -> by congruence.
  split.
  - rewrite Hl, Hu. discriminate.
  - intros l0 pn0 cmp0 s0 sn0 Hl0 _ Hpn0 Hsib0 Hheld Hsn0 _.
    assert (l0 = l) as -> by congruence.
    assert (pn0 = pn) as -> by congruence.
    assert (cmp0 = cmp /\ s0 = s) as [-> ->] by (split; congruence).
    assert (sn0 = sn) as -> by congruence.
    assert (Hsb : s <> b).
    { intros ->. apply Hheld, held_ids_spec. left. exact Hb. }
    assert (Hsl : s <> l).
    { intros ->. apply Hheld, held_ids_spec. right. left. exact Hl. }
    split; [rewrite Hm; discriminate|].
    intros _ survivor dead bl k Hout.
    assert (Hshape :
      (cmp < 0 -> survivor = s /\ dead = b
         /\ bl !! s = Some (snd (fst (node_merge P (block_size E) n sn pn))))
      /\ (cmp >= 0 -> survivor = b /\ dead = s
         /\ bl !! b = Some (snd (fst (node_merge P (block_size E) sn n pn))))).
    { unfold merge_outcome in Hout.
      destruct (Z.ltb_spec cmp 0).
      - destruct (node_merge P (block_size E) n sn pn) as [[n1 sib1] k0].
        injection Hout as <- <- <- <-. split; [|lia].
        intros _. rewrite lookup_insert_eq. auto.
      - destruct (node_merge P (block_size E) sn n pn) as [[sib1 n1] k0].
        injection Hout as <- <- <- <-. split; [lia|].
        intros _. rewrite lookup_insert_eq. auto. }
    destruct Hshape as [Hleft Hright].
    split; [intros _|intros _; split; [auto|intros sbid _]];
      (split; [exact Hsb|]); (split; [exact Hsl|]); split.
    all: intros Hcmp;
      first [destruct (Hleft Hcmp) as (-> & -> & Hbl)
            |destruct (Hright Hcmp) as (-> & -> & Hbl)];
      cbn [buf merge_cache blocks deleted].
    all: repeat split; auto.
    all: try (rewrite lookup_insert_ne by congruence; exact Hbl).
    all: try (intros id Hin);
      repeat match goal with
             | H : _ ∈ _ ∪ _ |- _ => apply elem_of_union in H as [H|H]
             | H : _ ∈ {[ _ ]} |- _ => apply elem_of_singleton in H
             end;
      rewrite ?elem_of_union, ?elem_of_singleton; auto 6.
Qed.

(** *** The descent loop *)

Lemma at_internal_inv cur (c : cache node) internal c0 :
  at_internal P cur c = Ok (internal, c0) ->
  c0 = c
  /\ exists b n, buf cur = Some b /\ blocks c !! b = Some n
                 /\ internal = node_is_internal P n.
Proof.
  intros Hrun.
  refine (wp_ok _ (fun internal c0 => _) (fun _ => True) _ _ _ Hrun _).
  unfold at_internal.
  destruct (buf cur) as [b|]; wp_steps; [|trivial].
  destruct (blocks c !! b) as [n|] eqn:Hn; [|trivial]. wp_steps.
  split; [reflexivity|]. exists b, n. auto.
Qed.

Lemma descend_step_ends_in_child cur key (c : cache node) cur1 c1 :
  descend_step P E cur key c = Ok (cur1, c1) ->
  exists l pn,
    last_buf cur1 = Some l /\ blocks c1 !! l = Some pn
    /\ buf cur1 = Some (internal_lookup P pn key)
    /\ l <> internal_lookup P pn key
    /\ is_Some (blocks c1 !! internal_lookup P pn key)
    /\ (debug E = true ->
        internal_lookup P pn key <> NULL_BLOCK_ID
        /\ internal_lookup P pn key <> SUPERBLOCK_ID).
Proof.
  intros Hrun. unfold descend_step in Hrun.
  apply bind_ok_inv in Hrun as (cur2 & c2 & _ & Hrun).
  apply bind_ok_inv in Hrun as (cur3 & c3 & _ & Hrun).
  apply bind_ok_inv in Hrun as (cur4 & c4 & _ & Hchild).
  refine (wp_ok _ (fun cur1 c1 => _) (fun _ => True) _ _ _ Hchild _).
  unfold descend_to_child.
  destruct (buf cur4) as [b|] eqn:Hb; wp_steps; [|trivial].
  destruct (blocks c4 !! b) as [n|] eqn:Hn; [|trivial]. wp_steps.
  apply wp_rassert; [trivial|intros Hchk]. wp_steps.
  apply wp_acquire; [trivial|trivial|]. intros Hheld Hsome. wp_steps.
  exists b, n. split; [reflexivity|]. split; [exact Hn|].
  split; [reflexivity|]. split; [|split; [exact Hsome|]].
  - intros Heq. apply Hheld, held_ids_spec. left. rewrite <- Heq. reflexivity.
  - intros Hd. destruct Hchk as [Hchk|Hchk]; [congruence|].
    apply andb_true_iff in Hchk as [Hnull Hsb].
    apply negb_true_iff, N.eqb_neq in Hnull.
    apply negb_true_iff, N.eqb_neq in Hsb. auto.
Qed.

(** X10: where the descent stops.  When the loop of lines 190-214 returns,
    the cursor stands on a node that is not internal; and unless the walk
    never left its starting node, last_buf holds the parent, a different
    block whose internal::lookup for the key is the block under the
    cursor (with rasserts on, neither NULL_BLOCK_ID nor SUPERBLOCK_ID). *)
Theorem descent_stops_below_parent fuel cur key (c : cache node) cur' c' :
  descend P E fuel cur key c = Ok (cur', c') ->
  exists b n,
    buf cur' = Some b /\ blocks c' !! b = Some n
    /\ node_is_internal P n = false
    /\ ((cur' = cur /\ c' = c)
        \/ exists l pn,
             last_buf cur' = Some l /\ blocks c' !! l = Some pn
             /\ internal_lookup P pn key = b /\ l <> b
             /\ (debug E = true ->
                 b <> NULL_BLOCK_ID /\ b <> SUPERBLOCK_ID)).
Proof.
  revert cur c. induction fuel as [|fuel IH]; intros cur c Hrun;
    cbn [descend] in Hrun;
    apply bind_ok_inv in Hrun as (internal & c0 & Hat & Hrun);
    apply at_internal_inv in Hat as (-> & b & n & Hb & Hn & ->);
    destruct (node_is_internal P n) eqn:Hint; try discriminate.
  1, 3: injection Hrun as <- <-; exists b, n; auto 10.
  apply bind_ok_inv in Hrun as (cur2 & c2 & Hstep & Hrun).
  apply descend_step_ends_in_child in Hstep
    as (l & pn & Hl & Hpn & Hchild & Hne & _ & Hdbg).
  destruct (IH _ _ Hrun) as (b' & n' & Hb' & Hn' & Hint' & Hrest).
  exists b', n'. split; [exact Hb'|]. split; [exact Hn'|].
  split; [exact Hint'|]. right.
  destruct Hrest as [[-> ->]|Hrest]; [|exact Hrest].
  exists l, pn. rewrite Hchild in Hb'. injection Hb' as <-. auto 10.
Qed.

(** *** The leaf phase *)

Lemma split_keeps_large cur key nv (c : cache node) cur1 c1 :
  check_and_handle_split P E cur key nv c = Ok (cur1, c1) ->
  large_deleted c1 = large_deleted c.
Proof.
  intros Hrun.
  refine (wp_ok _ (fun _ c1 => large_deleted c1 = large_deleted c)
            (fun _ => True) _ _ _ Hrun _).
  apply wp_split; [trivial|].
  intros b n full Hb Hn Hdec. split.
  - intros _. reflexivity.
  - intros _ r lnode rsib median Hr _ _ _ _. split.
    + intros l pn success pn' Hl Hpn Hins. split; [trivial|]. intros _.
      reflexivity.
    + intros Hl. split; [auto|].
      intros sbid l success pn' Hsbid _ _ _ _ _ _. split; [trivial|].
      intros _. reflexivity.
Qed.

Lemma underfull_keeps_large cur key (c : cache node) cur1 c1 :
  check_and_handle_underfull P E cur key c = Ok (cur1, c1) ->
  large_deleted c1 = large_deleted c.
Proof.
  intros Hrun.
  refine (wp_ok _ (fun _ c1 => large_deleted c1 = large_deleted c)
            (fun _ => True) _ _ _ Hrun _).
  apply wp_underfull; [trivial|].
  intros b n Hb Hn. split.
  - intros _. reflexivity.
  - intros l pn cmp s sn Hl _ _ _ _ _ _. split.
    + intros _. reflexivity.
    + intros _ survivor dead bl k Hout. split.
      * intros _. reflexivity.
      * intros _. split; [auto|]. intros sbid Hsbid. reflexivity.
Qed.

Lemma update_leaf_keeps_large oper cur key key_found expired new_val
    (c : cache node) cur1 c1 :
  update_leaf P E oper cur key key_found expired new_val c = Ok (cur1, c1) ->
  large_deleted c1 = large_deleted c.
Proof.
  intros Hrun.
  refine (wp_ok _ (fun _ c1 => large_deleted c1 = large_deleted c)
            (fun _ => True) _ _ _ Hrun _).
  unfold update_leaf. destruct new_val as [v|].
  - wp_step. apply wp_from_ok. intros cur2 c2 Hsplit.
    apply split_keeps_large in Hsplit. wp_beta. wp_step.
    assert (Hcas : wp (add_cas P oper v)
                     (fun _ c3 => large_deleted c3 = large_deleted c)
                     (fun _ => True) c2).
    { unfold add_cas.
      destruct (v_has_cas v && negb (cas_already_set oper));
        [|wp_steps; exact Hsplit].
      unfold wp. destruct (gen_cas P (cas_counter c2)) as [cas next].
      exact Hsplit. }
    eapply wp_mono; [exact Hcas| |auto]. intros v' c3 Hl3. wp_beta.
    destruct (buf cur2) as [b|]; wp_steps; [|trivial].
    destruct (blocks c3 !! b) as [n|]; [|trivial].
    destruct (leaf_insert P (block_size E) n key v' (current_time E))
      as [success n']. wp_steps.
    apply wp_guarantee; [trivial|intros _]. wp_steps. exact Hl3.
  - destruct (key_found || expired); [|wp_steps; reflexivity].
    destruct (buf cur) as [b|]; wp_steps; [|trivial].
    destruct (blocks c !! b) as [n|]; [|trivial]. wp_steps. reflexivity.
Qed.

Lemma wp_check_consistent_dbg r (Q : unit -> cache node -> Prop)
    (c : cache node) :
  ((debug E = true -> consistent_result r) -> Q tt c) ->
  wp (check_consistent E r) Q (fun _ => True) c.
Proof.
  intros HQ. unfold check_consistent, consistent_result in *. wp_step.
  destruct (update_needed r); cbn [negb].
  - destruct (new_value r) as [v|]; [destruct (v_lb_ref v) as [ref|]|];
      (apply wp_rassert; [trivial|intros Hchk]); wp_steps; apply HQ;
      intros Hd; (split; [intros _|discriminate]);
      (destruct Hchk as [Hchk|Hchk]; [congruence|]);
      destruct (new_large_buflock r) as [lv|]; try discriminate;
      try reflexivity.
    exists lv. split; [reflexivity|].
    apply N.eqb_eq in Hchk. symmetry. exact Hchk.
  - wp_steps. apply wp_rassert; [trivial|intros Hchk]. apply HQ.
    intros Hd. split; [discriminate|intros _].
    destruct Hchk as [Hchk|Hchk]; [congruence|].
    destruct (new_large_buflock r); [discriminate|reflexivity].
Qed.

Lemma wp_load_old_large_dbg oper old (c : cache node) :
  wp (load_old_large E oper old)
    (fun l c' => l = old_large_of oper old /\ c' = c
                 /\ (debug E = true ->
                     handle_loaded (old_large_of oper old) = true))
    (fun _ => True) c.
Proof.
  unfold load_old_large, old_large_of, handle_loaded.
  destruct old as [ov|]; [|wp_steps; auto].
  destruct (v_lb_ref ov) as [ref|]; [|wp_steps; auto].
  wp_step. apply wp_rassert; [trivial|intros Hchk].
  wp_steps. split; [reflexivity|]. split; [reflexivity|].
  intros Hd. destruct Hchk as [Hchk|Hchk]; [congruence|exact Hchk].
Qed.

Lemma at_leaf_large oper cur key (c : cache node) res c' b leaf :
  buf cur = Some b -> blocks c !! b = Some leaf ->
  at_leaf P E oper cur key c = Ok (res, c') ->
  let old_value := leaf_lookup P leaf key in
  let key_found := bool_decide (is_Some old_value) in
  let expired :=
    key_found && match old_value with
                 | Some ov => value_expired P ov
                 | None => false
                 end in
  let key_found := if expired then false else key_found in
  let r := operate oper (if key_found then old_value else None)
             (old_large_of oper old_value) in
  let upd := if negb (update_needed r) && expired then true
             else update_needed r in
  (snd res = upd
   /\ large_deleted c'
      = (if upd
         then match old_large_buflock_after r with
              | Some lv => {[ lb_root lv ]} ∪ large_deleted c
              | None => large_deleted c
              end
         else large_deleted c)
   /\ (debug E = true -> upd = true ->
       forall lv, old_large_buflock_after r = Some lv ->
         new_large_buflock r = None
         /\ exists ov, old_value = Some ov /\ is_large ov = true
                       /\ v_lb_ref ov = Some (lb_root lv)))
  /\ (debug E = true ->
      handle_loaded (old_large_of oper old_value) = true
      /\ consistent_result r).
Proof.
  intros Hb Hn Hrun. cbv zeta.
  refine (wp_ok _ (fun res c' => _) (fun _ => True) _ _ _ Hrun _).
  unfold at_leaf. rewrite Hb. wp_steps. rewrite Hn. wp_steps.
  eapply wp_mono; [apply wp_load_old_large_dbg| |auto].
  intros old_large c1 (-> & -> & Hloaded). wp_beta. wp_steps.
  apply wp_check_consistent_dbg. intros Hcons. wp_step.
  match goal with
  | |- wp (if ?upd then ?m1 else ?m2) _ _ ?c1 =>
      assert (Hmid : wp (if upd then m1 else m2)
                (fun _ c2 => large_deleted c2 = large_deleted c)
                (fun _ => True) c1)
  end.
  { match goal with |- wp (if ?upd then _ else _) _ _ _ => destruct upd end;
      [|wp_steps; reflexivity].
    wp_step. apply wp_from_ok. intros cur1 c2 Hupd.
    apply update_leaf_keeps_large in Hupd. wp_beta.
    apply wp_from_ok. intros cur2 c3 Hunder.
    apply underfull_keeps_large in Hunder. rewrite Hunder, Hupd.
    reflexivity. }
  eapply wp_mono; [exact Hmid| |auto].
  intros cur2 c2 Hld. wp_beta. unfold release_bufs. wp_step. wp_step.
  assert (Hrel : wp (if is_acquired (sb_buf cur2)
                     then log (EvReleaseSb 301) else ret ())
                   (fun _ c3 => large_deleted c3 = large_deleted c)
                   (fun _ => True) c2).
  { destruct (is_acquired (sb_buf cur2)); wp_steps; exact Hld. }
  eapply wp_mono; [exact Hrel| |auto].
  intros [] c3 Hld3. wp_beta. wp_step.
  apply wp_rassert; [trivial|intros _]. wp_beta.
  destruct (buf cur2); wp_steps; [|trivial].
  unfold release_large.
  match goal with
  | |- wp (if ?upd then _ else _) _ _ _ => destruct upd eqn:Hupd
  end.
  2: { wp_steps. split; [|auto]. split; [reflexivity|].
       split; [exact Hld3|]. discriminate. }
  match goal with
  | |- wp (match ?l with Some _ => _ | None => _ end) _ _ _ =>
      destruct l as [lv|] eqn:Hafter
  end.
  2: { wp_steps. split; [|auto]. split; [reflexivity|].
       split; [exact Hld3|]. discriminate. }
  wp_step. apply wp_rassert; [trivial|intros H309]. wp_beta.
  wp_step. apply wp_rassert; [trivial|intros H311]. wp_beta.
  wp_step. apply wp_rassert; [trivial|intros H312]. wp_beta.
  wp_steps. split; [|auto]. split; [reflexivity|].
  split; [rewrite Hld3; reflexivity|].
  intros Hd _ lv' [= <-].
  destruct H309 as [H309|H309]; [congruence|].
  destruct H311 as [H311|H311]; [congruence|].
  destruct H312 as [H312|H312]; [congruence|].
  split.
  - destruct (new_large_buflock _); [discriminate|reflexivity].
  - destruct (leaf_lookup P leaf key) as [ov|]; [|discriminate].
    exists ov. split; [reflexivity|]. split; [exact H311|].
    apply bool_decide_eq_true_1 in H312. exact H312.
Qed.

(** X11: retiring large values.  The leaf phase marks a large value
    deleted in one case only: the walk ends with update_needed true (the
    operator asked for a change, or the key had expired) and operate left
    an old large handle behind; then exactly that handle's root is marked.
    With rasserts on this happens only when no new large handle came back
    and the stored value was large with that very root. *)
Theorem old_large_value_retired oper cur key (c : cache node) res c' b leaf :
  buf cur = Some b -> blocks c !! b = Some leaf ->
  at_leaf P E oper cur key c = Ok (res, c') ->
  let old_value := leaf_lookup P leaf key in
  let expired := match old_value with
                 | Some ov => value_expired P ov
                 | None => false
                 end in
  let r := operate oper (if expired then None else old_value)
             (old_large_of oper old_value) in
  snd res = update_needed r || expired
  /\ large_deleted c'
     = (if update_needed r || expired
        then match old_large_buflock_after r with
             | Some lv => {[ lb_root lv ]} ∪ large_deleted c
             | None => large_deleted c
             end
        else large_deleted c)
  /\ (debug E = true -> update_needed r || expired = true ->
      forall lv, old_large_buflock_after r = Some lv ->
        new_large_buflock r = None
        /\ exists ov, old_value = Some ov /\ is_large ov = true
                      /\ v_lb_ref ov = Some (lb_root lv)).
Proof.
  intros Hb Hn Hrun.
  pose proof (proj1 (at_leaf_large _ _ _ _ _ _ _ _ Hb Hn Hrun)) as H.
  cbv zeta in *.
  destruct (leaf_lookup P leaf key) as [ov|].
  - rewrite bool_decide_eq_true_2 in H by eauto. cbn [andb] in H.
    destruct (value_expired P ov).
    + destruct (update_needed _); exact H.
    + rewrite andb_false_r in H. rewrite orb_false_r. exact H.
  - rewrite bool_decide_eq_false_2 in H by (intros [x Hx]; discriminate).
    cbn [andb] in H. rewrite andb_false_r in H. rewrite orb_false_r.
    exact H.
Qed.

(** X12: what a debug build demands of the operator.  With rasserts on, a
    leaf phase that returns has had the old large value loaded (line 227)
    and has seen a consistent result from operate (lines 243-255): when an
    update is wanted, a large new value comes with a handle rooted where
    the value points and a small or absent one comes with none; when no
    update is wanted there is no new handle either. *)
Theorem committed_walk_saw_consistent_result oper cur key (c : cache node)
    res c' b leaf :
  buf cur = Some b -> blocks c !! b = Some leaf ->
  at_leaf P E oper cur key c = Ok (res, c') ->
  debug E = true ->
  let old_value := leaf_lookup P leaf key in
  let expired := match old_value with
                 | Some ov => value_expired P ov
                 | None => false
                 end in
  handle_loaded (old_large_of oper old_value) = true
  /\ consistent_result
       (operate oper (if expired then None else old_value)
          (old_large_of oper old_value)).
Proof.
  intros Hb Hn Hrun Hd.
  pose proof (proj2 (at_leaf_large _ _ _ _ _ _ _ _ Hb Hn Hrun) Hd) as H.
  cbv zeta in *.
  destruct (leaf_lookup P leaf key) as [ov|].
  - rewrite bool_decide_eq_true_2 in H by eauto. cbn [andb] in H.
    destruct (value_expired P ov); exact H.
  - rewrite bool_decide_eq_false_2 in H by (intros [x Hx]; discriminate).
    exact H.
Qed.


(** X13: a failed leaf insert is fatal in every build.  Once the split
    check and the CAS step are through, update_leaf stores what
    leaf::insert returns and then either returns with the cursor the
    split check left, or, if leaf::insert reported failure, stops the walk
    at the guarantee of line 281, whether or not rasserts are compiled
    in. *)
Theorem insert_commits_or_aborts oper cur key key_found expired v
    (c : cache node) cur1 c1 v1 c2 b n :
  check_and_handle_split P E cur key (Some v) c = Ok (cur1, c1) ->
  add_cas P oper v c1 = Ok (v1, c2) ->
  buf cur1 = Some b ->
  blocks c2 !! b = Some n ->
  update_leaf P E oper cur key key_found expired (Some v) c
  = (if fst (leaf_insert P (block_size E) n key v1 (current_time E))
     then Ok (cur1,
              mk_cache
                (<[ b := snd (leaf_insert P (block_size E) n key v1
                                (current_time E)) ]> (blocks c2))
                (deleted c2) ({[ b ]} ∪ dirty c2) (root_block c2)
                (pm_btree_depth c2) (cas_counter c2) (last_cas c2)
                (large_deleted c2) (EvLeafInsert b key v1 :: trace c2))
     else Fail (GuaranteeFailed 281)).
Proof.
  intros Hsplit Hcas Hb Hn.
  unfold update_leaf, bind at 1. rewrite Hsplit.
  unfold bind at 1. rewrite Hcas.
  unfold bind at 1. rewrite Hb. cbn [buf_of ret].
  unfold bind at 1. cbn [get_data_write modify].
  unfold bind at 1, get_data_read at 1. cbn [blocks]. rewrite Hn.
  destruct (leaf_insert P (block_size E) n key v1 (current_time E))
    as [success n'].
  cbn [fst snd]. destruct success; reflexivity.
Qed.

Lemma descend_at_leaf fuel cur key (c : cache node) b n :
  buf cur = Some b -> blocks c !! b = Some n ->
  node_is_internal P n = false ->
  descend P E fuel cur key c = Ok (cur, c).
Proof.
  intros Hb Hn Hint.
  destruct (wp_total (descend P E fuel cur key)
              (fun cur' c' => cur' = cur /\ c' = c) c)
    as (cur' & c' & Hrun & -> & ->); [|exact Hrun].
  destruct fuel; cbn [descend]; unfold at_internal; rewrite Hb; wp_steps;
    rewrite Hn; wp_steps; rewrite Hint; wp_steps; auto.
Qed.

(** X14: deleting a key that is not there.  When the key is absent from
    the leaf and the operator still asks for a deletion, the leaf phase
    reports update_needed true but calls neither leaf::insert nor
    leaf::remove: on a leaf that needs no rebalancing nothing is stored,
    dirtied or marked deleted. *)
Theorem delete_of_absent_key_writes_nothing oper cur key (c : cache node)
    b leaf :
  buf cur = Some b -> blocks c !! b = Some leaf ->
  leaf_lookup P leaf key = None ->
  update_needed (operate oper None None) = true ->
  new_value (operate oper None None) = None ->
  new_large_buflock (operate oper None None) = None ->
  old_large_buflock_after (operate oper None None) = None ->
  last_buf cur = None \/ node_is_underfull P (block_size E) leaf = false ->
  exists c',
    at_leaf P E oper cur key c = Ok ((cur, true), c')
    /\ blocks c' = blocks c /\ dirty c' = dirty c
    /\ deleted c' = deleted c /\ large_deleted c' = large_deleted c
    /\ root_block c' = root_block c
    /\ pm_btree_depth c' = pm_btree_depth c
    /\ forall e, In e (trace c') ->
         In e (trace c)
         \/ e = EvOperate None None \/ e = EvUnderfullCheck b
         \/ e = EvReleaseSb 301.
Proof.
  intros Hb Hn Hlk Hupd Hnew Hnl Hola Hno.
  destruct (wp_total (at_leaf P E oper cur key)
    (fun res c' => res = (cur, true)
       /\ blocks c' = blocks c /\ dirty c' = dirty c
       /\ deleted c' = deleted c /\ large_deleted c' = large_deleted c
       /\ root_block c' = root_block c
       /\ pm_btree_depth c' = pm_btree_depth c
       /\ forall e, In e (trace c') ->
            In e (trace c)
            \/ e = EvOperate None None \/ e = EvUnderfullCheck b
            \/ e = EvReleaseSb 301) c)
    as (res & c' & Hrun & -> & H).
  2: { exists c'. split; [exact Hrun|exact H]. }
  unfold at_leaf. rewrite Hb. wp_steps. rewrite Hn. wp_steps.
  rewrite Hlk. cbn [load_old_large].
  rewrite bool_decide_eq_false_2 by (intros [x Hx]; discriminate).
  cbn [andb]. wp_steps. unfold check_consistent.
  rewrite Hupd, Hnew, Hnl. cbn [negb has_lv andb]. wp_steps.
  apply wp_rassert; [discriminate|intros _]. wp_steps.
  unfold update_leaf. cbn [orb]. wp_steps.
  unfold check_and_handle_underfull. rewrite Hb. wp_steps. rewrite Hn.
  wp_steps.
  assert (Hcond : is_acquired (last_buf cur)
                  && node_is_underfull P (block_size E) leaf = false).
  { destruct Hno as [-> | ->]; [reflexivity|apply andb_false_r]. }
  rewrite Hcond. wp_steps. unfold release_bufs. wp_steps.
  assert (Hrel : forall (Q : unit -> cache node -> Prop) (c1 : cache node),
            Q tt c1 ->
            Q tt (set_trace c1 (EvReleaseSb 301 :: trace c1)) ->
            wp (if is_acquired (sb_buf cur)
                then log (EvReleaseSb 301) else ret ()) Q
              (fun _ => False) c1).
  { intros Q c1 H1 H2. destruct (is_acquired (sb_buf cur)); wp_steps; auto. }
  apply Hrel; wp_beta; wp_step.
  all: apply wp_rassert; [rewrite Hb; discriminate|intros _]; wp_beta.
  all: rewrite Hb; wp_steps; unfold release_large; rewrite Hola; wp_steps.
  all: repeat (split; [reflexivity|]).
  all: cbn [In]; intros e He; intuition auto.
Qed.

(** *** The whole walk on an empty tree *)

(** X15: the first insert.  On a slice with no root, a walk whose operator
    stores a small value allocates one block nothing names yet, makes it a
    leaf holding the key, installs it as the root with depth one more and
    reports update_needed true; it needs no fuel, and marks nothing
    deleted.  This holds as soon as a fresh leaf is a non-full leaf that
    does not hold the key and leaf::insert into it succeeds. *)
Theorem first_insert_builds_root_leaf oper fuel key (c : cache node) v leaf1 :
  root_block c = NULL_BLOCK_ID ->
  node_is_internal P (leaf_init P (block_size E) (current_time E)) = false ->
  node_is_leaf P (leaf_init P (block_size E) (current_time E)) = true ->
  leaf_lookup P (leaf_init P (block_size E) (current_time E)) key = None ->
  leaf_is_full P (leaf_init P (block_size E) (current_time E)) key v = false ->
  update_needed (operate oper None None) = true ->
  new_value (operate oper None None) = Some v ->
  v_lb_ref v = None ->
  new_large_buflock (operate oper None None) = None ->
  old_large_buflock_after (operate oper None None) = None ->
  leaf_insert P (block_size E) (leaf_init P (block_size E) (current_time E))
    key
    (if v_has_cas v && negb (cas_already_set oper)
     then set_cas v (fst (gen_cas P (cas_counter c))) else v)
    (current_time E) = (true, leaf1) ->
  exists l c',
    run_btree_modify_oper P E oper fuel key c
      = Ok ((mk_cursor (Some l) None None, true), c')
    /\ blocks c !! l = None /\ l <> NULL_BLOCK_ID /\ l <> SUPERBLOCK_ID
    /\ blocks c' = <[ l := leaf1 ]> (blocks c)
    /\ root_block c' = l
    /\ pm_btree_depth c' = pm_btree_depth c + 1
    /\ deleted c' = deleted c /\ large_deleted c' = large_deleted c.
Proof.
  intros Hroot Hint Hleaf Hlk Hfull Hupd Hnew Hsmall Hnl Hola Hins.
  destruct (wp_total (run_btree_modify_oper P E oper fuel key)
    (fun res c' => exists l,
       res = (mk_cursor (Some l) None None, true)
       /\ blocks c !! l = None /\ l <> NULL_BLOCK_ID /\ l <> SUPERBLOCK_ID
       /\ blocks c' = <[ l := leaf1 ]> (blocks c)
       /\ root_block c' = l
       /\ pm_btree_depth c' = pm_btree_depth c + 1
       /\ deleted c' = deleted c /\ large_deleted c' = large_deleted c) c)
    as (res & c' & Hrun & l & -> & H).
  2: { exists l, c'. split; [exact Hrun|exact H]. }
  unfold run_btree_modify_oper. wp_step. apply wp_get_root_start.
  2: { intros Hne. contradiction. }
  intros _ l Hl Hnull Hsb. wp_beta. wp_step.
  eapply wp_eq.
  { apply descend_at_leaf with (b := l)
      (n := leaf_init P (block_size E) (current_time E));
      [reflexivity|apply lookup_insert_eq|exact Hint]. }
  wp_beta. unfold at_leaf. wp_steps. rewrite lookup_insert_eq. wp_steps.
  rewrite Hlk. cbn [load_old_large].
  rewrite bool_decide_eq_false_2 by (intros [x Hx]; discriminate).
  cbn [andb]. wp_steps. unfold check_consistent.
  rewrite Hupd, Hnew, Hsmall, Hnl. cbn [negb has_lv andb]. wp_steps.
  apply wp_rassert; [discriminate|intros _]. wp_steps.
  unfold update_leaf, check_and_handle_split. wp_steps.
  rewrite lookup_insert_eq. wp_steps.
  eapply split_decision_steps.
  { left. split; [exact Hleaf|]. exists v. split; reflexivity. }
  rewrite Hfull. cbn [negb]. wp_steps.
  assert (Hcas : forall (Q : btree_value -> cache node -> Prop)
                        (c1 : cache node),
            cas_counter c1 = cas_counter c ->
            (forall c2, blocks c2 = blocks c1 -> root_block c2 = root_block c1
                        -> pm_btree_depth c2 = pm_btree_depth c1
                        -> deleted c2 = deleted c1
                        -> large_deleted c2 = large_deleted c1
                        -> Q (if v_has_cas v && negb (cas_already_set oper)
                              then set_cas v (fst (gen_cas P (cas_counter c)))
                              else v) c2) ->
            wp (add_cas P oper v) Q (fun _ => False) c1).
  { intros Q c1 Hcnt HQ. unfold add_cas.
    destruct (v_has_cas v && negb (cas_already_set oper)).
    - unfold wp. rewrite Hcnt.
      destruct (gen_cas P (cas_counter c)) as [cas next]. cbn [fst].
      apply HQ; reflexivity.
    - wp_steps. apply HQ; reflexivity. }
  apply Hcas; [reflexivity|].
  intros c2 H1 H2 H3 H4 H5. wp_beta. wp_steps. rewrite H1. cbn [blocks].
  rewrite lookup_insert_eq, Hins. wp_steps.
  apply wp_guarantee; [discriminate|intros _]. wp_steps.
  unfold check_and_handle_underfull. wp_steps. rewrite lookup_insert_eq.
  wp_steps. cbn [is_acquired andb]. wp_steps.
  unfold release_bufs. wp_step. cbn [is_acquired]. wp_steps.
  apply wp_rassert; [discriminate|intros _]. wp_steps.
  unfold release_large. rewrite Hola. wp_steps.
  exists l. wp_beta. rewrite ?H1, H2, H3, H4, H5. wp_beta.
  rewrite ?insert_insert_eq. auto 10.
Qed.

(** *** CAS bookkeeping across the walk *)

Lemma cas_untouched_trans (c1 c2 c3 : cache node) :
  cas_untouched c1 c2 -> cas_untouched c2 c3 -> cas_untouched c1 c3.
Proof. unfold cas_untouched. intros [H1 H2] [H3 H4]. split; congruence. Qed.

Lemma split_keeps_cas cur key nv (c : cache node) cur1 c1 :
  check_and_handle_split P E cur key nv c = Ok (cur1, c1) ->
  cas_untouched c c1.
Proof.
  intros Hrun.
  refine (wp_ok _ (fun _ c1 => cas_untouched c c1) (fun _ => True)
            _ _ _ Hrun _).
  apply wp_split; [trivial|].
  intros b n full Hb Hn Hdec. split.
  - intros _. split; reflexivity.
  - intros _ r lnode rsib median Hr _ _ _ _. split.
    + intros l pn success pn' Hl Hpn Hins. split; [trivial|]. intros _.
      split; reflexivity.
    + intros Hl. split; [auto|].
      intros sbid l success pn' Hsbid _ _ _ _ _ _. split; [trivial|].
      intros _. split; reflexivity.
Qed.

Lemma underfull_keeps_cas cur key (c : cache node) cur1 c1 :
  check_and_handle_underfull P E cur key c = Ok (cur1, c1) ->
  cas_untouched c c1.
Proof.
  intros Hrun.
  refine (wp_ok _ (fun _ c1 => cas_untouched c c1) (fun _ => True)
            _ _ _ Hrun _).
  apply wp_underfull; [trivial|].
  intros b n Hb Hn. split.
  - intros _. split; reflexivity.
  - intros l pn cmp s sn Hl _ _ _ _ _ _. split.
    + intros _. split; reflexivity.
    + intros _ survivor dead bl k Hout. split.
      * intros _. split; reflexivity.
      * intros _. split; [auto|]. intros sbid Hsbid. split; reflexivity.
Qed.

Lemma descend_keeps_cas fuel cur key (c : cache node) cur1 c1 :
  descend P E fuel cur key c = Ok (cur1, c1) -> cas_untouched c c1.
Proof.
  revert cur c. induction fuel as [|fuel IH]; intros cur c Hrun;
    cbn [descend] in Hrun;
    apply bind_ok_inv in Hrun as (internal & c0 & Hat & Hrun);
    apply at_internal_inv in Hat as (-> & _);
    destruct internal; try discriminate.
  1, 3: injection Hrun as <- <-; split; reflexivity.
  apply bind_ok_inv in Hrun as (cur2 & c2 & Hstep & Hrun).
  unfold descend_step in Hstep.
  apply bind_ok_inv in Hstep as (cur3 & c3 & Hsplit & Hstep).
  apply bind_ok_inv in Hstep as (cur4 & c4 & Hunder & Hstep).
  apply bind_ok_inv in Hstep as (cur5 & c5 & Hrel & Hchild).
  apply descend_to_child_locks in Hchild as (-> & _).
  apply split_keeps_cas in Hsplit. apply underfull_keeps_cas in Hunder.
  assert (Hrel' : cas_untouched c4 c5).
  { unfold release_sb_past_root in Hrel.
    destruct (is_acquired (sb_buf cur4) && is_acquired (last_buf cur4));
      injection Hrel as <- <-; split; reflexivity. }
  eapply cas_untouched_trans; [exact Hsplit|].
  eapply cas_untouched_trans; [exact Hunder|].
  eapply cas_untouched_trans; [exact Hrel'|]. apply (IH _ _ Hrun).
Qed.

Lemma get_root_keeps_cas (c : cache node) sb b c' :
  get_root P E (Some SUPERBLOCK_ID) None c = Ok ((sb, b), c') ->
  cas_untouched c c'.
Proof.
  intros Hrun.
  refine (wp_ok _ (fun _ c' => cas_untouched c c') (fun _ => True)
            _ _ _ Hrun _).
  apply wp_get_root_start.
  - intros _ b0 _ _ _. split; reflexivity.
  - intros _. split; [trivial|]. split; [trivial|]. intros _ _.
    split; reflexivity.
Qed.

Lemma update_leaf_cas oper cur key key_found expired new_val
    (c : cache node) cur1 c1 :
  update_leaf P E oper cur key key_found expired new_val c = Ok (cur1, c1) ->
  cas_untouched c c1
  \/ (cas_already_set oper = false
      /\ (exists v, new_val = Some v /\ v_has_cas v = true)
      /\ cas_drawn P c c1).
Proof.
  intros Hrun.
  refine (wp_ok _ (fun _ c1 =>
            cas_untouched c c1
            \/ (cas_already_set oper = false
                /\ (exists v, new_val = Some v /\ v_has_cas v = true)
                /\ cas_drawn P c c1)) (fun _ => True) _ _ _ Hrun _).
  unfold update_leaf. destruct new_val as [v|].
  - wp_step. apply wp_from_ok. intros cur2 c2 Hsplit.
    apply split_keeps_cas in Hsplit as [Hs1 Hs2]. wp_beta. wp_step.
    assert (Hcas : wp (add_cas P oper v)
              (fun _ c3 =>
                 cas_untouched c c3
                 \/ (cas_already_set oper = false
                     /\ (exists v0, Some v = Some v0 /\ v_has_cas v0 = true)
                     /\ cas_drawn P c c3)) (fun _ => True) c2).
    { unfold add_cas.
      destruct (v_has_cas v && negb (cas_already_set oper)) eqn:Hc;
        [|wp_steps; left; split; assumption].
      apply andb_true_iff in Hc as [Hhas Hset].
      apply negb_true_iff in Hset.
      unfold wp. rewrite Hs1.
      destruct (gen_cas P (cas_counter c)) as [cas next] eqn:Hgen.
      right. split; [exact Hset|]. split; [eauto|].
      unfold cas_drawn. rewrite Hgen. split; reflexivity. }
    eapply wp_mono; [exact Hcas| |auto]. intros v' c3 Hl3. wp_beta.
    destruct (buf cur2) as [b|]; wp_steps; [|trivial].
    destruct (blocks c3 !! b) as [n|]; [|trivial].
    destruct (leaf_insert P (block_size E) n key v' (current_time E))
      as [success n']. wp_steps.
    apply wp_guarantee; [trivial|intros _]. wp_steps. exact Hl3.
  - destruct (key_found || expired);
      [|wp_steps; left; split; reflexivity].
    destruct (buf cur) as [b|]; wp_steps; [|trivial].
    destruct (blocks c !! b) as [n|]; [|trivial]. wp_steps.
    left. split; reflexivity.
Qed.

Lemma at_leaf_cas oper cur key (c : cache node) res c' :
  at_leaf P E oper cur key c = Ok (res, c') ->
  cas_untouched c c'
  \/ (cas_already_set oper = false /\ snd res = true /\ cas_drawn P c c').
Proof.
  intros Hrun.
  refine (wp_ok _ (fun res c' =>
            cas_untouched c c'
            \/ (cas_already_set oper = false /\ snd res = true
                /\ cas_drawn P c c')) (fun _ => True) _ _ _ Hrun _).
  unfold at_leaf.
  destruct (buf cur) as [b|] eqn:Hb; wp_steps; [|trivial].
  destruct (blocks c !! b) as [leaf|] eqn:Hn; [|trivial]. wp_steps.
  eapply wp_mono;
    [apply (load_old_large_res _ _ (fun _ => True)); trivial| |auto].
  intros old_large c1 [-> ->]. wp_beta. wp_steps.
  apply wp_check_consistent; [trivial|]. wp_step.
  match goal with
  | |- wp (if ?upd then ?m1 else ?m2) _ _ ?c1 =>
      assert (Hmid : wp (if upd then m1 else m2)
                (fun _ c2 =>
                   cas_untouched c c2
                   \/ (cas_already_set oper = false /\ upd = true
                       /\ cas_drawn P c c2))
                (fun _ => True) c1)
  end.
  { match goal with |- wp (if ?upd then _ else _) _ _ _ => destruct upd end;
      [|wp_steps; left; split; reflexivity].
    wp_step. apply wp_from_ok. intros cur1 c2 Hupd.
    apply update_leaf_cas in Hupd. wp_beta.
    apply wp_from_ok. intros cur2 c3 Hunder.
    apply underfull_keeps_cas in Hunder as [Hu1 Hu2].
    unfold cas_untouched, cas_drawn in *. cbn [cas_counter last_cas] in Hupd.
    rewrite Hu1, Hu2.
    destruct Hupd as [Hupd|(Hset & _ & Hupd)]; [left|right]; auto. }
  eapply wp_mono; [exact Hmid| |auto].
  intros cur2 c2 Hc2. wp_beta. unfold release_bufs. wp_step. wp_step.
  assert (Hrel : wp (if is_acquired (sb_buf cur2)
                     then log (EvReleaseSb 301) else ret ())
                   (fun _ c3 => cas_counter c3 = cas_counter c2
                                /\ last_cas c3 = last_cas c2)
                   (fun _ => True) c2).
  { destruct (is_acquired (sb_buf cur2)); wp_steps; split; reflexivity. }
  eapply wp_mono; [exact Hrel| |auto].
  intros [] c3 [Hr1 Hr2]. wp_beta. wp_step.
  apply wp_rassert; [trivial|intros _]. wp_beta.
  destruct (buf cur2); wp_steps; [|trivial].
  assert (Hfin : forall c4 : cache node,
            cas_counter c4 = cas_counter c3 -> last_cas c4 = last_cas c3 ->
            forall upd : bool,
              (cas_untouched c c2
               \/ (cas_already_set oper = false /\ upd = true
                   /\ cas_drawn P c c2)) ->
              cas_untouched c c4
              \/ (cas_already_set oper = false /\ upd = true
                  /\ cas_drawn P c c4)).
  { intros c4 H1 H2 upd. unfold cas_untouched, cas_drawn.
    rewrite H1, H2, Hr1, Hr2. auto. }
  unfold release_large.
  match goal with
  | |- wp (if ?upd then _ else _) _ _ _ => destruct upd eqn:Hupd
  end; [|wp_steps; apply (Hfin c3 eq_refl eq_refl _ Hc2)].
  match goal with
  | |- wp (match ?l with Some _ => _ | None => _ end) _ _ _ => destruct l
  end; [|wp_steps; apply (Hfin c3 eq_refl eq_refl _ Hc2)].
  wp_step. apply wp_rassert; [trivial|intros _]. wp_beta.
  wp_step. apply wp_rassert; [trivial|intros _]. wp_beta.
  wp_step. apply wp_rassert; [trivial|intros _]. wp_beta.
  wp_steps. apply (Hfin _ eq_refl eq_refl _ Hc2).
Qed.

(** X16: a walk that commits draws at most one CAS from the generator, and
    none at all when the operator has set the CAS itself or when the walk
    reports no update; the counter and the last CAS are otherwise exactly
    as they were. *)
Theorem walk_draws_at_most_one_cas oper fuel key (c : cache node) res c' :
  run_btree_modify_oper P E oper fuel key c = Ok (res, c') ->
  cas_untouched c c'
  \/ (cas_already_set oper = false /\ snd res = true /\ cas_drawn P c c').
Proof.
  unfold run_btree_modify_oper. intros Hrun.
  apply bind_ok_inv in Hrun as ([sb b] & c1 & Hroot & Hrun).
  apply bind_ok_inv in Hrun as (cur2 & c2 & Hdesc & Hleaf).
  apply get_root_keeps_cas in Hroot as [Hg1 Hg2].
  apply descend_keeps_cas in Hdesc as [Hd1 Hd2].
  apply at_leaf_cas in Hleaf.
  unfold cas_untouched, cas_drawn in *.
  rewrite Hd1, Hd2, Hg1, Hg2 in Hleaf. exact Hleaf.
Qed.

(** *** Where the walk stands when it calls insert_root *)

Lemma installs_nil_app e1 e2 :
  installs (e1 ++ e2) = [] <-> installs e1 = [] /\ installs e2 = [].
Proof.
  rewrite installs_app. split.
  - intros H. apply app_eq_nil in H. exact H.
  - intros [-> ->]. reflexivity.
Qed.

Lemma split_installs cur key nv (c : cache node) cur1 c1 :
  check_and_handle_split P E cur key nv c = Ok (cur1, c1) ->
  exists evs,
    trace c1 = evs ++ trace c
    /\ ((sb_buf cur1 = sb_buf cur /\ last_buf cur1 = last_buf cur
         /\ installs evs = [])
        \/ (last_buf cur = None /\ is_acquired (sb_buf cur) = true
            /\ sb_buf cur1 = None /\ is_acquired (last_buf cur1) = true
            /\ installs evs <> [])).
Proof.
  intros Hrun.
  refine (wp_ok _ (fun cur1 c1 => _) (fun _ => True) _ _ _ Hrun _).
  apply wp_split; [trivial|].
  intros b n full Hb Hn Hdec. split.
  - intros _. exists [EvSplitCheck b]. split; [reflexivity|]. left. auto.
  - intros _ r lnode rsib median _ _ _ _ _. split.
    + intros l pn success pn' Hl _ _. split; [trivial|]. intros _.
      exists [EvInternalInsert l (internal_is_full P pn) success;
              EvSplitCheck b].
      split; [reflexivity|]. left. cbn [sb_buf last_buf]. rewrite Hl.
      destruct (0 >=? sized_strcmp key median); auto.
    + intros Hl. split; [auto|].
      intros sbid l success pn' Hsb _ _ _ _ _ _. split; [trivial|]. intros _.
      exists [EvInternalInsert l
                (internal_is_full P (internal_init P (block_size E))) success;
              EvReleaseSb 32; EvInsertRoot l; EvSplitCheck b].
      split; [reflexivity|]. right. rewrite Hsb.
      repeat split; auto; try discriminate;
        destruct (0 >=? sized_strcmp key median); reflexivity.
Qed.

Lemma underfull_installs cur key (c : cache node) cur1 c1 :
  check_and_handle_underfull P E cur key c = Ok (cur1, c1) ->
  exists evs,
    trace c1 = evs ++ trace c
    /\ last_buf cur1 = last_buf cur
    /\ ((sb_buf cur1 = sb_buf cur /\ installs evs = [])
        \/ (is_acquired (last_buf cur) = true
            /\ is_acquired (sb_buf cur) = true /\ sb_buf cur1 = None
            /\ installs evs <> [])).
Proof.
  intros Hrun.
  refine (wp_ok _ (fun cur1 c1 => _) (fun _ => True) _ _ _ Hrun _).
  apply wp_underfull; [trivial|].
  intros b n Hb Hn. split.
  - intros _. exists [EvUnderfullCheck b]. auto.
  - intros l pn cmp s sn Hl _ _ _ _ _ _. split.
    + intros _. exists [EvUnderfullCheck b]. auto.
    + intros _ survivor dead bl k _. split.
      * intros _. exists [EvUnderfullCheck b]. cbn. rewrite Hl. auto.
      * intros _. split; [auto|]. intros sbid Hsb.
        exists [EvReleaseSb 32; EvInsertRoot survivor; EvUnderfullCheck b].
        cbn. rewrite Hl, Hsb. split; [reflexivity|]. split; [reflexivity|].
        right. repeat split; auto; discriminate.
Qed.

(** One pass through the loop body: it ends with last_buf acquired, and
    with sb_buf acquired exactly when it was entered at the root with
    sb_buf acquired and did not call insert_root. *)
Lemma descend_step_position cur key (c : cache node) cur' c' :
  descend_step P E cur key c = Ok (cur', c') ->
  exists evs,
    trace c' = evs ++ trace c
    /\ is_acquired (last_buf cur') = true
    /\ (is_acquired (sb_buf cur') = true
        <-> is_acquired (sb_buf cur) = true /\ last_buf cur = None
            /\ installs evs = []).
Proof.
  intros Hrun. unfold descend_step in Hrun.
  apply bind_ok_inv in Hrun as (cur1 & c1 & Hsplit & Hrun).
  apply bind_ok_inv in Hrun as (cur2 & c2 & Hunder & Hrun).
  apply bind_ok_inv in Hrun as (cur3 & c3 & Hrel & Hchild).
  apply split_installs in Hsplit as (e1 & Ht1 & Hs1).
  apply underfull_installs in Hunder as (e2 & Ht2 & Hl2 & Hs2).
  apply release_sb_locks in Hrel as (_ & Hl3 & _ & Hs3).
  apply descend_to_child_locks in Hchild as (-> & Hl4 & Hs4 & Hacq & _).
  assert (Hrel : exists e3, trace c3 = e3 ++ trace c2 /\ installs e3 = []).
  { destruct Hs3 as [(_ & _ & ->)|(_ & _ & ->)];
      [exists [EvReleaseSb 201]|exists []]; split; reflexivity. }
  destruct Hrel as (e3 & Ht3 & Hi3).
  exists (e3 ++ e2 ++ e1).
  split; [rewrite Ht3, Ht2, Ht1, !app_assoc; reflexivity|].
  split; [rewrite Hl4; exact Hacq|].
  rewrite Hs4, !installs_nil_app.
  destruct Hs1 as [(Hsb1 & Hlast1 & Hi1)|(Hlast & Hsb & Hsb1 & Hlast1 & Hi1)].
  - destruct Hs2 as [(Hsb2 & Hi2)|(Hlast2 & Hsb2 & Hsb2' & Hi2)].
    + destruct Hs3 as [(Hc & -> & _)|(Hc & -> & _)];
        rewrite Hl2, Hlast1, Hsb2, Hsb1 in Hc.
      * split; [discriminate|]. intros (Hsb & Hl & _).
        rewrite Hsb, Hl in Hc. discriminate.
      * rewrite Hsb2, Hsb1. split.
        -- intros Hsb. rewrite Hsb in Hc. cbn [andb] in Hc.
           destruct (last_buf cur); [discriminate|]. auto.
        -- intros (Hsb & _). exact Hsb.
    + assert (sb_buf cur3 = None) as ->.
      { destruct Hs3 as [(_ & -> & _)|(_ & -> & _)]; [reflexivity|exact Hsb2']. }
      split; [discriminate|]. intros (_ & _ & _ & Hi & _). contradiction.
  - assert (sb_buf cur3 = None) as ->.
    { destruct Hs3 as [(_ & -> & _)|(_ & -> & _)]; [reflexivity|].
      destruct Hs2 as [(-> & _)|(_ & Hsb2 & _)]; [exact Hsb1|].
      rewrite Hsb1 in Hsb2. discriminate. }
    split; [discriminate|]. intros (_ & _ & _ & _ & Hi). contradiction.
Qed.

(** The position of the walk decides both locks: last_buf is unacquired
    only before the first pass, and sb_buf is acquired exactly when at most
    one pass has been made and insert_root has not run. *)
Lemma at_head_position key (c0 : cache node) i cur c :
  at_head P E key c0 i cur c ->
  exists evs,
    trace c = evs ++ trace c0
    /\ (last_buf cur = None <-> i = O)
    /\ (is_acquired (sb_buf cur) = true
        <-> (i <= 1)%nat /\ installs evs = []).
Proof.
  induction 1 as [sb b c1 Hroot|i cur c cur' c' Hhead IH Hint Hstep].
  - refine (wp_ok _ (fun r c1 => exists evs,
              trace c1 = evs ++ trace c0
              /\ (last_buf (mk_cursor (snd r) None (fst r)) = None <-> O = O)
              /\ (is_acquired (sb_buf (mk_cursor (snd r) None (fst r))) = true
                  <-> (0 <= 1)%nat /\ installs evs = []))
              (fun _ => True) _ _ _ Hroot _).
    apply wp_get_root_start.
    + intros _ b0 _ _ _. exists [EvReleaseSb 32; EvInsertRoot b0].
      cbn. split; [reflexivity|]. split; [tauto|].
      split; [discriminate|]. intros [_ Hi]. discriminate.
    + intros _. split; [trivial|]. split; [trivial|]. intros _ _.
      exists []. cbn. split; [reflexivity|]. split; [tauto|].
      split; auto.
  - destruct IH as (evs & Ht & Hlast & Hsb).
    apply descend_step_position in Hstep as (evs' & Ht' & Hlast' & Hsb').
    exists (evs' ++ evs).
    split; [rewrite Ht', Ht, app_assoc; reflexivity|].
    split.
    + split; [|discriminate]. intros Hnone. rewrite Hnone in Hlast'.
      discriminate.
    + rewrite Hsb', Hsb, Hlast, installs_nil_app. split.
      * intros ((_ & Hi) & -> & Hi'). split; [lia|auto].
      * intros (Hle & Hi' & Hi). assert (i = O) as -> by lia.
        repeat split; auto.
Qed.


(** *** The walk of a refused operation *)

Lemma descend_quiet fuel key : forall cur (c : cache node) cur2 c2 b,
  descend P E fuel cur key c = Ok (cur2, c2) ->
  buf cur = Some b ->
  quiet_path P E fuel key (blocks c) b (is_acquired (last_buf cur)) ->
  c2 = set_trace c (trace c2).
Proof.
  induction fuel as [|fuel IH]; intros cur c cur2 c2 b Hrun Hb Hq;
    cbn [descend] in Hrun;
    apply bind_ok_inv in Hrun as (internal & c0 & Hat & Hrun);
    apply at_internal_inv in Hat as (-> & b' & n & Hb' & Hn & ->);
    assert (b' = b) as -> by congruence;
    cbn [quiet_path] in Hq; rewrite Hn in Hq;
    destruct (node_is_internal P n); try discriminate.
  1, 3: injection Hrun as <- <-; destruct c; reflexivity.
  destruct Hq as (Hfull & Hunder & Hnext).
  apply bind_ok_inv in Hrun as (cur6 & c6 & Hstep & Hrun).
  unfold descend_step in Hstep.
  apply bind_ok_inv in Hstep as (cur3 & c3 & Hsplit & Hstep).
  apply bind_ok_inv in Hstep as (cur4 & c4 & Hunderfull & Hstep).
  apply bind_ok_inv in Hstep as (cur5 & c5 & Hrel & Hchild).
  assert (H3 : cur3 = cur /\ c3 = set_trace c (trace c3)).
  { refine (wp_ok _ (fun cur3 c3 => cur3 = cur /\ c3 = set_trace c (trace c3))
              (fun _ => True) _ _ _ Hsplit _).
    apply wp_split; [trivial|].
    intros b0 n0 full Hb0 Hn0 Hdec.
    assert (b0 = b) as -> by congruence.
    assert (n0 = n) as -> by congruence.
    split; [intros _; split; reflexivity|].
    intros ->. exfalso.
    destruct Hdec as [(_ & v & Hv & _)|(_ & Hf & _)]; congruence. }
  destruct H3 as [-> H3].
  assert (H4 : cur4 = cur /\ c4 = set_trace c3 (trace c4)).
  { refine (wp_ok _ (fun cur4 c4 => cur4 = cur
                                   /\ c4 = set_trace c3 (trace c4))
              (fun _ => True) _ _ _ Hunderfull _).
    apply wp_underfull; [trivial|].
    intros b0 n0 Hb0 Hn0.
    assert (b0 = b) as -> by congruence.
    assert (n0 = n) as ->.
    { rewrite H3 in Hn0. cbn [set_trace blocks] in Hn0. congruence. }
    split; [intros _; split; reflexivity|].
    intros l pn cmp s sn Hl Hu _ _ _ _ _. exfalso.
    rewrite Hl, Hu in Hunder. discriminate. }
  destruct H4 as [-> H4].
  assert (H5 : buf cur5 = buf cur /\ last_buf cur5 = last_buf cur
               /\ c5 = set_trace c4 (trace c5)).
  { unfold release_sb_past_root in Hrel.
    destruct (is_acquired (sb_buf cur) && is_acquired (last_buf cur));
      injection Hrel as <- <-; repeat split; destruct c4; reflexivity. }
  destruct H5 as (Hb5 & _ & H5).
  apply descend_to_child_locks in Hchild
    as (-> & Hlast & _ & _ & b1 & n1 & child & Hb1 & Hn1 & -> & Hbuf6 & _).
  assert (Hbl : blocks c5 = blocks c).
  { rewrite H5, H4, H3. reflexivity. }
  assert (b1 = b) as -> by congruence.
  assert (n1 = n) as -> by (rewrite Hbl in Hn1; congruence).
  specialize (IH cur6 c5 cur2 c2 _ Hrun Hbuf6).
  rewrite Hlast, Hb5, Hb, Hbl in IH. specialize (IH Hnext).
  rewrite IH, H5, H4, H3. reflexivity.
Qed.


End Facts.


(** ** The walk on concrete trees *)

Module Runs.

Import Toy Cases.

Lemma toy_room_contract bs : room_contract prims bs.
Proof.
  constructor; cbn.
  - intros [ps|ks kids] key l r; cbn; [discriminate|].
    destruct (Nat.eqb (length kids) 4); [discriminate|reflexivity].
  - reflexivity.
  - intros [ps|ks kids] l r m; cbn; [discriminate|].
    intros _ Hfull [= <- <- <-]. apply Nat.eqb_eq in Hfull. cbn.
    destruct kids as [|k1 [|k2 [|k3 [|k4 [|k5 kids]]]]]; try discriminate.
    split; reflexivity.
Qed.

Lemma toy_no_refill bs : no_refill prims bs.
Proof.
  constructor; cbn.
  - intros [ps|ks kids] [qs|ks' kids'] pn; cbn; try discriminate.
    unfold is_underfull, is_mergable. cbn.
    intros _ _ Hm. apply Nat.leb_le in Hm.
    rewrite !length_app. split; apply Nat.eqb_neq; lia.
  - intros n sn pn Hfull _ _. exact Hfull.
Qed.

Lemma refill_room_contract bs : room_contract Shapes.Refill.prims bs.
Proof.
  constructor; cbn.
  - intros [ps|ks kids] key l r; cbn; [discriminate|].
    destruct (Nat.eqb (length kids) 4); [discriminate|reflexivity].
  - reflexivity.
  - intros [ps|ks kids] l r m; cbn; [discriminate|].
    intros _ Hfull [= <- <- <-]. apply Nat.eqb_eq in Hfull. cbn.
    destruct kids as [|k1 [|k2 [|k3 [|k4 [|k5 kids]]]]]; try discriminate.
    split; reflexivity.
Qed.

(** A full root leaf is split for key "e": the cursor moves to the new
    right sibling. *)
Lemma split_redirects_cursor_witness :
  (sized_strcmp (k "e") (k "b") <= 0 -> buf (fst split_out) = Some 5%N)
  /\ (sized_strcmp (k "e") (k "b") > 0 ->
      exists r, buf (fst split_out) = Some r /\ r <> 5%N
                /\ blocks one_leaf !! r = None
                /\ blocks (snd split_out) !! r
                   = Some (TLeaf [(k "c", va); (k "d", va)]))
  /\ (k "e" = k "b" -> buf (fst split_out) = Some 5%N)
  /\ (last_buf at_root5 <> Some 5%N ->
      blocks (snd split_out) !! 5%N
      = Some (TLeaf [(k "a", va); (k "b", va)])).
Proof.
  apply (split_redirects_cursor prims dbg at_root5 (k "e") (Some va) one_leaf
           (fst split_out) (snd split_out) 5%N full_leaf).
  - reflexivity.
  - vm_compute. reflexivity.
  - left. split; [reflexivity|]. exists va. split; reflexivity.
  - reflexivity.
  - vm_compute. reflexivity.
Defined.

Lemma not_held (x : block_id) (held : list buf_lock) :
  ~ In (Some x) held -> x ∉ held_ids held.
Proof. intros Hn Hin. apply Hn, held_ids_spec, Hin. Qed.

(** A walk that finds the expired key "k" in a root leaf and whose operator
    declines: the key is gone afterwards and the walk ends normally. *)
Lemma expired_key_silently_deleted_witness :
  exists c',
    at_leaf prims dbg noop_oper at_root5 (k "k") stale_leaf
      = Ok ((at_root5, true), c')
    /\ blocks c' !! 5%N = Some (TLeaf []).
Proof.
  destruct (expired_key_silently_deleted prims dbg noop_oper at_root5 (k "k")
              stale_leaf 5%N (TLeaf [(k "k", stale)]) stale)
    as [_ Hok].
  - reflexivity.
  - vm_compute. reflexivity.
  - reflexivity.
  - reflexivity.
  - right. reflexivity.
  - reflexivity.
  - right. reflexivity.
  - eexists. split; [apply Hok; reflexivity|]. vm_compute. reflexivity.
Defined.

(** Storing a has_cas value in the split leaf: the stored value carries the
    CAS 1 that gen_cas has just produced. *)
Lemma cas_assigned_lazily_witness :
  exists c2,
    update_leaf prims dbg (set_oper wants_cas None) at_root5 (k "e") false
      false (Some wants_cas) one_leaf = Ok (fst cas_split_out, c2)
    /\ last_cas c2 = Some 1
    /\ blocks c2 !! 4294967296%N
       = Some (TLeaf [(k "c", va); (k "d", va); (k "e", set_cas wants_cas 1)]).
Proof.
  destruct (cas_assigned_lazily prims dbg (set_oper wants_cas None) at_root5
              (k "e") false false wants_cas one_leaf (fst cas_split_out)
              (snd cas_split_out) 4294967296%N
              (TLeaf [(k "c", va); (k "d", va)])
              (TLeaf [(k "c", va); (k "d", va);
                      (k "e", set_cas wants_cas 1)]))
    as (c2 & Hrun & Hblocks & _ & Hcas & _).
  - vm_compute. reflexivity.
  - reflexivity.
  - vm_compute. reflexivity.
  - vm_compute. reflexivity.
  - exists c2. split; [exact Hrun|]. split.
    + apply Hcas. reflexivity.
    + rewrite Hblocks. apply lookup_insert_eq.
Defined.

(** Merging the two one-key leaves of a two-child root retires the root. *)
Lemma merge_handles_parent_witness :
  exists c',
    check_and_handle_underfull prims dbg at_leaf1 (k "a") thin_tree
      = Ok (mk_cursor (Some 2%N) (Some 10%N) None, c')
    /\ 10%N ∈ deleted c'
    /\ root_block c' = 2%N
    /\ pm_btree_depth c' = 1.
Proof.
  destruct (merge_handles_parent prims dbg at_leaf1 (k "a") thin_tree
              1%N (TLeaf [(k "a", va)]) 10%N (TInternal [k "b"] [1%N; 2%N])
              (-1) 2%N (TLeaf [(k "c", va)]) 2%N 1%N
              (<[ 2%N := TLeaf [(k "a", va); (k "c", va)] ]>
                 (<[ 1%N := TLeaf [(k "a", va)] ]> (blocks thin_tree)))
              (k "b"))
    as [Hsingle _].
  - reflexivity.
  - vm_compute. reflexivity.
  - reflexivity.
  - reflexivity.
  - vm_compute. reflexivity.
  - reflexivity.
  - apply not_held. cbn. intros [H|[H|[H|[]]]]; discriminate.
  - vm_compute. reflexivity.
  - reflexivity.
  - reflexivity.
  - vm_compute. reflexivity.
  - destruct (Hsingle eq_refl SUPERBLOCK_ID eq_refl)
      as (c' & Hrun & Hdel & Hroot & Hdepth & _).
    exists c'. repeat split; auto.
Defined.

(** The first modify of an empty slice makes a leaf root at depth 1 and lets
    go of the superblock. *)
Lemma get_root_spec_witness :
  exists b c',
    get_root prims dbg (Some SUPERBLOCK_ID) None empty
      = Ok ((None, Some b), c')
    /\ blocks c' !! b = Some (TLeaf [])
    /\ root_block c' = b
    /\ pm_btree_depth c' = 1.
Proof.
  destruct (get_root_spec prims dbg empty) as [Hempty _].
  destruct (Hempty eq_refl) as (b & c' & Hrun & _ & Hbl & Hroot & _ & Hd & _).
  exists b, c'. repeat split; auto.
  rewrite Hbl. apply lookup_insert_eq.
Defined.

(** The iteration at the full root of [wide_tree]: the root is split and the
    superblock is released by insert_root. *)
Lemma sb_release_timing_witness :
  exists evs,
    trace (snd step_out) = evs ++ trace wide_tree
    /\ sb_buf (fst step_out) = None
    /\ sb_releases evs = [32%nat].
Proof.
  destruct (sb_release_timing prims dbg at_root10 (k "a") wide_tree
              (fst step_out) (snd step_out))
    as (b & n & evs & Hb & Hn & Ht & _ & _ & _ & Hsplit & _).
  - vm_compute. reflexivity.
  - injection Hb as <-. vm_compute in Hn. injection Hn as <-.
    exists evs. split; [exact Ht|]. apply Hsplit; reflexivity.
Defined.

(** C7, counterexample: on [wide_tree] the first iteration splits the full
    root; when it reaches line 200 the cursor stands on a child of the new
    root and sb_buf is already released. *)
Lemma sb_not_held_after_root_split : ~ sb_held_near_root prims dbg.
Proof.
  intros H.
  assert (Hrun : loop_handlers prims dbg at_root10 (k "a") wide_tree
                 = Ok (fst wide_handlers_out, snd wide_handlers_out))
    by (vm_compute; reflexivity).
  specialize (H at_root10 (k "a") wide_tree _ _ eq_refl Hrun).
  assert (Hnear : near_root (fst wide_handlers_out) (snd wide_handlers_out))
    by (right; vm_compute; reflexivity).
  specialize (H Hnear). vm_compute in H. discriminate H.
Qed.



(** C1: with the rasserts compiled in, replacing the large value of "k"
    (root block 50) by a large value with its own handle (root block 77)
    ends at the assertion of line 309 instead of committing. *)
Theorem large_swap_trips_line_309 :
  run_btree_modify_oper prims dbg swap_oper 3 (k "k") large_leaf
  = Fail (AssertFailed 309).
Proof. vm_compute. reflexivity. Qed.

(** Without the rasserts the same walk commits: the old large value is
    marked deleted and the leaf holds the new one. *)
Lemma large_swap_without_rasserts :
  run_btree_modify_oper prims rel swap_oper 3 (k "k") large_leaf = Ok swap_out
  /\ elements (large_deleted (snd swap_out)) = [50%N]
  /\ blocks (snd swap_out) !! 5%N = Some (TLeaf [(k "k", big 77%N)]).
Proof. vm_compute. repeat split; reflexivity. Qed.

(** The general form of the same conflict, on the concrete leaf. *)
Lemma large_swap_never_commits_here out :
  at_leaf prims dbg swap_oper at_root5 (k "k") large_leaf <> Ok out.
Proof.
  apply (large_swap_never_commits prims dbg swap_oper at_root5 (k "k")
           large_leaf 5%N (TLeaf [(k "k", big 50%N)]) (big 50%N) 50%N
           (big 77%N) 77%N (mk_large_buf 50%N loaded)
           (mk_large_buf 77%N loaded));
    reflexivity.
Qed.





End Runs.

(** ** More runs on concrete trees *)

Module MoreRuns.

Import Toy Cases MoreCases.

(** The root of [thin_tree] has room: the split check leaves it alone. *)
Lemma split_not_needed_witness :
  check_and_handle_split prims dbg at_root10 (k "a") None thin_tree
  = Ok (at_root10, set_trace thin_tree [EvSplitCheck 10%N]).
Proof.
  apply (split_not_needed prims dbg at_root10 (k "a") None thin_tree 10%N
           (TInternal [k "b"] [1%N; 2%N])).
  - reflexivity.
  - vm_compute. reflexivity.
  - right. split; [reflexivity|]. split; reflexivity.
Defined.

(** The split check on a leaf without a value to insert. *)
Lemma split_wants_value_on_leaf_only_witness :
  check_and_handle_split prims dbg at_root5 (k "e") None one_leaf
  = Fail (AssertFailed 44).
Proof.
  destruct (split_wants_value_on_leaf_only prims dbg at_root5 (k "e")
              one_leaf 5%N full_leaf) as [Hleaf _].
  - reflexivity.
  - vm_compute. reflexivity.
  - reflexivity.
  - apply Hleaf; reflexivity.
Defined.

(** The full root leaf of [one_leaf] is split for "e". *)
Lemma root_split_grows_tree_witness :
  exists r l cur' c',
    check_and_handle_split prims dbg at_root5 (k "e") (Some va) one_leaf
      = Ok (cur', c')
    /\ r <> 5%N /\ l <> 5%N /\ l <> r
    /\ buf cur' = Some r /\ last_buf cur' = Some l /\ sb_buf cur' = None
    /\ blocks c' !! l = Some (TInternal [k "b"] [5%N; r])
    /\ root_block c' = l
    /\ pm_btree_depth c' = 2.
Proof.
  destruct (root_split_grows_tree prims dbg at_root5 (k "e") (Some va)
              one_leaf 5%N full_leaf SUPERBLOCK_ID
              (TLeaf [(k "a", va); (k "b", va)])
              (TLeaf [(k "c", va); (k "d", va)]) (k "b"))
    as (r & l & cur' & c' & Hrun & _ & _ & Hr & Hl & Hlr & Hbuf & Hlast
        & Hsb & Hbl & Hroot & Hdepth & _).
  - reflexivity.
  - vm_compute. reflexivity.
  - reflexivity.
  - reflexivity.
  - left. split; [reflexivity|]. exists va. split; reflexivity.
  - reflexivity.
  - intros _ r. reflexivity.
  - exists r, l, cur', c'. repeat split; auto.
    rewrite Hbl. apply lookup_insert_eq.
Defined.

(** The full leaf 1 of [tall_tree] is split for "e": the median goes into
    the root, which stays the root. *)
Lemma inner_split_keeps_root_witness :
  exists r cur' c',
    check_and_handle_split prims dbg at_full_leaf1 (k "e") (Some va) tall_tree
      = Ok (cur', c')
    /\ buf cur' = Some r /\ last_buf cur' = Some 10%N
    /\ blocks c' !! 10%N = Some (TInternal [k "b"; k "e"] [1%N; r; 2%N])
    /\ root_block c' = 10%N
    /\ pm_btree_depth c' = 2.
Proof.
  destruct (inner_split_keeps_root prims dbg at_full_leaf1 (k "e") (Some va)
              tall_tree 1%N full_leaf 10%N (TInternal [k "e"] [1%N; 2%N])
              (TLeaf [(k "a", va); (k "b", va)])
              (TLeaf [(k "c", va); (k "d", va)]) (k "b"))
    as (r & cur' & c' & Hrun & _ & _ & _ & Hbuf & Hlast & _ & Hbl & Hroot
        & Hdepth & _).
  - reflexivity.
  - vm_compute. reflexivity.
  - reflexivity.
  - discriminate.
  - vm_compute. reflexivity.
  - left. split; [reflexivity|]. exists va. split; reflexivity.
  - reflexivity.
  - intros _ r. reflexivity.
  - exists r, cur', c'. repeat split; auto.
    rewrite Hbl. apply lookup_insert_eq.
Defined.

(** Inserting "e" into [one_leaf] splits the root leaf; everything the walk
    changed is dirty. *)
Lemma walk_writes_through_write_views_witness :
  grows one_leaf (snd insert_e_out).
Proof.
  apply (walk_writes_through_write_views prims dbg (set_oper va None) 5
           (k "e") one_leaf (fst insert_e_out)).
  vm_compute. reflexivity.
Defined.

(** Deleting "a" from [thin_tree] merges the two leaves and retires the
    root: one release, by insert_root. *)
Lemma walk_releases_superblock_once_witness :
  walk_account thin_tree (snd delete_a_out).
Proof.
  apply (walk_releases_superblock_once prims dbg delete_oper 5 (k "a")
           thin_tree (fst delete_a_out)).
  vm_compute. reflexivity.
Defined.

(** The root of [thin_tree] holds one key only, and is left alone. *)
Lemma underfull_not_needed_witness :
  check_and_handle_underfull prims dbg at_root10 (k "a") thin_tree
  = Ok (at_root10, set_trace thin_tree [EvUnderfullCheck 10%N]).
Proof.
  apply (underfull_not_needed prims dbg at_root10 (k "a") thin_tree 10%N
           (TInternal [k "b"] [1%N; 2%N])).
  - reflexivity.
  - vm_compute. reflexivity.
  - left. reflexivity.
Defined.

(** Leaf 1 of [lopsided_tree] is underfull and its sibling too big to
    merge with. *)
Lemma level_keeps_structure_witness :
  exists c',
    check_and_handle_underfull prims dbg at_leaf1 (k "a") lopsided_tree
      = Ok (at_leaf1, c')
    /\ deleted c' = ∅
    /\ root_block c' = 10%N
    /\ pm_btree_depth c' = 2.
Proof.
  destruct (level_keeps_structure prims dbg at_leaf1 (k "a") lopsided_tree
              1%N (TLeaf [(k "a", va)]) 10%N (TInternal [k "b"] [1%N; 2%N])
              (-1) 2%N (TLeaf [(k "c", va); (k "d", va); (k "e", va)])
              (TLeaf [(k "a", va)])
              (TLeaf [(k "c", va); (k "d", va); (k "e", va)]) [] [] false)
    as (c' & Hrun & _ & Hdel & Hroot & Hdepth & _).
  - reflexivity.
  - vm_compute. reflexivity.
  - reflexivity.
  - reflexivity.
  - vm_compute. reflexivity.
  - reflexivity.
  - apply Runs.not_held. cbn. intros [H|[H|[H|[]]]]; discriminate.
  - vm_compute. reflexivity.
  - reflexivity.
  - reflexivity.
  - reflexivity.
  - exists c'. repeat split; auto.
Defined.

(** Leaf 1 of [thin_tree] lies left of leaf 2: it is the one that dies. *)
Lemma merge_keeps_right_node_witness :
  buf (fst merge_out) = Some 2%N
  /\ 1%N ∈ deleted (snd merge_out)
  /\ blocks (snd merge_out) !! 2%N
     = Some (TLeaf [(k "a", va); (k "c", va)]).
Proof.
  destruct (merge_keeps_right_node prims dbg at_leaf1 (k "a") thin_tree
              (fst merge_out) (snd merge_out)
              1%N (TLeaf [(k "a", va)]) 10%N (TInternal [k "b"] [1%N; 2%N])
              (-1) 2%N (TLeaf [(k "c", va)]))
    as (_ & _ & Hleft & _).
  - reflexivity.
  - vm_compute. reflexivity.
  - reflexivity.
  - discriminate.
  - reflexivity.
  - vm_compute. reflexivity.
  - reflexivity.
  - vm_compute. reflexivity.
  - reflexivity.
  - vm_compute. reflexivity.
  - destruct Hleft as (Hbuf & Hdel & Hbl & _); [lia|]. auto.
Defined.

(** The descent for "a" in [thin_tree] stops on leaf 1 under root 10. *)
Lemma descent_stops_below_parent_witness :
  buf (fst descend_out) = Some 1%N
  /\ last_buf (fst descend_out) = Some 10%N
  /\ lookup_internal (TInternal [k "b"] [1%N; 2%N]) (k "a") = 1%N.
Proof.
  destruct (descent_stops_below_parent prims dbg 5 at_root10 (k "a")
              thin_tree (fst descend_out) (snd descend_out))
    as (b & n & Hb & Hn & _ & [[Hcur _]|(l & pn & Hl & Hpn & Hlk & _)]).
  - vm_compute. reflexivity.
  - discriminate Hcur.
  - injection Hb as <-. injection Hl as <-.
    vm_compute in Hpn. injection Hpn as <-. auto.
Defined.

(** Deleting the key of [large_leaf] retires the large value rooted at
    block 50. *)
Lemma old_large_value_retired_witness :
  snd (fst delete_large_out) = true
  /\ large_deleted (snd delete_large_out) = {[ 50%N ]} ∪ ∅.
Proof.
  destruct (old_large_value_retired prims dbg delete_oper at_root5 (k "k")
              large_leaf (fst delete_large_out) (snd delete_large_out)
              5%N (TLeaf [(k "k", big 50%N)]))
    as (Hres & Hld & _).
  - reflexivity.
  - vm_compute. reflexivity.
  - vm_compute. reflexivity.
  - split; [exact Hres|exact Hld].
Defined.

(** Without rasserts a walk can reach the insert with the cursor on an
    internal node; leaf::insert refuses and the guarantee stops the walk. *)
Lemma insert_commits_or_aborts_witness :
  update_leaf prims rel (set_oper va None) at_root10 (k "a") false false
    (Some va) thin_tree
  = Fail (GuaranteeFailed 281).
Proof.
  exact (insert_commits_or_aborts prims rel (set_oper va None) at_root10
           (k "a") false false va thin_tree at_root10
           (set_trace thin_tree [EvSplitCheck 10%N]) va
           (set_trace thin_tree [EvSplitCheck 10%N]) 10%N
           (TInternal [k "b"] [1%N; 2%N])
           eq_refl eq_refl eq_refl eq_refl).
Defined.

(** Deleting "z", which [one_leaf] does not hold. *)
Lemma delete_of_absent_key_writes_nothing_witness :
  exists c',
    at_leaf prims dbg delete_oper at_root5 (k "z") one_leaf
      = Ok ((at_root5, true), c')
    /\ blocks c' = blocks one_leaf /\ dirty c' = ∅.
Proof.
  destruct (delete_of_absent_key_writes_nothing prims dbg delete_oper
              at_root5 (k "z") one_leaf 5%N full_leaf)
    as (c' & Hrun & Hbl & Hdirty & _).
  - reflexivity.
  - vm_compute. reflexivity.
  - reflexivity.
  - reflexivity.
  - reflexivity.
  - reflexivity.
  - reflexivity.
  - left. reflexivity.
  - exists c'. auto.
Defined.

(** The first insert into the empty slice. *)
Lemma first_insert_builds_root_leaf_witness :
  exists l c',
    run_btree_modify_oper prims dbg (set_oper va None) 0 (k "a") empty
      = Ok ((mk_cursor (Some l) None None, true), c')
    /\ blocks c' = <[ l := TLeaf [(k "a", va)] ]> ∅
    /\ root_block c' = l
    /\ pm_btree_depth c' = 1.
Proof.
  destruct (first_insert_builds_root_leaf prims dbg (set_oper va None) 0
              (k "a") empty va (TLeaf [(k "a", va)]))
    as (l & c' & Hrun & _ & _ & _ & Hbl & Hroot & Hdepth & _);
    try reflexivity.
  exists l, c'. auto.
Defined.

(** Inserting a value that wants a CAS into [one_leaf]: the one CAS the
    generator hands out is 1. *)
Lemma walk_draws_at_most_one_cas_witness :
  cas_counter (snd insert_cas_out) = 1 /\ last_cas (snd insert_cas_out) = Some 1.
Proof.
  destruct (walk_draws_at_most_one_cas prims dbg (set_oper wants_cas None) 5
              (k "e") one_leaf (fst insert_cas_out) (snd insert_cas_out))
    as [[_ Hlast]|(_ & _ & Hdrawn)].
  - vm_compute. reflexivity.
  - discriminate Hlast.
  - exact Hdrawn.
Defined.

(** Storing a large value under a new key: the handle that comes back
    is rooted where the value points. *)
Lemma committed_walk_saw_consistent_result_witness :
  exists lv,
    new_large_buflock (operate swap_oper None None) = Some lv
    /\ lb_root lv = 77%N.
Proof.
  destruct (committed_walk_saw_consistent_result prims dbg swap_oper at_root5
              (k "z") large_leaf (fst insert_large_out)
              (snd insert_large_out) 5%N (TLeaf [(k "k", big 50%N)]))
    as [_ [Hupd _]].
  - reflexivity.
  - vm_compute. reflexivity.
  - vm_compute. reflexivity.
  - reflexivity.
  - exact (Hupd eq_refl).
Defined.

End MoreRuns.
